(** * ThreadPool.h: an interleaving model of the C++11 thread pool

    The pool of [ThreadPool.h] is modelled as a transition system.  Every
    thread of the program (the [threads] workers started by the constructor,
    each invocation of [enqueue], and the thread running the destructor) has a
    control point; one scheduling [action] lets one thread execute the code
    between two of its control points.  Code executed while holding
    [queue_mutex] is one step: nothing else can touch [tasks] or [stop]
    meanwhile.  The step function is executable, so that schedules can be run
    on concrete pools.

    What belongs to the C++ standard library is modelled by its documented
    behaviour: [std::queue] is a list used at both ends, [std::mutex] an
    optional owner, [std::condition_variable] the set of workers inside
    [wait], [std::packaged_task] / [std::future] a shared cell written once
    by the task and read once through the future. *)

From Stdlib Require Import ZArith Lia.
From stdpp Require Import base option list.

Set Default Proof Using "Type".

(** ** Data *)

(** A [std::shared_ptr<std::packaged_task<return_type()>>] is the index of
    its invocation of [enqueue]: every invocation makes exactly one. *)
Abbreviation handle := nat (only parsing).

Section ThreadPool.

(** [return_type] is the [std::result_of<F(Args...)>::type] of the submitted
    callable; [exn] is what a callable may throw. *)
Context {return_type exn : Type}.

(** A call of a user callable either returns or throws. *)
Inductive outcome :=
  | Returned (v : return_type)
  | Raised (e : exn).

(** [std::bind(std::forward<F>(f), std::forward<Args>(args)...)]: a callable
    without arguments. *)
Definition bound := unit → outcome.

Definition bind {A : Type} (f : A → outcome) (args : A) : bound :=
  λ _, f args.

(** The shared state behind a [std::packaged_task] and its [std::future]. *)
Inductive shared_state :=
  | Pending
  | Ready (o : outcome)
  | BrokenPromise.


(** Control points of one invocation of [enqueue]. *)
Inductive enqueue_pc :=
  | EConstructed   (* task and future made, before the lock *)
  | ELocked        (* holds queue_mutex, before [if (stop)] *)
  | EThrew         (* left by [throw std::runtime_error] *)
  | EPushed        (* emplaced and unlocked, before [notify_one] *)
  | EReturned.     (* [return res] *)

Record invocation := Invocation {
  callable : bound;          (* what the packaged_task wraps *)
  cell : shared_state;       (* its shared state *)
  pc : enqueue_pc;
  future_valid : bool        (* [res.valid()] in the caller's hands *)
}.

(** Control points of a worker's lambda. *)
Inductive worker_pc :=
  | WIdle                  (* top of [for (;;)] *)
  | WLocked                (* holds queue_mutex, at the wait predicate *)
  | WWaiting               (* inside [condition.wait], mutex released *)
  | WWoken                 (* woken, has to take the mutex again *)
  | WRunning (h : handle)  (* unlocked, about to call [task()] *)
  | WExited                (* [return] *)
  | WCrashed.              (* an exception left the lambda *)

(** Control points of [~ThreadPool]. *)
Inductive dtor_pc :=
  | DAlive               (* not called *)
  | DLocked              (* holds queue_mutex *)
  | DStopped             (* [stop = true], unlocked, before [notify_all] *)
  | DJoining (i : nat)   (* in the join loop, at [workers[i]] *)
  | DDestroyed.          (* joined, members destroyed *)

Inductive thread :=
  | Worker (w : nat)
  | Caller (h : handle)
  | Destructor.

#[global] Instance thread_eq_dec : EqDecision thread.
Proof. solve_decision. Defined.

#[global] Instance enqueue_pc_eq_dec : EqDecision enqueue_pc.
Proof. solve_decision. Defined.

#[global] Instance worker_pc_eq_dec : EqDecision worker_pc.
Proof. solve_decision. Defined.

#[global] Instance dtor_pc_eq_dec : EqDecision dtor_pc.
Proof. solve_decision. Defined.

Record state := State {
  workers : list worker_pc;      (* std::vector<std::thread> workers *)
  tasks : list handle;           (* std::queue<std::function<void()>> tasks *)
  queue_mutex : option thread;   (* std::mutex queue_mutex: its owner *)
  stop : bool;
  invocations : list invocation;
  dtor : dtor_pc
}.

(** The wait set of [condition]. *)
Definition is_waiting (p : worker_pc) : bool :=
  match p with WWaiting => true | _ => false end.

Definition condition (s : state) : list nat :=
  omap (λ '(w, p), if is_waiting p then Some w else None)
       (zip (seq 0 (length (workers s))) (workers s)).

(** What [future::get] yields. *)
Inductive get_result :=
  | GetValue (v : return_type)
  | GetRethrow (e : exn)
  | GetBroken       (* std::future_error, broken_promise *)
  | GetNoState.     (* get on a future that is not valid *)

(** What a step did. *)
Inductive event :=
  | EvCall (h : handle)
  | EvLock (t : thread)
  | EvPush (h : handle)
  | EvReject (h : handle)
  | EvNotifyOne (h : handle) (woken : option nat)
  | EvWait (w : nat)
  | EvSpurious (w : nat)
  | EvExit (w : nat)
  | EvDequeue (w : nat) (h : handle)
  | EvRun (w : nat) (h : handle) (o : outcome)
  | EvCrash (w : nat)
  | EvStop
  | EvNotifyAll
  | EvJoin (w : nat)
  | EvDestroy (abandoned : list handle)
  | EvGet (h : handle) (r : get_result).

(** What the scheduler may choose. *)
Inductive action :=
  | AEnqueue (b : bound)                 (* some thread enters [enqueue] *)
  | ACaller (h : handle) (pick : option nat)
      (* invocation [h] goes on; [pick] is the waiter [notify_one] wakes *)
  | AWorker (w : nat)
  | AWake (w : nat)                      (* spurious wake-up *)
  | ADtor
  | AGet (h : handle).                   (* [get()] on the future of [h] *)

(** ** Field updates *)

Definition with_workers (ws : list worker_pc) (s : state) : state :=
  State ws (tasks s) (queue_mutex s) (stop s) (invocations s) (dtor s).
Definition with_tasks (q : list handle) (s : state) : state :=
  State (workers s) q (queue_mutex s) (stop s) (invocations s) (dtor s).
Definition with_mutex (m : option thread) (s : state) : state :=
  State (workers s) (tasks s) m (stop s) (invocations s) (dtor s).
Definition with_stop (b : bool) (s : state) : state :=
  State (workers s) (tasks s) (queue_mutex s) b (invocations s) (dtor s).
Definition with_invocations (l : list invocation) (s : state) : state :=
  State (workers s) (tasks s) (queue_mutex s) (stop s) l (dtor s).
Definition with_dtor (d : dtor_pc) (s : state) : state :=
  State (workers s) (tasks s) (queue_mutex s) (stop s) (invocations s) d.

Definition set_worker (w : nat) (p : worker_pc) (s : state) : state :=
  with_workers (<[w := p]> (workers s)) s.
Definition set_invocation (h : handle) (i : invocation) (s : state) : state :=
  with_invocations (<[h := i]> (invocations s)) s.

Definition set_pc (p : enqueue_pc) (i : invocation) : invocation :=
  Invocation (callable i) (cell i) p (future_valid i).
Definition set_cell (c : shared_state) (i : invocation) : invocation :=
  Invocation (callable i) c (pc i) (future_valid i).
Definition set_future_valid (b : bool) (i : invocation) : invocation :=
  Invocation (callable i) (cell i) (pc i) b.

(** ** The constructor *)

(** [for (size_t i = 0; i < threads; ++i) workers.emplace_back(...)]. *)
Fixpoint spawn (threads : nat) (ws : list worker_pc) : list worker_pc :=
  match threads with
  | O => ws
  | S k => spawn k (ws ++ [WIdle])
  end.

Definition ThreadPool (threads : nat) : state :=
  State (spawn threads []) [] None false [] DAlive.

(** ** The worker lambda *)

(** The predicate of [condition.wait]: [stop || !tasks.empty()]. *)
Definition is_empty (q : list handle) : bool :=
  match q with [] => true | _ => false end.

Definition wake_pred (stop : bool) (q : list handle) : bool :=
  stop || negb (is_empty q).

(** The block holding the lock: wait, exit test, [front] and [pop].  It
    returns the next control point and the queue it leaves. *)
Definition worker_claim (stop : bool) (q : list handle)
    : worker_pc * list handle :=
  if negb (wake_pred stop q) then (WWaiting, q)
  else if stop && is_empty q then (WExited, q)
  else match q with
       | h :: q' => (WRunning h, q')
       | [] => (WCrashed, q)     (* [front()] of an empty queue *)
       end.

Definition claim_event (w : nat) (p : worker_pc) : event :=
  match p with
  | WWaiting => EvWait w
  | WExited => EvExit w
  | WRunning h => EvDequeue w h
  | _ => EvCrash w
  end.

(** Calling the packaged_task: it stores what its callable does; invoking one
    whose state is already set throws [std::future_error]. *)
Definition invoke (i : invocation) : option invocation :=
  match cell i with
  | Pending => Some (set_cell (Ready (callable i ())) i)
  | _ => None
  end.

Definition worker_step (w : nat) (s : state) : option (event * state) :=
  match workers s !! w with
  | Some WIdle | Some WWoken =>
      match queue_mutex s with
      | None => Some (EvLock (Worker w),
                      set_worker w WLocked (with_mutex (Some (Worker w)) s))
      | Some _ => None
      end
  | Some WLocked =>
      let '(p, q) := worker_claim (stop s) (tasks s) in
      Some (claim_event w p,
            set_worker w p (with_tasks q (with_mutex None s)))
  | Some (WRunning h) =>
      match invocations s !! h with
      | Some i =>
          match invoke i with
          | Some i' => Some (EvRun w h (callable i ()),
                             set_worker w WIdle (set_invocation h i' s))
          | None => Some (EvCrash w, set_worker w WCrashed s)
          end
      | None => None
      end
  | _ => None
  end.

Definition wake_step (w : nat) (s : state) : option (event * state) :=
  match workers s !! w with
  | Some WWaiting => Some (EvSpurious w, set_worker w WWoken s)
  | _ => None
  end.

(** ** enqueue *)

(** Once the pool is destroyed there is no object left to call. *)
Definition is_destroyed (d : dtor_pc) : bool :=
  match d with DDestroyed => true | _ => false end.

(** Lines 95 to 99: the task is made and its future taken. *)
Definition enqueue_construct (b : bound) (s : state) : option (event * state) :=
  if is_destroyed (dtor s) then None
  else Some (EvCall (length (invocations s)),
             with_invocations
               (invocations s ++ [Invocation b Pending EConstructed true]) s).

Definition wake (p : worker_pc) : worker_pc :=
  match p with WWaiting => WWoken | _ => p end.

(** [condition.notify_one()]: one waiter is woken when there is one. *)
Definition notify_one (pick : option nat) (ws : list worker_pc)
    : option (list worker_pc) :=
  match pick with
  | Some w =>
      match ws !! w with
      | Some WWaiting => Some (<[w := WWoken]> ws)
      | _ => None
      end
  | None => if existsb is_waiting ws then None else Some ws
  end.

(** [condition.notify_all()]. *)
Definition notify_all (ws : list worker_pc) : list worker_pc := map wake ws.

Definition enqueue_step (h : handle) (pick : option nat) (s : state)
    : option (event * state) :=
  if is_destroyed (dtor s) then None
  else
    match invocations s !! h with
    | Some i =>
        match pc i with
        | EConstructed =>
            match queue_mutex s with
            | None => Some (EvLock (Caller h),
                            set_invocation h (set_pc ELocked i)
                              (with_mutex (Some (Caller h)) s))
            | Some _ => None
            end
        | ELocked =>
            if stop s then
              (* the exception unwinds: lock, future and task are destroyed *)
              Some (EvReject h,
                    set_invocation h
                      (Invocation (callable i) BrokenPromise EThrew false)
                      (with_mutex None s))
            else
              Some (EvPush h,
                    set_invocation h (set_pc EPushed i)
                      (with_tasks (tasks s ++ [h]) (with_mutex None s)))
        | EPushed =>
            match notify_one pick (workers s) with
            | Some ws => Some (EvNotifyOne h pick,
                               set_invocation h (set_pc EReturned i)
                                 (with_workers ws s))
            | None => None
            end
        | EThrew | EReturned => None
        end
    | None => None
    end.

(** ** future::get *)

Definition future_get (valid : bool) (c : shared_state) : option get_result :=
  if valid then
    match c with
    | Pending => None                       (* blocks *)
    | Ready (Returned v) => Some (GetValue v)
    | Ready (Raised e) => Some (GetRethrow e)
    | BrokenPromise => Some GetBroken
    end
  else Some GetNoState.

Definition get_step (h : handle) (s : state) : option (event * state) :=
  match invocations s !! h with
  | Some i =>
      match pc i with
      | EReturned =>
          match future_get (future_valid i) (cell i) with
          | Some r => Some (EvGet h r,
                            set_invocation h (set_future_valid false i) s)
          | None => None
          end
      | _ => None
      end
  | None => None
  end.

(** ** The destructor *)

(** Destroying a packaged_task that was never invoked abandons its shared
    state. *)
Definition abandon (i : invocation) : invocation :=
  match cell i with
  | Pending => set_cell BrokenPromise i
  | _ => i
  end.

Fixpoint abandon_all (q : list handle) (l : list invocation) : list invocation :=
  match q with
  | [] => l
  | h :: q' => abandon_all q' (alter abandon h l)
  end.

Definition dtor_step (s : state) : option (event * state) :=
  match dtor s with
  | DAlive =>
      match queue_mutex s with
      | None => Some (EvLock Destructor,
                      with_dtor DLocked (with_mutex (Some Destructor) s))
      | Some _ => None
      end
  | DLocked =>
      Some (EvStop, with_dtor DStopped (with_stop true (with_mutex None s)))
  | DStopped =>
      Some (EvNotifyAll,
            with_dtor (DJoining 0) (with_workers (notify_all (workers s)) s))
  | DJoining i =>
      match workers s !! i with
      | Some WExited => Some (EvJoin i, with_dtor (DJoining (S i)) s)
      | Some _ => None                       (* [join] blocks *)
      | None =>
          (* the loop is over; the members are destroyed *)
          Some (EvDestroy (tasks s),
                with_dtor DDestroyed
                  (with_invocations (abandon_all (tasks s) (invocations s))
                     (with_tasks [] s)))
      end
  | DDestroyed => None
  end.

(** ** The transition system *)

Definition step (a : action) (s : state) : option (event * state) :=
  match a with
  | AEnqueue b => enqueue_construct b s
  | ACaller h pick => enqueue_step h pick s
  | AWorker w => worker_step w s
  | AWake w => wake_step w s
  | ADtor => dtor_step s
  | AGet h => get_step h s
  end.

Fixpoint run (acts : list action) (s : state) : option (list event * state) :=
  match acts with
  | [] => Some ([], s)
  | a :: acts' =>
      match step a s with
      | Some (e, s') =>
          match run acts' s' with
          | Some (tr, s'') => Some (e :: tr, s'')
          | None => None
          end
      | None => None
      end
  end.

(** [tr] is the trace of a schedule of the pool made with [threads] workers
    and [s] the state it leads to. *)
Definition reachable (threads : nat) (tr : list event) (s : state) : Prop :=
  ∃ acts, run acts (ThreadPool threads) = Some (tr, s).

(** ** What a trace says *)

Definition pushed (tr : list event) : list handle :=
  omap (λ e, match e with EvPush h => Some h | _ => None end) tr.

Definition dequeued (tr : list event) : list handle :=
  omap (λ e, match e with EvDequeue _ h => Some h | _ => None end) tr.

Definition executed (tr : list event) : list handle :=
  omap (λ e, match e with EvRun _ h _ => Some h | _ => None end) tr.

Definition abandoned (tr : list event) : list handle :=
  mjoin (omap (λ e, match e with EvDestroy q => Some q | _ => None end) tr).

(** The tasks the workers hold: dequeued and not yet run. *)
Definition running_of (p : worker_pc) : option handle :=
  match p with WRunning h => Some h | _ => None end.

Definition running (s : state) : list handle := omap running_of (workers s).

(** [e1] happens before [e2] in [tr]. *)
Definition before (e1 e2 : event) (tr : list event) : Prop :=
  ∃ l1 l2 l3, tr = l1 ++ e1 :: l2 ++ e2 :: l3.

(** Who is inside a block that holds [queue_mutex]. *)
Definition holds (s : state) (t : thread) : Prop :=
  match t with
  | Worker w => workers s !! w = Some WLocked
  | Caller h => ∃ i, invocations s !! h = Some i ∧ pc i = ELocked
  | Destructor => dtor s = DLocked
  end.

(** ** The steps, case by case *)

(** The same transitions as a relation, one constructor for each piece of
    code a thread runs in one go. *)
Inductive step_rel (s : state) : event → state → Prop :=
  | SCall b
      (Ealive : is_destroyed (dtor s) = false) :
      step_rel s (EvCall (length (invocations s)))
        (with_invocations
           (invocations s ++ [Invocation b Pending EConstructed true]) s)
  | SLockC h i
      (Ealive : is_destroyed (dtor s) = false)
      (Einv : invocations s !! h = Some i)
      (Epc : pc i = EConstructed)
      (Emutex : queue_mutex s = None) :
      step_rel s (EvLock (Caller h))
        (set_invocation h (set_pc ELocked i) (with_mutex (Some (Caller h)) s))
  | SReject h i
      (Ealive : is_destroyed (dtor s) = false)
      (Einv : invocations s !! h = Some i)
      (Epc : pc i = ELocked)
      (Estop : stop s = true) :
      step_rel s (EvReject h)
        (set_invocation h (Invocation (callable i) BrokenPromise EThrew false)
           (with_mutex None s))
  | SPush h i
      (Ealive : is_destroyed (dtor s) = false)
      (Einv : invocations s !! h = Some i)
      (Epc : pc i = ELocked)
      (Estop : stop s = false) :
      step_rel s (EvPush h)
        (set_invocation h (set_pc EPushed i)
           (with_tasks (tasks s ++ [h]) (with_mutex None s)))
  | SNotifyOne h i pick ws
      (Ealive : is_destroyed (dtor s) = false)
      (Einv : invocations s !! h = Some i)
      (Epc : pc i = EPushed)
      (Ews : notify_one pick (workers s) = Some ws) :
      step_rel s (EvNotifyOne h pick)
        (set_invocation h (set_pc EReturned i) (with_workers ws s))
  | SLockW w p
      (Ew : workers s !! w = Some p)
      (Ep : p = WIdle ∨ p = WWoken)
      (Emutex : queue_mutex s = None) :
      step_rel s (EvLock (Worker w))
        (set_worker w WLocked (with_mutex (Some (Worker w)) s))
  | SWait w
      (Ew : workers s !! w = Some WLocked)
      (Estop : stop s = false)
      (Etasks : tasks s = []) :
      step_rel s (EvWait w)
        (set_worker w WWaiting (with_tasks [] (with_mutex None s)))
  | SExit w
      (Ew : workers s !! w = Some WLocked)
      (Estop : stop s = true)
      (Etasks : tasks s = []) :
      step_rel s (EvExit w)
        (set_worker w WExited (with_tasks [] (with_mutex None s)))
  | SDequeue w h q
      (Ew : workers s !! w = Some WLocked)
      (Etasks : tasks s = h :: q) :
      step_rel s (EvDequeue w h)
        (set_worker w (WRunning h) (with_tasks q (with_mutex None s)))
  | SRun w h i
      (Ew : workers s !! w = Some (WRunning h))
      (Einv : invocations s !! h = Some i)
      (Ecell : cell i = Pending) :
      step_rel s (EvRun w h (callable i ()))
        (set_worker w WIdle
           (set_invocation h (set_cell (Ready (callable i ())) i) s))
  | SCrash w h i
      (Ew : workers s !! w = Some (WRunning h))
      (Einv : invocations s !! h = Some i)
      (Ecell : cell i ≠ Pending) :
      step_rel s (EvCrash w) (set_worker w WCrashed s)
  | SSpurious w
      (Ew : workers s !! w = Some WWaiting) :
      step_rel s (EvSpurious w) (set_worker w WWoken s)
  | SLockD
      (Edtor : dtor s = DAlive)
      (Emutex : queue_mutex s = None) :
      step_rel s (EvLock Destructor)
        (with_dtor DLocked (with_mutex (Some Destructor) s))
  | SStop
      (Edtor : dtor s = DLocked) :
      step_rel s EvStop
        (with_dtor DStopped (with_stop true (with_mutex None s)))
  | SNotifyAll
      (Edtor : dtor s = DStopped) :
      step_rel s EvNotifyAll
        (with_dtor (DJoining 0) (with_workers (notify_all (workers s)) s))
  | SJoin k
      (Edtor : dtor s = DJoining k)
      (Ew : workers s !! k = Some WExited) :
      step_rel s (EvJoin k) (with_dtor (DJoining (S k)) s)
  | SDestroy k
      (Edtor : dtor s = DJoining k)
      (Ew : workers s !! k = None) :
      step_rel s (EvDestroy (tasks s))
        (with_dtor DDestroyed
           (with_invocations (abandon_all (tasks s) (invocations s))
              (with_tasks [] s)))
  | SGet h i r
      (Einv : invocations s !! h = Some i)
      (Epc : pc i = EReturned)
      (Eget : future_get (future_valid i) (cell i) = Some r) :
      step_rel s (EvGet h r) (set_invocation h (set_future_valid false i) s).

(** ** Well-formed states *)

(** The part of [~ThreadPool] after [stop = true]. *)
Definition stopping (d : dtor_pc) : bool :=
  match d with DAlive | DLocked => false | _ => true end.

(** The part of [~ThreadPool] after [notify_all]. *)
Definition notified (d : dtor_pc) : bool :=
  match d with DJoining _ | DDestroyed => true | _ => false end.

Record wf (threads : nat) (s : state) : Prop := {
  wf_workers : length (workers s) = threads;
  wf_mutex : ∀ t, holds s t ↔ queue_mutex s = Some t;
  wf_stop : stop s = stopping (dtor s);
  wf_exited : ∀ w, workers s !! w = Some WExited → stop s = true ∧ tasks s = [];
  wf_joined : ∀ k j, dtor s = DJoining k → j < k → workers s !! j = Some WExited;
  wf_destroyed :
    dtor s = DDestroyed →
    (∀ w p, workers s !! w = Some p → p = WExited) ∧ tasks s = [];
  wf_awake : notified (dtor s) = true → ∀ w, workers s !! w ≠ Some WWaiting;
  wf_join_bound : ∀ k, dtor s = DJoining k → k ≤ threads
}.

(** ** What the trace and the state say about each other *)

Record hist (tr : list event) (s : state) : Prop := {
  hist_pushed :
    ∀ h, h ∈ pushed tr ↔
         ∃ i, invocations s !! h = Some i ∧ (pc i = EPushed ∨ pc i = EReturned);
  hist_fifo : pushed tr = dequeued tr ++ tasks s ++ abandoned tr;
  hist_nodup : NoDup (pushed tr);
  hist_running : dequeued tr ≡ₚ executed tr ++ running s;
  hist_alive : is_destroyed (dtor s) = false → abandoned tr = [];
  hist_pending :
    ∀ h i, invocations s !! h = Some i →
           h ∈ tasks s ∨ h ∈ running s ∨ pc i = EConstructed ∨ pc i = ELocked →
           cell i = Pending;
  hist_ready :
    ∀ h i o, invocations s !! h = Some i → cell i = Ready o →
             o = callable i () ∧ h ∈ executed tr;
  hist_executed :
    ∀ h, h ∈ executed tr →
         ∃ i, invocations s !! h = Some i ∧ cell i = Ready (callable i ());
  hist_broken :
    ∀ h i, invocations s !! h = Some i → cell i = BrokenPromise →
           pc i = EThrew ∨ h ∈ abandoned tr
}.

(** ** What the events of a trace say about the state *)

(** The events of [~ThreadPool], in the order of its code. *)
Definition dtor_event (e : event) : option event :=
  match e with
  | EvLock Destructor | EvStop | EvNotifyAll | EvJoin _ | EvDestroy _ => Some e
  | _ => None
  end.

Definition dtor_events (tr : list event) : list event := omap dtor_event tr.

Definition dtor_script (threads : nat) (d : dtor_pc) (q : list handle)
    : list event :=
  match d with
  | DAlive => []
  | DLocked => [EvLock Destructor]
  | DStopped => [EvLock Destructor; EvStop]
  | DJoining k =>
      [EvLock Destructor; EvStop; EvNotifyAll] ++ (EvJoin <$> seq 0 k)
  | DDestroyed =>
      [EvLock Destructor; EvStop; EvNotifyAll] ++ (EvJoin <$> seq 0 threads)
        ++ [EvDestroy q]
  end.

Record evts (threads : nat) (tr : list event) (s : state) : Prop := {
  ev_dtor : dtor_events tr = dtor_script threads (dtor s) (abandoned tr);
  ev_running :
    ∀ w h, workers s !! w = Some (WRunning h) → EvDequeue w h ∈ tr;
  ev_run : ∀ w h o, EvRun w h o ∈ tr → EvDequeue w h ∈ tr;
  ev_call : ∀ h, EvCall h ∈ tr ↔ h < length (invocations s);
  ev_lock :
    ∀ h, EvLock (Caller h) ∈ tr ↔
         ∃ i, invocations s !! h = Some i ∧ pc i ≠ EConstructed;
  ev_reject :
    ∀ h, EvReject h ∈ tr ↔ ∃ i, invocations s !! h = Some i ∧ pc i = EThrew;
  ev_notify :
    ∀ h k, EvNotifyOne h k ∈ tr →
           ∃ i, invocations s !! h = Some i ∧ pc i = EReturned;
  ev_get :
    ∀ h r, EvGet h r ∈ tr → ∃ i, invocations s !! h = Some i ∧ pc i = EReturned;
  ev_crash : ∀ w, (EvCrash w ∉ tr) ∧ workers s !! w ≠ Some WCrashed
}.

(** ** What destruction promises *)

(** The state of affairs when [~ThreadPool] has returned, as the
    specification puts it: the flag was set, every worker was woken and
    joined, and every task that was accepted has been run. *)
Definition drained (tr : list event) (s : state) : Prop :=
  dtor_events tr =
    [EvLock Destructor; EvStop; EvNotifyAll]
      ++ (EvJoin <$> seq 0 (length (workers s))) ++ [EvDestroy []] ∧
  stop s = true ∧
  (∀ w p, workers s !! w = Some p → p = WExited) ∧
  (∀ h, h ∈ pushed tr →
        h ∈ executed tr ∧
        ∃ i, invocations s !! h = Some i ∧ cell i = Ready (callable i ())) ∧
  (∀ w h o, EvRun w h o ∈ tr → ∃ q, before (EvRun w h o) (EvDestroy q) tr).

Definition drains_on_destruction (threads : nat) : Prop :=
  ∀ tr s, reachable threads tr s → dtor s = DDestroyed → drained tr s.

(** Wherever the pool stands, the destructor can be called and brought to
    its end. *)
Definition destruction_completes (threads : nat) : Prop :=
  ∀ tr s, reachable threads tr s →
          ∃ acts tr' s', run acts s = Some (tr', s') ∧ dtor s' = DDestroyed.

(** ** How much is left to do once the pool is stopping *)

Definition worker_weight (p : worker_pc) : nat :=
  match p with
  | WExited | WCrashed => 0
  | WLocked => 1
  | WIdle | WWoken => 2
  | WRunning _ | WWaiting => 3
  end.

Definition caller_weight (i : invocation) : nat :=
  match pc i with ELocked => 1 | _ => 0 end.

Definition dtor_weight (threads : nat) (d : dtor_pc) : nat :=
  match d with
  | DAlive => threads + 4
  | DLocked => threads + 3
  | DStopped => threads + 2
  | DJoining k => S (threads - k)
  | DDestroyed => 0
  end.

Definition work_left (threads : nat) (s : state) : nat :=
  3 * length (tasks s) + sum_list (worker_weight <$> workers s)
  + sum_list (caller_weight <$> invocations s) + dtor_weight threads (dtor s).

(** The steps of the pool's own threads. *)
Definition pool_action (a : action) : bool :=
  match a with AWorker _ | AWake _ | ADtor => true | _ => false end.

Definition pool_event (e : event) : bool :=
  match e with
  | EvCall _ | EvLock (Caller _) | EvPush _ | EvReject _ | EvNotifyOne _ _
  | EvGet _ _ => false
  | _ => true
  end.

(** ** A call that cannot get past the test of the flag *)

(** The control points a call of [enqueue] can be at when it is turned
    away. *)
Definition turned_away (s : state) (h : handle) : Prop :=
  ∃ i, invocations s !! h = Some i ∧
       (pc i = EConstructed ∨ pc i = ELocked ∨ pc i = EThrew).

(** What is left of the call [h] of [enqueue] with [b] once the exception
    of line 105 has unwound it: the task object made from [b] was destroyed
    without having been run, and with it the future. *)
Definition discarded (s : state) (h : handle) (b : bound) : Prop :=
  invocations s !! h = Some (Invocation b BrokenPromise EThrew false).

(** ** What the cells hold *)

Record results (tr : list event) (s : state) : Prop := {
  res_run :
    ∀ w h o, EvRun w h o ∈ tr →
             ∃ i, invocations s !! h = Some i ∧ cell i = Ready o ∧
                  o = callable i ();
  res_get :
    ∀ h r, EvGet h r ∈ tr →
           r = GetNoState ∨
           ∃ i, invocations s !! h = Some i ∧
                future_get true (cell i) = Some r
}.

(** ** Reading a handle *)

(** What [get] makes of the outcome of the callable. *)
Definition get_of (o : outcome) : get_result :=
  match o with
  | Returned v => GetValue v
  | Raised x => GetRethrow x
  end.

(** The number of calls of [enqueue] in a schedule; the next call gets this
    number as its handle. *)
Definition is_call (a : action) : bool :=
  match a with AEnqueue _ => true | _ => false end.

Definition calls_in (acts : list action) : nat :=
  length (List.filter is_call acts).

(** The specification's reading of a handle: a read that has yielded a value
    can be repeated and yields the value again. *)
Definition get_is_repeatable (threads : nat) : Prop :=
  ∀ tr s h v, reachable threads tr s → EvGet h (GetValue v) ∈ tr →
              ∃ s', step (AGet h) s = Some (EvGet h (GetValue v), s').

(** ** No wake-up is lost *)

(** Workers that are awake and on their way to the predicate, and calls of
    [enqueue] that have pushed and not yet signalled. *)
Definition looking_weight (p : worker_pc) : nat :=
  match p with WIdle | WWoken | WLocked => 1 | _ => 0 end.

Definition signal_weight (i : invocation) : nat :=
  match pc i with EPushed => 1 | _ => 0 end.

Definition looking (s : state) : nat :=
  sum_list (looking_weight <$> workers s)
  + sum_list (signal_weight <$> invocations s).

Definition no_lost_wakeup (s : state) : Prop :=
  (∃ w, workers s !! w = Some WWaiting) → length (tasks s) ≤ looking s.

(** ** A pool without workers *)

(** A caller inside [get] on the handle of [h], waiting. *)
Definition blocked_on_get (s : state) (h : handle) : Prop :=
  ∃ i, invocations s !! h = Some i ∧ pc i = EReturned ∧
       future_valid i = true ∧ cell i = Pending.

(** The promise of [h] was broken: its task was destroyed without having
    run, and [get] reports that instead of a value. *)
Definition promise_broken (s : state) (h : handle) : Prop :=
  ∃ i, invocations s !! h = Some i ∧ pc i = EReturned ∧
       cell i = BrokenPromise.

(** What a caller that was waiting in [get] finds later on. *)
Definition get_outlook (s : state) (h : handle) : Prop :=
  if is_destroyed (dtor s) then promise_broken s h else blocked_on_get s h.

(** The specification's reading: in a pool made without workers, whoever
    waits in [get] waits for ever. *)
Definition zero_workers_block_forever : Prop :=
  ∀ tr s h acts tr' s',
    reachable 0 tr s → blocked_on_get s h →
    run acts s = Some (tr', s') → blocked_on_get s' h.

(** ** Who touches the queue *)

(** The thread of the pool that takes a step; a step of [enqueue] before
    the lock, and [get], belong to the callers' own threads and data. *)
Definition actor (a : action) : option thread :=
  match a with
  | AWorker w | AWake w => Some (Worker w)
  | ACaller h _ => Some (Caller h)
  | ADtor => Some Destructor
  | AEnqueue _ | AGet _ => None
  end.

(** The same state with another queue and another flag. *)
Definition with_shared (st : bool) (q : list handle) (s : state) : state :=
  with_stop st (with_tasks q s).
(** ** Serving the queue *)

(** The steps by which a pool serves its queue: those of its workers and
    those of the calls of [enqueue] under way.  Spurious wake-ups and the
    destructor are not among them. *)
Definition service_action (a : action) : bool :=
  match a with AWorker _ | ACaller _ _ => true | _ => false end.

(** How far a worker is from [condition.wait], and what a call of
    [enqueue] still brings about. *)
Definition serve_weight (p : worker_pc) : nat :=
  match p with
  | WWaiting | WExited | WCrashed => 0
  | WLocked => 1
  | WIdle | WWoken => 2
  | WRunning _ => 3
  end.

Definition call_weight (i : invocation) : nat :=
  match pc i with
  | EConstructed => 8
  | ELocked => 7
  | EPushed => 3
  | EThrew | EReturned => 0
  end.

Definition service_left (s : state) : nat :=
  3 * length (tasks s) + sum_list (serve_weight <$> workers s)
  + sum_list (call_weight <$> invocations s).

(** Nothing is left to do: the queue is empty, nobody holds the mutex, every
    worker is inside [condition.wait], and no call is between its lock and
    its [notify_one]. *)
Definition at_rest (s : state) : Prop :=
  tasks s = [] ∧ queue_mutex s = None ∧
  (∀ w p, workers s !! w = Some p → p = WWaiting) ∧
  (∀ h i, invocations s !! h = Some i → pc i ≠ ELocked ∧ pc i ≠ EPushed).

(** ** A thread that uses the pool *)

(** What a thread does with a pool, one piece of its code at a time: it
    enters [enqueue] with a callable and its arguments, takes the next step
    of the call it is in, reads a handle, takes the next step of the
    destructor. *)
Inductive op :=
  | Call (b : bound)
  | Step (h : handle)
  | Read (h : handle)
  | Destroy.

(** [pick] is the waiter [notify_one] wakes, should the step be that one. *)
Definition op_action (o : op) (pick : option nat) : action :=
  match o with
  | Call b => AEnqueue b
  | Step h => ACaller h pick
  | Read h => AGet h
  | Destroy => ADtor
  end.

(** What the scheduler chooses: the thread of the program takes its next
    step, a worker takes its own, a worker is woken for no reason. *)
Inductive choice :=
  | Main (pick : option nat)
  | Work (w : nat)
  | Wake (w : nat).

(** The schedule that the choices make of the code. *)
Fixpoint schedule (code : list op) (cs : list choice) : list action :=
  match cs with
  | [] => []
  | Main pick :: cs' =>
      match code with
      | o :: code' => op_action o pick :: schedule code' cs'
      | [] => schedule [] cs'          (* the thread has come to its end *)
      end
  | Work w :: cs' => AWorker w :: schedule code cs'
  | Wake w :: cs' => AWake w :: schedule code cs'
  end.

(** How far into its code the choices take the thread. *)
Definition mains (cs : list choice) : nat :=
  length (List.filter (λ c, match c with Main _ => true | _ => false end) cs).

(** The handles that were read, in the order of the reads. *)
Definition reads (tr : list event) : list handle :=
  omap (λ e, match e with EvGet h _ => Some h | _ => None end) tr.

(** What the thread knows of the pool: where each call stands and what was
    passed to it, where the destructor stands, the handles read. *)
Record view := View {
  v_pcs : list enqueue_pc;
  v_fns : list bound;
  v_dtor : dtor_pc;
  v_reads : list handle
}.

Definition view_of (tr : list event) (s : state) : view :=
  View (pc <$> invocations s) (callable <$> invocations s) (dtor s) (reads tr).

(** The code of the thread run on its own, on a pool of [threads] workers
    that lives: every call is accepted. *)
Definition client_step (threads : nat) (o : op) (v : view) : option view :=
  match o with
  | Call b =>
      match v_dtor v with
      | DAlive => Some (View (v_pcs v ++ [EConstructed]) (v_fns v ++ [b])
                          (v_dtor v) (v_reads v))
      | _ => None
      end
  | Step h =>
      match v_dtor v, v_pcs v !! h with
      | DAlive, Some EConstructed =>
          Some (View (<[h := ELocked]> (v_pcs v)) (v_fns v) (v_dtor v)
                  (v_reads v))
      | DAlive, Some ELocked =>
          Some (View (<[h := EPushed]> (v_pcs v)) (v_fns v) (v_dtor v)
                  (v_reads v))
      | DAlive, Some EPushed =>
          Some (View (<[h := EReturned]> (v_pcs v)) (v_fns v) (v_dtor v)
                  (v_reads v))
      | _, _ => None
      end
  | Read h =>
      match v_pcs v !! h with
      | Some EReturned =>
          Some (View (v_pcs v) (v_fns v) (v_dtor v) (v_reads v ++ [h]))
      | _ => None
      end
  | Destroy =>
      match v_dtor v with
      | DAlive => Some (View (v_pcs v) (v_fns v) DLocked (v_reads v))
      | DLocked => Some (View (v_pcs v) (v_fns v) DStopped (v_reads v))
      | DStopped => Some (View (v_pcs v) (v_fns v) (DJoining 0) (v_reads v))
      | DJoining k =>
          Some (View (v_pcs v) (v_fns v)
                  (if decide (k < threads) then DJoining (S k) else DDestroyed)
                  (v_reads v))
      | DDestroyed => None
      end
  end.

Fixpoint client_run (threads : nat) (code : list op) (v : view) : option view :=
  match code with
  | [] => Some v
  | o :: code' =>
      match client_step threads o v with
      | Some v' => client_run threads code' v'
      | None => None
      end
  end.
(** The thread is the only one that calls [enqueue], and it makes its calls
    one after the other: when it takes a step of a call, every other call
    has returned; when it reads or destroys, all have. *)
Definition all_returned (v : view) : Prop :=
  ∀ h p, v_pcs v !! h = Some p → p = EReturned.

Definition sequential (v : view) (o : op) : Prop :=
  match o with
  | Call _ => all_returned v
  | Step h => ∀ h' p, h' ≠ h → v_pcs v !! h' = Some p → p = EReturned
  | Read _ => all_returned v ∧ v_dtor v = DAlive
  | Destroy => all_returned v
  end.

End ThreadPool.

Arguments outcome : clear implicits.
Arguments bound : clear implicits.
Arguments shared_state : clear implicits.
Arguments invocation : clear implicits.
Arguments state : clear implicits.
Arguments get_result : clear implicits.
Arguments event : clear implicits.
Arguments action : clear implicits.
Arguments op : clear implicits.
Arguments view : clear implicits.


(** * The program of example.cpp *)

(** [auto f(int a) -> int] of example.cpp; the sleep and the printing are
    left out. *)
Definition f (a : Z) : outcome Z nat := Returned a.

(** One schedule of [main]: a pool of four workers, four calls of
    [enqueue], [ret.get()], and the destructor at the end of [main]. *)
Definition example_main : list (action Z nat) :=
  [ AWorker 0; AWorker 0;
    AEnqueue (bind f 1%Z); ACaller 0 None; ACaller 0 None; ACaller 0 (Some 0);
    AEnqueue (bind f 2%Z); ACaller 1 None; ACaller 1 None; ACaller 1 None;
    AWorker 0; AWorker 0; AWorker 1; AWorker 1;
    AEnqueue (bind f 3%Z); ACaller 2 None; ACaller 2 None; ACaller 2 None;
    AEnqueue (bind f 4%Z); ACaller 3 None; ACaller 3 None; ACaller 3 None;
    AWorker 2; AWorker 2; AWorker 2; AWorker 3; AWorker 3; AWorker 3;
    AWorker 0; AGet 0; AWorker 1;
    ADtor; ADtor; ADtor;
    AWorker 0; AWorker 0; AWorker 1; AWorker 1;
    AWorker 2; AWorker 2; AWorker 3; AWorker 3;
    ADtor; ADtor; ADtor; ADtor; ADtor ].

Definition example_trace : list (event Z nat) :=
  Eval vm_compute in
    match run example_main (ThreadPool 4) with
    | Some (tr, _) => tr
    | None => []
    end.

Definition example_state : state Z nat :=
  Eval vm_compute in
    match run example_main (ThreadPool 4) with
    | Some (_, s) => s
    | None => ThreadPool 4
    end.

(** A pool without workers: one task is accepted, then the pool is
    destroyed. *)
Definition no_workers : list (action Z nat) :=
  [ AEnqueue (bind f 1%Z); ACaller 0 None; ACaller 0 None; ACaller 0 None;
    ADtor; ADtor; ADtor; ADtor ].

Definition no_workers_trace : list (event Z nat) :=
  Eval vm_compute in
    match run no_workers (ThreadPool 0) with
    | Some (tr, _) => tr
    | None => []
    end.

Definition no_workers_state : state Z nat :=
  Eval vm_compute in
    match run no_workers (ThreadPool 0) with
    | Some (_, s) => s
    | None => ThreadPool 0
    end.

(** A call of [enqueue] that comes after the destructor has set the flag. *)
Definition late_call : list (action Z nat) :=
  [ ADtor; ADtor; AEnqueue (bind f 5%Z); ACaller 0 None; ACaller 0 None ].

Definition late_call_state : state Z nat :=
  Eval vm_compute in
    match run late_call (ThreadPool 1) with
    | Some (_, s) => s
    | None => ThreadPool 1
    end.




(** A callable that throws, and a pool of one worker that is given it, then
    [f]; both handles are read. *)
Definition failing (a : Z) : outcome Z nat := Raised 7.

Definition failure_then_success : list (action Z nat) :=
  [ AEnqueue (bind failing 1%Z); ACaller 0 None; ACaller 0 None; ACaller 0 None;
    AEnqueue (bind f 2%Z); ACaller 1 None; ACaller 1 None; ACaller 1 None;
    AWorker 0; AWorker 0; AWorker 0; AWorker 0; AWorker 0; AWorker 0;
    AGet 0; AGet 1 ].

Definition failure_then_success_trace : list (event Z nat) :=
  Eval vm_compute in
    match run failure_then_success (ThreadPool 1) with
    | Some (tr, _) => tr
    | None => []
    end.

Definition failure_then_success_state : state Z nat :=
  Eval vm_compute in
    match run failure_then_success (ThreadPool 1) with
    | Some (_, s) => s
    | None => ThreadPool 1
    end.

(** [main] of example.cpp up to the point where it calls [ret.get()], the
    first task having been run. *)
Definition example_before_get : state Z nat :=
  Eval vm_compute in
    match run (take 29 example_main) (ThreadPool 4) with
    | Some (_, s) => s
    | None => ThreadPool 4
    end.

(** The pool without workers when its one call of [enqueue] has returned. *)
Definition no_workers_queued : state Z nat :=
  Eval vm_compute in
    match run (take 4 no_workers) (ThreadPool 0) with
    | Some (_, s) => s
    | None => ThreadPool 0
    end.

(** [main] of example.cpp when its second call of [enqueue] has returned:
    two tasks are queued, one worker was woken. *)
Definition two_queued : state Z nat :=
  Eval vm_compute in
    match run (take 10 example_main) (ThreadPool 4) with
    | Some (_, s) => s
    | None => ThreadPool 4
    end.

(** ** [main], as the thread that runs it *)

(** [pool.enqueue(f, a)], the call that gets the handle [h]: the thread
    enters [enqueue], then takes the three steps of the call (the lock; the
    test of the flag and the push; [notify_one] and [return]). *)
Definition call_f (h : handle) (a : Z) : list (op Z nat) :=
  [ Call (bind f a); Step h; Step h; Step h ].

(** [main] of example.cpp on its pool of four workers: the four calls, then
    [ret.get()] on the handle of the first, then, at the closing brace,
    [~ThreadPool] (the lock, the flag, [notify_all], four joins, and the
    members). *)
Definition main : list (op Z nat) :=
  call_f 0 1 ++ call_f 1 2 ++ call_f 2 3 ++ call_f 3 4
  ++ [ Read 0 ] ++ replicate 8 Destroy.
(** The choices that make [example_main] of [main]. *)
Definition example_choices : list choice :=
  [ Work 0; Work 0;
    Main None; Main None; Main None; Main (Some 0);
    Main None; Main None; Main None; Main None;
    Work 0; Work 0; Work 1; Work 1;
    Main None; Main None; Main None; Main None;
    Main None; Main None; Main None; Main None;
    Work 2; Work 2; Work 2; Work 3; Work 3; Work 3;
    Work 0; Main None; Work 1;
    Main None; Main None; Main None;
    Work 0; Work 0; Work 1; Work 1; Work 2; Work 2; Work 3; Work 3;
    Main None; Main None; Main None; Main None; Main None ].

(** A pool of four workers, one of them inside [wait]. *)
Definition idle_pool : state Z nat :=
  Eval vm_compute in
    match run (take 2 example_main) (ThreadPool 4) with
    | Some (_, s) => s
    | None => ThreadPool 4
    end.






(** * Properties *)

Section Proofs.

Context {return_type exn : Type}.

Implicit Types (s : state return_type exn) (tr : list (event return_type exn)).
Implicit Types (a : action return_type exn) (e : event return_type exn).
Implicit Types (i : invocation return_type exn) (b : bound return_type exn).
Implicit Types (ws : list worker_pc) (q : list handle) (h w n : nat).

(** ** Schedules *)

Lemma spawn_replicate threads ws :
  spawn threads ws = ws ++ replicate threads WIdle.
Proof.
  revert ws. induction threads as [|k IH]; intros ws; simpl.
  - by rewrite app_nil_r.
  - rewrite IH, <- app_assoc. done.
Qed.

Lemma ThreadPool_workers threads :
  workers (ThreadPool (return_type:=return_type) (exn:=exn) threads)
  = replicate threads WIdle.
Proof. unfold ThreadPool; simpl. by rewrite spawn_replicate. Qed.

Lemma run_app acts1 acts2 s :
  run (acts1 ++ acts2) s =
  match run acts1 s with
  | Some (tr1, s1) =>
      match run acts2 s1 with
      | Some (tr2, s2) => Some (tr1 ++ tr2, s2)
      | None => None
      end
  | None => None
  end.
Proof.
  revert s. induction acts1 as [|a acts1 IH]; intros s; simpl.
  - destruct (run acts2 s) as [[??]|]; done.
  - destruct (step a s) as [[e s']|]; [|done].
    rewrite IH. destruct (run acts1 s') as [[tr1 s1]|]; [|done].
    destruct (run acts2 s1) as [[tr2 s2]|]; done.
Qed.

Lemma run_length acts s tr s' :
  run acts s = Some (tr, s') → length tr = length acts.
Proof.
  revert s tr. induction acts as [|a acts IH]; intros s tr H; simpl in H.
  - by simplify_eq.
  - destruct (step a s) as [[e s1]|]; [|done].
    destruct (run acts s1) as [[tr1 s2]|] eqn:E; [|done].
    simplify_eq. simpl. f_equal. eauto.
Qed.

(** A trace can be cut anywhere: the schedule is cut at the same place. *)
Lemma run_split acts s tr1 tr2 s' :
  run acts s = Some (tr1 ++ tr2, s') →
  ∃ acts1 acts2 s1,
    acts = acts1 ++ acts2 ∧ run acts1 s = Some (tr1, s1) ∧
    run acts2 s1 = Some (tr2, s').
Proof.
  revert acts s. induction tr1 as [|e tr1 IH]; intros acts s H.
  - exists [], acts, s. done.
  - destruct acts as [|a acts]; simpl in H; [done|].
    destruct (step a s) as [[e1 s1]|] eqn:Es; [|done].
    destruct (run acts s1) as [[tr s2]|] eqn:Er; [|done].
    simplify_eq.
    destruct (IH _ _ Er) as (acts1 & acts2 & s3 & -> & H1 & H2).
    exists (a :: acts1), acts2, s3. simpl. by rewrite Es, H1.
Qed.

Lemma reachable_init threads :
  reachable (return_type:=return_type) (exn:=exn) threads [] (ThreadPool threads).
Proof. by exists []. Qed.

Lemma reachable_step threads tr s a e s' :
  reachable threads tr s → step a s = Some (e, s') →
  reachable threads (tr ++ [e]) s'.
Proof.
  intros [acts H] Hs. exists (acts ++ [a]).
  rewrite run_app, H. simpl. by rewrite Hs.
Qed.

Lemma reachable_run threads tr s acts tr' s' :
  reachable threads tr s → run acts s = Some (tr', s') →
  reachable threads (tr ++ tr') s'.
Proof.
  intros [acts0 H] Hr. exists (acts0 ++ acts). by rewrite run_app, H, Hr.
Qed.

Lemma reachable_prefix threads tr1 tr2 s :
  reachable threads (tr1 ++ tr2) s →
  ∃ s1 acts2, reachable threads tr1 s1 ∧ run acts2 s1 = Some (tr2, s).
Proof.
  intros [acts H]. destruct (run_split _ _ _ _ _ H) as (a1 & a2 & s1 & -> & H1 & H2).
  exists s1, a2. split; [by exists a1|done].
Qed.

(** Induction over the schedules of a pool. *)
Lemma reachable_ind threads (P : list (event return_type exn) → state return_type exn → Prop) :
  P [] (ThreadPool threads) →
  (∀ tr s a e s', reachable threads tr s → P tr s →
                  step a s = Some (e, s') → P (tr ++ [e]) s') →
  ∀ tr s, reachable threads tr s → P tr s.
Proof.
  intros H0 Hstep tr s [acts H]. revert tr s H.
  induction acts as [|a acts IH] using rev_ind; intros tr s H.
  - simpl in H. by simplify_eq.
  - rewrite run_app in H.
    destruct (run acts (ThreadPool threads)) as [[tr1 s1]|] eqn:E1; [|done].
    simpl in H. destruct (step a s1) as [[e s2]|] eqn:E2; [|done].
    simplify_eq. eapply Hstep; eauto. by exists acts.
Qed.

(** ** The relation describes the step function *)

Lemma worker_claim_cases (st : bool) q p q' :
  worker_claim st q = (p, q') →
  (st = false ∧ q = [] ∧ p = WWaiting ∧ q' = []) ∨
  (st = true ∧ q = [] ∧ p = WExited ∧ q' = []) ∨
  (∃ h, q = h :: q' ∧ p = WRunning h).
Proof.
  unfold worker_claim, wake_pred.
  destruct st, q as [|h q0]; simpl; intros ?; simplify_eq; eauto 6.
Qed.

Lemma step_sound a s e s' : step a s = Some (e, s') → step_rel s e s'.
Proof.
  intros H. destruct a as [b|h pick|w|w| |h]; simpl in H.
  - unfold enqueue_construct in H. case_match; simplify_eq. by constructor.
  - unfold enqueue_step in H. repeat case_match; simplify_eq.
    + by eapply SLockC.
    + by eapply SReject.
    + by eapply SPush.
    + by eapply SNotifyOne.
  - unfold worker_step in H.
    destruct (workers s !! w) as [[| | | |h| |]|] eqn:Ew; simplify_eq.
    + destruct (queue_mutex s) eqn:Em; simplify_eq. eapply SLockW; eauto.
    + destruct (worker_claim (stop s) (tasks s)) as [p q] eqn:Ec.
      simplify_eq.
      destruct (worker_claim_cases _ _ _ _ Ec)
        as [(?&?&->&->)|[(?&?&->&->)|(h&?&->)]]; simpl.
      * by apply SWait.
      * by apply SExit.
      * by apply SDequeue.
    + destruct (queue_mutex s) eqn:Em; simplify_eq. eapply SLockW; eauto.
    + destruct (invocations s !! h) as [i|] eqn:Ei; [|done].
      unfold invoke in H. destruct (cell i) eqn:Ecell; simplify_eq.
      * by apply SRun.
      * eapply SCrash; eauto. congruence.
      * eapply SCrash; eauto. congruence.
  - unfold wake_step in H. repeat case_match; simplify_eq. by apply SSpurious.
  - unfold dtor_step in H. repeat case_match; simplify_eq.
    + by apply SLockD.
    + by apply SStop.
    + by apply SNotifyAll.
    + by eapply SJoin.
    + by eapply SDestroy.
  - unfold get_step in H. repeat case_match; simplify_eq. by eapply SGet.
Qed.

(** ** Well-formed states are kept *)

Lemma notify_one_length pick ws ws' :
  notify_one pick ws = Some ws' → length ws' = length ws.
Proof.
  unfold notify_one. intros H. repeat case_match; simplify_eq; [|done].
  by rewrite length_insert.
Qed.

Lemma notify_one_lookup pick ws ws' w p :
  notify_one pick ws = Some ws' → ws' !! w = Some p →
  ws !! w = Some p ∨ (ws !! w = Some WWaiting ∧ p = WWoken ∧ pick = Some w).
Proof.
  unfold notify_one. intros H Hl. repeat case_match; simplify_eq; eauto.
  apply list_lookup_insert_Some in Hl as [(-> & <- & ?)|[? ?]]; eauto.
Qed.

Lemma notify_all_length ws : length (notify_all ws) = length ws.
Proof. unfold notify_all. by rewrite length_map. Qed.

Lemma notify_all_lookup ws w : notify_all ws !! w = wake <$> ws !! w.
Proof. unfold notify_all. apply list_lookup_fmap. Qed.

Lemma wf_init threads : wf threads (ThreadPool (return_type:=return_type) (exn:=exn) threads).
Proof.
  split; simpl; rewrite ?spawn_replicate; simpl.
  - by rewrite length_replicate.
  - intros [w|h|]; simpl; rewrite ?spawn_replicate; simpl.
    + split; [|done]. intros [? _]%lookup_replicate. done.
    + split; [|done]. intros (i & Hi & _). done.
    + done.
  - done.
  - intros w [? _]%lookup_replicate. done.
  - done.
  - done.
  - done.
  - done.
Qed.

Lemma mutex_acquire s s' t0 :
  (∀ t, holds s t ↔ queue_mutex s = Some t) →
  queue_mutex s = None → queue_mutex s' = Some t0 → holds s' t0 →
  (∀ t, t ≠ t0 → holds s' t → holds s t) →
  ∀ t, holds s' t ↔ queue_mutex s' = Some t.
Proof.
  intros Hm Hn Hs Ht Hother t. rewrite Hs. split.
  - intros Hh. destruct (decide (t = t0)) as [->|Hne]; [done|].
    apply Hother, Hm in Hh; [|done]. congruence.
  - intros [= <-]. done.
Qed.

Lemma mutex_release s s' t0 :
  (∀ t, holds s t ↔ queue_mutex s = Some t) →
  holds s t0 → queue_mutex s' = None → ¬ holds s' t0 →
  (∀ t, t ≠ t0 → holds s' t → holds s t) →
  ∀ t, holds s' t ↔ queue_mutex s' = Some t.
Proof.
  intros Hm Ht0 Hs Hn Hother t. rewrite Hs. split; [|done].
  intros Hh. destruct (decide (t = t0)) as [->|Hne]; [done|].
  apply Hother, Hm in Hh; [|done]. apply Hm in Ht0. congruence.
Qed.

Lemma mutex_keep s s' :
  (∀ t, holds s t ↔ queue_mutex s = Some t) →
  queue_mutex s' = queue_mutex s →
  (∀ t, holds s' t ↔ holds s t) →
  ∀ t, holds s' t ↔ queue_mutex s' = Some t.
Proof. intros Hm Hq Hh t. by rewrite Hh, Hq. Qed.

Ltac lookup_insert :=
  repeat match goal with
  | H : <[_ := _]> _ !! _ = Some _ |- _ =>
      apply list_lookup_insert_Some in H as [(? & ? & ?)|[? ?]]; simplify_eq
  | H : (_ ++ [_]) !! _ = Some _ |- _ =>
      apply lookup_snoc_Some in H as [[? ?]|[? ?]]; simplify_eq
  end.


Lemma notify_all_lookup_Some ws w p :
  notify_all ws !! w = Some p →
  ws !! w = Some p ∧ p ≠ WWaiting ∨ ws !! w = Some WWaiting ∧ p = WWoken.
Proof.
  rewrite notify_all_lookup. destruct (ws !! w) as [p0|]; [|done].
  simpl. intros [= <-]. destruct p0; simpl; eauto.
Qed.

Lemma notify_one_keep pick ws ws' w p :
  notify_one pick ws = Some ws' → ws !! w = Some p → p ≠ WWaiting →
  ws' !! w = Some p.
Proof.
  unfold notify_one. intros H Hl Hp. repeat case_match; simplify_eq; [|done].
  rewrite list_lookup_insert_ne; [done|]. intros ->. congruence.
Qed.

Lemma notify_all_keep ws w p :
  ws !! w = Some p → p ≠ WWaiting → notify_all ws !! w = Some p.
Proof.
  intros Hl Hp. rewrite notify_all_lookup, Hl. simpl. by destruct p.
Qed.

Ltac lookup_workers :=
  repeat match goal with
  | H : notify_all _ !! _ = Some _ |- _ =>
      apply notify_all_lookup_Some in H as [[? ?]|[? ?]]; simplify_eq
  | H1 : notify_one _ _ = Some ?ws, H2 : ?ws !! _ = Some _ |- _ =>
      apply (notify_one_lookup _ _ _ _ _ H1) in H2 as [?|(? & ? & ?)];
      simplify_eq
  end.


Lemma abandon_pc i : pc (abandon i) = pc i.
Proof. unfold abandon. by destruct (cell i). Qed.

Lemma abandon_callable i : callable (abandon i) = callable i.
Proof. unfold abandon. by destruct (cell i). Qed.

Lemma abandon_future_valid i : future_valid (abandon i) = future_valid i.
Proof. unfold abandon. by destruct (cell i). Qed.

Lemma abandon_idemp i : abandon (abandon i) = abandon i.
Proof. unfold abandon. by destruct (cell i) eqn:E; simpl; rewrite ?E. Qed.

Lemma abandon_all_length q (l : list (invocation return_type exn)) :
  length (abandon_all q l) = length l.
Proof.
  revert l. induction q as [|h q IH]; intros l; simpl; [done|].
  by rewrite IH, length_alter.
Qed.

Lemma abandon_all_lookup q (l : list (invocation return_type exn)) h :
  abandon_all q l !! h =
  (if decide (h ∈ q) then abandon else id) <$> l !! h.
Proof.
  revert l. induction q as [|h0 q IH]; intros l; cbn [abandon_all].
  - case_decide as Hd; [by apply not_elem_of_nil in Hd|]. by destruct (l !! h).
  - rewrite IH. destruct (decide (h0 = h)) as [->|Hne].
    + rewrite list_lookup_alter_eq.
      destruct (l !! h) as [i|]; simpl; [|done].
      destruct (decide (h ∈ q)), (decide (h ∈ h :: q)); simpl;
        rewrite ?abandon_idemp; try done.
      all: repeat match goal with
             | H : _ ∉ _ :: _ |- _ => apply not_elem_of_cons in H as [? ?]
             | H : _ ∈ _ :: _ |- _ => apply elem_of_cons in H as [?|?]
             end; done.
    + rewrite list_lookup_alter_ne by done.
      destruct (l !! h) as [i|]; simpl; [|done].
      destruct (decide (h ∈ q)), (decide (h ∈ h0 :: q)); simpl; try done.
      all: repeat match goal with
             | H : _ ∉ _ :: _ |- _ => apply not_elem_of_cons in H as [? ?]
             | H : _ ∈ _ :: _ |- _ => apply elem_of_cons in H as [?|?]
             end; done.
Qed.

Lemma abandon_all_lookup_Some q (l : list (invocation return_type exn)) h i' :
  abandon_all q l !! h = Some i' →
  ∃ i, l !! h = Some i ∧ pc i' = pc i ∧ callable i' = callable i ∧
       future_valid i' = future_valid i ∧
       ((h ∈ q ∧ i' = abandon i) ∨ (¬ h ∈ q ∧ i' = i)).
Proof.
  rewrite abandon_all_lookup. destruct (l !! h) as [i|]; [|done].
  simpl. intros [= <-]. exists i. split; [done|].
  case_decide; simpl;
    rewrite ?abandon_pc, ?abandon_callable, ?abandon_future_valid; eauto 10.
Qed.

Ltac goal_insert :=
  repeat match goal with
  | |- context [<[?h := _]> ?l !! ?h0] =>
      first
        [ rewrite (list_lookup_insert_ne l h h0) by congruence
        | rewrite (list_lookup_insert_eq l h) by (eapply lookup_lt_Some; eassumption)
        | destruct (decide (h = h0)) as [->|?];
          [ rewrite list_lookup_insert_eq by (eapply lookup_lt_Some; eassumption)
          | rewrite list_lookup_insert_ne by done ] ]
  end.

Ltac holds_tac :=
  let t := fresh "t" in
  intros t; destruct t as [?|?|]; simpl; intros;
  repeat match goal with
  | H : ∃ _, _ |- _ => destruct H as (? & ? & ?)
  | H : abandon_all _ _ !! _ = Some _ |- _ =>
      apply abandon_all_lookup_Some in H as (? & ? & ? & ? & ? & ?)
  end;
  lookup_insert; lookup_workers; simpl in *; simplify_eq;
  first
    [ congruence
    | by eauto using lookup_app_l_Some
    | by eexists; split; [eassumption|congruence]
    | by eapply notify_one_keep
    | by eapply notify_all_keep
    | goal_insert; simplify_eq; simpl in *; first [congruence | by eauto]
    | rewrite abandon_all_lookup;
      match goal with H : _ !! _ = Some _ |- _ => rewrite H end;
      simpl; eexists; split; [done|]; case_decide; simpl;
      by rewrite ?abandon_pc ].

Lemma step_mutex s e s' :
  (∀ t, holds s t ↔ queue_mutex s = Some t) → step_rel s e s' →
  ∀ t, holds s' t ↔ queue_mutex s' = Some t.
Proof.
  intros Hmut Hstep. destruct Hstep.
  all: try (eapply mutex_keep; [done..|]; intros t; split; revert t; holds_tac).
  - eapply (mutex_acquire s); try done.
    + simpl. goal_insert. eauto.
    + holds_tac.
  - eapply (mutex_release s _ (Caller h)); try done.
    + simpl. eauto.
    + simpl. intros (i0 & Hl & Hpc). lookup_insert; simpl in *; congruence.
    + holds_tac.
  - eapply (mutex_release s _ (Caller h)); try done.
    + simpl. eauto.
    + simpl. intros (i0 & Hl & Hpc). lookup_insert; simpl in *; congruence.
    + holds_tac.
  - eapply (mutex_acquire s); try done.
    + simpl. goal_insert. eauto.
    + holds_tac.
  - eapply (mutex_release s _ (Worker w)); try done.
    + simpl. intros Hl. lookup_insert; simpl in *; congruence.
    + holds_tac.
  - eapply (mutex_release s _ (Worker w)); try done.
    + simpl. intros Hl. lookup_insert; simpl in *; congruence.
    + holds_tac.
  - eapply (mutex_release s _ (Worker w)); try done.
    + simpl. intros Hl. lookup_insert; simpl in *; congruence.
    + holds_tac.
  - eapply (mutex_acquire s); try done. holds_tac.
  - eapply (mutex_release s _ Destructor); try done. holds_tac.
Qed.

Ltac wtac :=
  intros; lookup_insert; lookup_workers; simpl in *; simplify_eq;
  try congruence; eauto.

Lemma step_stop s e s' :
  stop s = stopping (dtor s) → step_rel s e s' → stop s' = stopping (dtor s').
Proof.
  intros Hs Hstep. destruct Hstep; simpl; try done.
  all: rewrite Hs; by destruct (dtor s).
Qed.

Lemma step_exited threads s e s' :
  wf threads s → step_rel s e s' →
  ∀ w, workers s' !! w = Some WExited → stop s' = true ∧ tasks s' = [].
Proof.
  intros [Hlen Hmut Hstop Hex Hjoin Hdes Haw Hjb] Hstep w0.
  destruct Hstep; simpl; wtac.
  all: try (edestruct Hex as [? ?]; [eassumption|]; split; congruence).
Qed.

Lemma step_joined threads s e s' :
  wf threads s → step_rel s e s' →
  ∀ k j, dtor s' = DJoining k → j < k → workers s' !! j = Some WExited.
Proof.
  intros [Hlen Hmut Hstop Hex Hjoin Hdes Haw Hjb] Hstep k0 j.
  destruct Hstep; simpl; intros Hd Hj; simplify_eq; try by eauto.
  all: try (pose proof (Hjoin _ _ Hd Hj) as Hx; goal_insert; simplify_eq;
            first [ done
                  | match goal with H : _ ∨ _ |- _ => by destruct H end ]).
  - eapply notify_one_keep; eauto.
  - lia.
  - destruct (decide (j = k)) as [->|]; [done|]. eapply Hjoin; eauto. lia.
Qed.

Lemma step_destroyed threads s e s' :
  wf threads s → step_rel s e s' →
  dtor s' = DDestroyed →
  (∀ w p, workers s' !! w = Some p → p = WExited) ∧ tasks s' = [].
Proof.
  intros [Hlen Hmut Hstop Hex Hjoin Hdes Haw Hjb] Hstep.
  destruct Hstep; simpl; intros Hd; simplify_eq.
  all: try (destruct (Hdes Hd) as [Hw Ht]).
  all: try match goal with
    | H : workers _ !! _ = Some _ |- _ =>
        pose proof (Hw _ _ H); simplify_eq
    end.
  all: try (by destruct (dtor s)).
  all: try (split; [|done]).
  all: try (by wtac).
  - by destruct Ep.
  - intros w p Hp. apply lookup_ge_None in Ew.
    assert (w < k) as Hlt by (apply lookup_lt_Some in Hp; lia).
    rewrite (Hjoin _ _ Edtor Hlt) in Hp. congruence.
Qed.

Lemma step_awake threads s e s' :
  wf threads s → step_rel s e s' →
  notified (dtor s') = true → ∀ w, workers s' !! w ≠ Some WWaiting.
Proof.
  intros [Hlen Hmut Hstop Hex Hjoin Hdes Haw Hjb] Hstep.
  destruct Hstep; simpl; intros Hd w0 Hw; simplify_eq.
  all: try (by eapply Haw).
  all: try (by (lookup_insert; lookup_workers; eapply Haw)).
  - lookup_insert; [|by eapply Haw].
    rewrite Hstop in *. destruct (dtor s); simpl in *; congruence.
  - rewrite Edtor in Haw. by eapply (Haw eq_refl).
  - rewrite Edtor in Haw. by eapply (Haw eq_refl).
Qed.

Lemma wf_step threads s e s' : wf threads s → step_rel s e s' → wf threads s'.
Proof.
  intros Hwf Hstep. split.
  - destruct Hwf as [Hlen _ _ _ _ _ _ _].
    destruct Hstep; simpl;
      rewrite ?length_insert, ?notify_all_length; try done.
    by erewrite notify_one_length.
  - eapply step_mutex; [apply Hwf|done].
  - eapply step_stop; [apply Hwf|done].
  - by eapply step_exited.
  - by eapply step_joined.
  - by eapply step_destroyed.
  - by eapply step_awake.
  - destruct Hwf as [Hlen _ _ _ _ _ _ Hjb].
    destruct Hstep; simpl; intros k0 Hk; simplify_eq; eauto with lia.
    apply lookup_lt_Some in Ew. apply Hjb in Edtor. lia.
Qed.

Lemma reachable_wf threads tr s : reachable threads tr s → wf threads s.
Proof.
  revert tr s. apply reachable_ind.
  - apply wf_init.
  - intros tr s a e s' _ Hwf Hs. eapply wf_step; [done|]. by eapply step_sound.
Qed.

(** ** The trace and the state agree *)

Lemma pushed_snoc tr e :
  pushed (tr ++ [e]) = pushed tr ++ match e with EvPush h => [h] | _ => [] end.
Proof. unfold pushed. rewrite omap_app. f_equal. by destruct e. Qed.

Lemma dequeued_snoc tr e :
  dequeued (tr ++ [e]) =
  dequeued tr ++ match e with EvDequeue _ h => [h] | _ => [] end.
Proof. unfold dequeued. rewrite omap_app. f_equal. by destruct e. Qed.

Lemma executed_snoc tr e :
  executed (tr ++ [e]) =
  executed tr ++ match e with EvRun _ h _ => [h] | _ => [] end.
Proof. unfold executed. rewrite omap_app. f_equal. by destruct e. Qed.

Lemma abandoned_snoc tr e :
  abandoned (tr ++ [e]) =
  abandoned tr ++ match e with EvDestroy q => q | _ => [] end.
Proof.
  unfold abandoned. rewrite omap_app, join_app. f_equal.
  destruct e; simpl; by rewrite ?app_nil_r.
Qed.

(** Replacing one worker's control point moves at most one task in or out of
    the tasks being run. *)
Lemma running_insert ws w p p' :
  ws !! w = Some p →
  option_list (running_of p') ++ omap running_of ws ≡ₚ
  option_list (running_of p) ++ omap running_of (<[w := p']> ws).
Proof.
  revert w. induction ws as [|p0 ws IH]; intros [|w] Hl; simplify_eq/=.
  - destruct (running_of p), (running_of p'); simpl; try done. apply perm_swap.
  - destruct (running_of p0) as [h0|]; [|by apply IH].
    rewrite <- !Permutation_middle. constructor. by apply IH.
Qed.

Lemma running_set_worker s w p p' :
  workers s !! w = Some p →
  option_list (running_of p') ++ running s ≡ₚ
  option_list (running_of p) ++ running (set_worker w p' s).
Proof. apply running_insert. Qed.

Lemma running_notify_all ws :
  omap running_of (notify_all ws) = omap running_of ws.
Proof.
  induction ws as [|p ws IH]; [done|].
  change (notify_all (p :: ws)) with (wake p :: notify_all ws).
  change (omap running_of (wake p :: notify_all ws))
    with (match running_of (wake p) with
          | Some h => h :: omap running_of (notify_all ws)
          | None => omap running_of (notify_all ws)
          end).
  rewrite IH. by destruct p.
Qed.

Lemma running_notify_one pick ws ws' :
  notify_one pick ws = Some ws' → omap running_of ws' ≡ₚ omap running_of ws.
Proof.
  unfold notify_one. intros H. repeat case_match; simplify_eq; [|done].
  symmetry. by apply (running_insert _ _ WWaiting WWoken).
Qed.

Lemma elem_of_running s h :
  h ∈ running s ↔ ∃ w, workers s !! w = Some (WRunning h).
Proof.
  unfold running. rewrite list_elem_of_omap. split.
  - intros (p & [w Hw]%list_elem_of_lookup & Hp). destruct p; simplify_eq/=. eauto.
  - intros [w Hw]. exists (WRunning h). split; [|done].
    apply list_elem_of_lookup. eauto.
Qed.

(** Two events of a trace with the same image in a projection without
    duplicates are one event. *)
Lemma omap_NoDup_inj {A B} (f : A → option B) (l : list A) x y z :
  NoDup (omap f l) → x ∈ l → y ∈ l → f x = Some z → f y = Some z → x = y.
Proof.
  induction l as [|a l IH]; intros Hnd Hx Hy Hfx Hfy.
  - by apply elem_of_nil in Hx.
  - simpl in Hnd. apply elem_of_cons in Hx as [->|Hx], Hy as [->|Hy].
    + done.
    + rewrite Hfx in Hnd. apply NoDup_cons in Hnd as [Hn _].
      destruct Hn. apply list_elem_of_omap. eauto.
    + rewrite Hfy in Hnd. apply NoDup_cons in Hnd as [Hn _].
      destruct Hn. apply list_elem_of_omap. eauto.
    + apply IH; try done. destruct (f a); [|done].
      by apply NoDup_cons in Hnd as [_ ?].
Qed.

Lemma abandon_all_lookup_keep q (l : list (invocation return_type exn)) h i :
  l !! h = Some i →
  ∃ i', abandon_all q l !! h = Some i' ∧ pc i' = pc i ∧
        callable i' = callable i ∧ future_valid i' = future_valid i ∧
        (cell i ≠ Pending → i' = i).
Proof.
  intros Hl. rewrite abandon_all_lookup, Hl. simpl. eexists. split; [done|].
  case_decide; simpl;
    rewrite ?abandon_pc, ?abandon_callable, ?abandon_future_valid;
    repeat split; try done.
  unfold abandon. by destruct (cell i).
Qed.

Lemma hist_init threads :
  hist [] (ThreadPool (return_type:=return_type) (exn:=exn) threads).
Proof.
  split; simpl; try done.
  - intros h. split; [by intros ?%elem_of_nil|]. by intros (i & ? & _).
  - constructor.
  - unfold running. simpl. rewrite spawn_replicate. simpl.
    induction threads; simpl; done.
  - by intros h ?%elem_of_nil.
Qed.

Ltac snoc_simpl :=
  rewrite ?pushed_snoc, ?dequeued_snoc, ?executed_snoc, ?abandoned_snoc;
  simpl; rewrite ?app_nil_r.

Lemma step_hist_pushed tr s e s' :
  hist tr s → step_rel s e s' →
  ∀ h, h ∈ pushed (tr ++ [e]) ↔
       ∃ i, invocations s' !! h = Some i ∧ (pc i = EPushed ∨ pc i = EReturned).
Proof.
  intros [Hp _ _ _ _ _ _ _ _] Hstep h0.
  destruct Hstep; snoc_simpl; rewrite ?elem_of_app, ?list_elem_of_singleton, Hp.
  all: split; [intros Hx|intros (i0 & Hl & Hpc)].
  all: repeat match goal with
       | H : _ ∨ _ |- _ => destruct H
       | H : ∃ _, _ |- _ => destruct H as (? & ? & ?)
       | H : abandon_all _ _ !! _ = Some _ |- _ =>
           apply abandon_all_lookup_Some in H as (? & ? & ? & ? & ? & ?)
       end; lookup_insert; simpl in *; simplify_eq.
  all: try congruence.
  all: try (by eauto using lookup_app_l_Some).
  all: try (by (goal_insert; simplify_eq; simpl in *; eauto)).
  all: try (eexists; split; [eassumption|];
            first [left; congruence | right; congruence]).
  all: match goal with
       | H : invocations _ !! _ = Some _ |- _ =>
           destruct (abandon_all_lookup_keep (tasks s) _ _ _ H)
             as (i' & Hi' & Hpc' & _)
       end.
  all: exists i'; split; [done|]; rewrite Hpc'; eauto.
Qed.

Lemma step_hist_fifo tr s e s' :
  hist tr s → step_rel s e s' →
  pushed (tr ++ [e]) = dequeued (tr ++ [e]) ++ tasks s' ++ abandoned (tr ++ [e]).
Proof.
  intros [_ Hf _ _ Ha _ _ _ _] Hstep.
  destruct Hstep; snoc_simpl; try done.
  all: try (rewrite Hf, ?Etasks; simpl; done).
  - rewrite Hf, Ha by done. by rewrite !app_nil_r, app_assoc.
  - rewrite Hf, Etasks. by rewrite <- app_assoc.
  - rewrite Hf, Ha; [|by rewrite Edtor]. by rewrite !app_nil_r.
Qed.

Lemma step_hist_nodup tr s e s' :
  hist tr s → step_rel s e s' → NoDup (pushed (tr ++ [e])).
Proof.
  intros [Hp _ Hn _ _ _ _ _ _] Hstep.
  destruct Hstep; snoc_simpl; try done.
  apply NoDup_app. split; [done|]. split; [|apply NoDup_singleton].
  intros h0 Hh0 ->%list_elem_of_singleton.
  apply Hp in Hh0 as (i0 & ? & [?|?]); simplify_eq; congruence.
Qed.

Lemma step_hist_alive tr s e s' :
  hist tr s → step_rel s e s' →
  is_destroyed (dtor s') = false → abandoned (tr ++ [e]) = [].
Proof.
  intros [_ _ _ _ Ha _ _ _ _] Hstep.
  destruct Hstep; snoc_simpl; try done.
  all: intros _; apply Ha; by rewrite Edtor.
Qed.

Lemma step_hist_running tr s e s' :
  hist tr s → step_rel s e s' →
  dequeued (tr ++ [e]) ≡ₚ executed (tr ++ [e]) ++ running s'.
Proof.
  intros [_ _ _ Hr _ Hpend _ _ _] Hstep.
  destruct Hstep; snoc_simpl; try done.
  all: unfold running in *; simpl.
  all: try pose proof (running_insert _ _ _ WLocked Ew) as Hx.
  - by rewrite (running_notify_one _ _ _ Ews).
  - destruct Ep as [-> | ->]; simpl in Hx; by rewrite <- Hx.
  - pose proof (running_insert _ _ _ WWaiting Ew) as Hy. by rewrite <- Hy.
  - pose proof (running_insert _ _ _ WExited Ew) as Hy. by rewrite <- Hy.
  - pose proof (running_insert _ _ _ (WRunning h) Ew) as Hy. simpl in Hy.
    rewrite <- Hy, <- (Permutation_middle (executed tr)).
    rewrite <- (Permutation_cons_append (dequeued tr)). by constructor.
  - pose proof (running_insert _ _ _ WIdle Ew) as Hy. simpl in Hy.
    by rewrite Hr, Hy, <- app_assoc.
  - destruct Ecell. eapply Hpend; [done|]. right; left.
    apply elem_of_running. eauto.
  - pose proof (running_insert _ _ _ WWoken Ew) as Hy. by rewrite <- Hy.
  - by rewrite running_notify_all.
Qed.

Lemma running_dequeued tr s h : hist tr s → h ∈ running s → h ∈ dequeued tr.
Proof.
  intros [_ _ _ Hr _ _ _ _ _] Hh. rewrite Hr. apply elem_of_app. by right.
Qed.

Lemma tasks_not_dequeued tr s h : hist tr s → h ∈ tasks s → h ∉ dequeued tr.
Proof.
  intros [_ Hf Hn _ _ _ _ _ _] Hh Hd. rewrite Hf in Hn.
  apply NoDup_app in Hn as (_ & Hn & _). apply (Hn h Hd).
  apply elem_of_app. by left.
Qed.

Lemma tasks_pushed tr s h : hist tr s → h ∈ tasks s → h ∈ pushed tr.
Proof.
  intros [_ Hf _ _ _ _ _ _ _] Hh. rewrite Hf, !elem_of_app. auto.
Qed.

Lemma dequeued_pushed tr s h : hist tr s → h ∈ dequeued tr → h ∈ pushed tr.
Proof.
  intros [_ Hf _ _ _ _ _ _ _] Hh. rewrite Hf, !elem_of_app. auto.
Qed.

Lemma running_NoDup tr s : hist tr s → NoDup (running s).
Proof.
  intros [_ Hf Hn Hr _ _ _ _ _]. rewrite Hf in Hn.
  apply NoDup_app in Hn as (Hn & _ & _). rewrite Hr in Hn.
  by apply NoDup_app in Hn as (_ & _ & ?).
Qed.

Lemma pushed_pc tr s h i :
  hist tr s → invocations s !! h = Some i → h ∈ tasks s ∨ h ∈ running s →
  pc i = EPushed ∨ pc i = EReturned.
Proof.
  intros Hh Hi Hc.
  assert (h ∈ pushed tr) as Hp.
  { destruct Hc as [?|?]; [by eapply tasks_pushed|].
    eapply dequeued_pushed; [done|]. by eapply running_dequeued. }
  apply (hist_pushed _ _ Hh) in Hp as (i' & ? & ?). by simplify_eq.
Qed.

Lemma tasks_running_disjoint tr s h :
  hist tr s → h ∈ tasks s → h ∈ running s → False.
Proof.
  intros Hh Ht Hr. eapply tasks_not_dequeued; [done..|].
  by eapply running_dequeued.
Qed.

Lemma omap_NoDup_lookup {A B} (f : A → option B) (l : list A) j1 j2 x y z :
  NoDup (omap f l) → l !! j1 = Some x → l !! j2 = Some y →
  f x = Some z → f y = Some z → j1 = j2.
Proof.
  revert j1 j2. induction l as [|a l IH]; intros [|j1] [|j2] Hnd H1 H2 Hx Hy;
    simplify_eq/=; try done.
  - rewrite Hx in Hnd. apply NoDup_cons in Hnd as [Hn _].
    destruct Hn. apply list_elem_of_omap. exists y.
    split; [|done]. apply list_elem_of_lookup. eauto.
  - rewrite Hy in Hnd. apply NoDup_cons in Hnd as [Hn _].
    destruct Hn. apply list_elem_of_omap. exists x.
    split; [|done]. apply list_elem_of_lookup. eauto.
  - f_equal. eapply IH; try done. destruct (f a); [|done].
    by apply NoDup_cons in Hnd as [_ ?].
Qed.

Lemma running_unique tr s w1 w2 h :
  hist tr s → workers s !! w1 = Some (WRunning h) →
  workers s !! w2 = Some (WRunning h) → w1 = w2.
Proof.
  intros Hh H1 H2.
  by eapply (omap_NoDup_lookup running_of (workers s));
    [eapply running_NoDup|..].
Qed.

Ltac hist_tac :=
  repeat match goal with
  | H : _ ∨ _ |- _ => destruct H
  | H : ∃ _, _ |- _ => destruct H as (? & ?)
  | H : _ ∧ _ |- _ => destruct H
  | H : _ ∈ running _ |- _ => apply elem_of_running in H; simpl in H
  | H : _ ∈ _ ++ _ |- _ => apply elem_of_app in H
  | H : _ ∈ [_] |- _ => apply list_elem_of_singleton in H
  | H : _ ∈ [] |- _ => by apply elem_of_nil in H
  | H : abandon_all _ _ !! _ = Some _ |- _ =>
      apply abandon_all_lookup_Some in H as (? & ? & ? & ? & ? & ?)
  | _ => progress (lookup_insert; lookup_workers; simpl in *; simplify_eq)
  end.

Lemma step_hist_pending tr s e s' :
  hist tr s → step_rel s e s' →
  ∀ h i, invocations s' !! h = Some i →
         h ∈ tasks s' ∨ h ∈ running s' ∨ pc i = EConstructed ∨ pc i = ELocked →
         cell i = Pending.
Proof.
  intros Hh Hstep h0 i0 Hl Hc.
  pose proof (hist_pending _ _ Hh) as Hpend.
  destruct Hstep; simpl in *; hist_tac.
  all: try congruence.
  all: try (by (eapply Hpend; [eassumption|]; rewrite ?elem_of_running; eauto 6)).
  - destruct (pushed_pc _ _ _ _ Hh Einv); [by left|congruence..].
  - destruct (pushed_pc _ _ _ _ Hh Einv); [|congruence..].
    right. apply elem_of_running. eauto.
  - eapply Hpend; [done|]. left. rewrite Etasks. by right.
  - eapply Hpend; [done|]. left. rewrite Etasks. by left.
  - exfalso. eapply tasks_running_disjoint; [done..|].
    apply elem_of_running. eauto.
  - destruct H. by eapply running_unique.
  - destruct (pushed_pc _ _ _ _ Hh Einv); [|congruence..].
    right. apply elem_of_running. eauto.
  - destruct (pushed_pc _ _ _ _ Hh Einv); [|congruence..].
    right. apply elem_of_running. eauto.
  - exfalso. eapply tasks_running_disjoint; [done..|].
    apply elem_of_running. eauto.
  - destruct (pushed_pc _ _ _ _ Hh H0); [by left|congruence..].
  - destruct (pushed_pc _ _ _ _ Hh H0); [by left|congruence..].
Qed.

Lemma step_hist_ready tr s e s' :
  hist tr s → step_rel s e s' →
  ∀ h i o, invocations s' !! h = Some i → cell i = Ready o →
           o = callable i () ∧ h ∈ executed (tr ++ [e]).
Proof.
  intros Hh Hstep h0 i0 o Hl Hc.
  pose proof (hist_ready _ _ Hh) as Hready.
  destruct Hstep; snoc_simpl; simpl in *; hist_tac.
  all: rewrite ?elem_of_app, ?list_elem_of_singleton.
  all: try (by (edestruct Hready as [? ?]; [eassumption..|]; eauto)).
  all: try (split; [done|by right]).
  match goal with
  | Hi : invocations s !! _ = Some ?x, Ht : _ ∈ tasks s |- _ =>
      pose proof (hist_pending _ _ Hh _ _ Hi (or_introl Ht)) as Hp
  end.
  unfold abandon in Hc. by rewrite Hp in Hc.
Qed.

Lemma step_hist_executed tr s e s' :
  hist tr s → step_rel s e s' →
  ∀ h, h ∈ executed (tr ++ [e]) →
       ∃ i, invocations s' !! h = Some i ∧ cell i = Ready (callable i ()).
Proof.
  intros Hh Hstep h0.
  pose proof (hist_executed _ _ Hh) as Hex.
  destruct Hstep; snoc_simpl; simpl in *; intros Hx; hist_tac.
  all: try (destruct (Hex _ Hx) as (i0 & Hi0 & Hc0)).
  all: try (by eauto using lookup_app_l_Some).
  all: try (by (goal_insert; simplify_eq; simpl in *; eauto)).
  - destruct (decide (h = h0)) as [->|Hne].
    + simplify_eq.
      rewrite (hist_pending _ _ Hh _ _ Einv) in Hc0; [done|]. auto.
    + rewrite list_lookup_insert_ne by done. eauto.
  - destruct (abandon_all_lookup_keep (tasks s) _ _ _ Hi0)
      as (i' & Hi' & _ & _ & _ & Hsame).
    rewrite Hsame in Hi' by congruence. eauto.
Qed.

Lemma step_hist_broken tr s e s' :
  hist tr s → step_rel s e s' →
  ∀ h i, invocations s' !! h = Some i → cell i = BrokenPromise →
         pc i = EThrew ∨ h ∈ abandoned (tr ++ [e]).
Proof.
  intros Hh Hstep h0 i0 Hl Hc.
  pose proof (hist_broken _ _ Hh) as Hbr.
  destruct Hstep; snoc_simpl; simpl in *; hist_tac.
  all: rewrite ?elem_of_app.
  all: try (by eauto).
  all: try (by (edestruct Hbr as [?|?]; [eassumption..| |];
                first [congruence | eauto])).
Qed.

Lemma hist_step tr s e s' :
  hist tr s → step_rel s e s' → hist (tr ++ [e]) s'.
Proof.
  intros Hh Hstep. split.
  - by eapply step_hist_pushed.
  - by eapply step_hist_fifo.
  - by eapply step_hist_nodup.
  - by eapply step_hist_running.
  - by eapply step_hist_alive.
  - by eapply step_hist_pending.
  - by eapply step_hist_ready.
  - by eapply step_hist_executed.
  - by eapply step_hist_broken.
Qed.

Lemma reachable_hist threads tr s : reachable threads tr s → hist tr s.
Proof.
  revert tr s. apply reachable_ind.
  - apply hist_init.
  - intros tr s a e s' _ Hh Hs. eapply hist_step; [done|]. by eapply step_sound.
Qed.

(** ** The events and the state agree *)

Lemma dtor_events_snoc tr e :
  dtor_events (tr ++ [e]) = dtor_events tr ++ option_list (dtor_event e).
Proof.
  unfold dtor_events. rewrite omap_app. simpl. by destruct (dtor_event e).
Qed.

Lemma evts_init threads :
  evts threads [] (ThreadPool (return_type:=return_type) (exn:=exn) threads).
Proof.
  split; simpl; rewrite ?spawn_replicate; simpl; try done.
  all: intros; try split; try (by intros ?%elem_of_nil);
    try (by intros (? & ? & _)); try (by intros [? _]%lookup_replicate);
    try lia.
  all: match goal with
       | H : _ ∈ [] |- _ => by apply elem_of_nil in H
       | H : replicate _ _ !! _ = Some _ |- _ =>
           by apply lookup_replicate in H as [? _]
       end.
Qed.

Ltac ev_tac :=
  repeat match goal with
  | H : _ ∨ _ |- _ => destruct H
  | H : ∃ _, _ |- _ => destruct H as (? & ?)
  | H : _ ∧ _ |- _ => destruct H
  | H : _ ∈ _ ++ _ |- _ => apply elem_of_app in H
  | H : _ ∈ [_] |- _ => apply list_elem_of_singleton in H
  | H : _ ∈ [] |- _ => by apply elem_of_nil in H
  | H : abandon_all _ _ !! _ = Some _ |- _ =>
      apply abandon_all_lookup_Some in H as (? & ? & ? & ? & ? & ?)
  | _ => progress (lookup_insert; lookup_workers; simpl in *; simplify_eq)
  end.

Ltac abandon_goal :=
  match goal with
  | H : invocations ?s !! ?h = Some ?x
    |- context [abandon_all ?q (invocations ?s) !! ?h] =>
      let i' := fresh "i'" in
      let Hi' := fresh "Hi'" in
      let Hpc' := fresh "Hpc'" in
      destruct (abandon_all_lookup_keep q _ _ _ H)
        as (i' & Hi' & Hpc' & ? & ? & ?);
      exists i'; split; [exact Hi'|]; rewrite Hpc'
  end.

Lemma step_ev_dtor threads tr s e s' :
  wf threads s → hist tr s → evts threads tr s → step_rel s e s' →
  dtor_events (tr ++ [e]) = dtor_script threads (dtor s') (abandoned (tr ++ [e])).
Proof.
  intros Hwf Hh He Hstep. pose proof (ev_dtor _ _ _ He) as Hd.
  destruct Hstep; rewrite dtor_events_snoc, abandoned_snoc, Hd;
    cbn -[seq]; rewrite ?app_nil_r; try done.
  all: rewrite Edtor; cbn -[seq]; try done.
  - by rewrite seq_S, fmap_app.
  - rewrite (hist_alive _ _ Hh) by by rewrite Edtor.
    assert (k = threads) as ->.
    { apply lookup_ge_None in Ew. pose proof (wf_join_bound _ _ Hwf _ Edtor).
      rewrite (wf_workers _ _ Hwf) in Ew. lia. }
    done.
Qed.

Lemma step_ev_running threads tr s e s' :
  evts threads tr s → step_rel s e s' →
  ∀ w h, workers s' !! w = Some (WRunning h) → EvDequeue w h ∈ tr ++ [e].
Proof.
  intros He Hstep w0 h0 Hw. pose proof (ev_running _ _ _ He) as Hr.
  rewrite elem_of_app, list_elem_of_singleton.
  destruct Hstep; simpl in *; ev_tac; eauto.
Qed.

Lemma step_ev_run threads tr s e s' :
  evts threads tr s → step_rel s e s' →
  ∀ w h o, EvRun w h o ∈ tr ++ [e] → EvDequeue w h ∈ tr ++ [e].
Proof.
  intros He Hstep w0 h0 o.
  pose proof (ev_running _ _ _ He) as Hr. pose proof (ev_run _ _ _ He) as Hx.
  rewrite !elem_of_app, !list_elem_of_singleton.
  intros [?|?]; [by eauto|].
  destruct Hstep; simplify_eq. eauto.
Qed.

Lemma step_ev_call threads tr s e s' :
  evts threads tr s → step_rel s e s' →
  ∀ h, EvCall h ∈ tr ++ [e] ↔ h < length (invocations s').
Proof.
  intros He Hstep h0. pose proof (ev_call _ _ _ He h0) as Hc.
  rewrite elem_of_app, list_elem_of_singleton, Hc.
  destruct Hstep; simpl;
    rewrite ?length_insert, ?length_app, ?abandon_all_length; simpl.
  all: split; [intros [?|?]; simplify_eq; lia|intros ?].
  all: try (by left).
  destruct (decide (h0 = length (invocations s))) as [->|]; [by right|].
  left. lia.
Qed.

Lemma step_ev_lock threads tr s e s' :
  evts threads tr s → step_rel s e s' →
  ∀ h, EvLock (Caller h) ∈ tr ++ [e] ↔
       ∃ i, invocations s' !! h = Some i ∧ pc i ≠ EConstructed.
Proof.
  intros He Hstep h0. pose proof (ev_lock _ _ _ He h0) as Hc.
  rewrite elem_of_app, list_elem_of_singleton, Hc.
  destruct Hstep; simpl.
  all: split; [intros Hx|intros (i0 & Hl & Hpc)]; ev_tac.
  all: try congruence.
  all: try (by eauto using lookup_app_l_Some).
  all: try (by (goal_insert; simplify_eq; simpl in *; eauto)).
  all: try (by (left; eexists; split; [eassumption|]; congruence)).
  by abandon_goal.
Qed.

Lemma step_ev_reject threads tr s e s' :
  evts threads tr s → step_rel s e s' →
  ∀ h, EvReject h ∈ tr ++ [e] ↔
       ∃ i, invocations s' !! h = Some i ∧ pc i = EThrew.
Proof.
  intros He Hstep h0. pose proof (ev_reject _ _ _ He h0) as Hc.
  rewrite elem_of_app, list_elem_of_singleton, Hc.
  destruct Hstep; simpl.
  all: split; [intros Hx|intros (i0 & Hl & Hpc)]; ev_tac.
  all: try congruence.
  all: try (by eauto using lookup_app_l_Some).
  all: try (by (goal_insert; simplify_eq; simpl in *; eauto)).
  all: try (by (left; eexists; split; [eassumption|]; congruence)).
  by abandon_goal.
Qed.

Lemma step_ev_notify threads tr s e s' :
  evts threads tr s → step_rel s e s' →
  ∀ h k, EvNotifyOne h k ∈ tr ++ [e] →
         ∃ i, invocations s' !! h = Some i ∧ pc i = EReturned.
Proof.
  intros He Hstep h0 k0. pose proof (ev_notify _ _ _ He h0 k0) as Hc.
  rewrite elem_of_app, list_elem_of_singleton.
  destruct Hstep; simpl; intros Hx; ev_tac.
  all: try (destruct Hc as (i0 & Hi0 & Hpc0); [done|]).
  all: try (by eauto using lookup_app_l_Some).
  all: try (by (goal_insert; simplify_eq; simpl in *; eauto; congruence)).
  by abandon_goal.
Qed.

Lemma step_ev_get threads tr s e s' :
  evts threads tr s → step_rel s e s' →
  ∀ h r, EvGet h r ∈ tr ++ [e] →
         ∃ i, invocations s' !! h = Some i ∧ pc i = EReturned.
Proof.
  intros He Hstep h0 r0. pose proof (ev_get _ _ _ He h0 r0) as Hc.
  rewrite elem_of_app, list_elem_of_singleton.
  destruct Hstep; simpl; intros Hx; ev_tac.
  all: try (destruct Hc as (i0 & Hi0 & Hpc0); [done|]).
  all: try (by eauto using lookup_app_l_Some).
  all: try (by (goal_insert; simplify_eq; simpl in *; eauto; congruence)).
  by abandon_goal.
Qed.

Lemma step_ev_crash threads tr s e s' :
  hist tr s → evts threads tr s → step_rel s e s' →
  ∀ w, (EvCrash w ∉ tr ++ [e]) ∧ workers s' !! w ≠ Some WCrashed.
Proof.
  intros Hh He Hstep w0. destruct (ev_crash _ _ _ He w0) as [Hc Hw].
  rewrite elem_of_app, list_elem_of_singleton.
  destruct Hstep; simpl.
  11: { destruct Ecell. eapply (hist_pending _ _ Hh); [done|].
        right; left. apply elem_of_running. eauto. }
  all: split; [by intros [?|?]|intros Hx; ev_tac; try done].
Qed.

Lemma evts_step threads tr s e s' :
  wf threads s → hist tr s → evts threads tr s → step_rel s e s' →
  evts threads (tr ++ [e]) s'.
Proof.
  intros Hwf Hh He Hstep. split.
  - by eapply step_ev_dtor.
  - by eapply step_ev_running.
  - by eapply step_ev_run.
  - by eapply step_ev_call.
  - by eapply step_ev_lock.
  - by eapply step_ev_reject.
  - by eapply step_ev_notify.
  - by eapply step_ev_get.
  - by eapply step_ev_crash.
Qed.

Lemma reachable_evts threads tr s : reachable threads tr s → evts threads tr s.
Proof.
  revert tr s. apply reachable_ind.
  - apply evts_init.
  - intros tr s a e s' Hr He Hs.
    eapply evts_step; eauto using reachable_wf, reachable_hist, step_sound.
Qed.

(** ** Tasks are dropped only by a pool without workers *)

Lemma abandoned_nil threads tr s :
  reachable threads tr s → 0 < threads → abandoned tr = [].
Proof.
  intros Hr Hpos. revert tr s Hr. apply reachable_ind; [done|].
  intros tr s a e s' Hr IH Hs. apply step_sound in Hs.
  pose proof (reachable_wf _ _ _ Hr) as Hwf.
  rewrite abandoned_snoc, IH. destruct Hs; simpl; try done.
  apply lookup_ge_None in Ew. rewrite (wf_workers _ _ Hwf) in Ew.
  assert (0 < k) as Hk by lia.
  by destruct (wf_exited _ _ Hwf 0 (wf_joined _ _ Hwf _ _ Edtor Hk)).
Qed.

(** ** Each task is claimed once and run once *)


(** ** Cutting a schedule at an event *)

Lemma run_cons a acts s tr s' :
  run (a :: acts) s = Some (tr, s') →
  ∃ e s1 tr1, step a s = Some (e, s1) ∧ run acts s1 = Some (tr1, s') ∧
              tr = e :: tr1.
Proof.
  simpl. destruct (step a s) as [[e s1]|]; [|done].
  destruct (run acts s1) as [[tr1 s2]|] eqn:Hrun; [|done].
  intros ?; simplify_eq. by exists e, s1, tr1.
Qed.

Lemma reachable_cut threads l1 e l2 s :
  reachable threads (l1 ++ e :: l2) s →
  ∃ s1 s2 acts, reachable threads l1 s1 ∧ step_rel s1 e s2 ∧
                reachable threads (l1 ++ [e]) s2 ∧ run acts s2 = Some (l2, s).
Proof.
  intros Hr. apply reachable_prefix in Hr as (s1 & acts & Hr1 & Hrun).
  destruct acts as [|a acts]; [simpl in Hrun; by simplify_eq|].
  apply run_cons in Hrun as (e' & s2 & tr1 & Hs & Hrun & ?). simplify_eq.
  exists s1, s2, acts. split_and!; eauto using step_sound, reachable_step.
Qed.

Lemma elem_of_dtor_events tr e :
  dtor_event e = Some e → e ∈ tr ↔ e ∈ dtor_events tr.
Proof.
  intros He. unfold dtor_events. rewrite list_elem_of_omap. split.
  - eauto.
  - intros (e' & Hin & He'). destruct e' as [| [] | | | | | | | | | | | | | |];
      by simplify_eq/=.
Qed.

Lemma elem_of_joins e k :
  e ∈ EvJoin (return_type:=return_type) (exn:=exn) <$> seq 0 k ↔
  ∃ w, e = EvJoin w ∧ w < k.
Proof.
  rewrite list_elem_of_fmap. split.
  - intros (w & -> & Hw%elem_of_seq). exists w. split; [done|lia].
  - intros (w & -> & Hw). exists w. split; [done|]. apply elem_of_seq. lia.
Qed.

Lemma elem_of_dtor_script threads d q e :
  e ∈ dtor_script (return_type:=return_type) (exn:=exn) threads d q ↔
  match d with
  | DAlive => False
  | DLocked => e = EvLock Destructor
  | DStopped => e = EvLock Destructor ∨ e = EvStop
  | DJoining k =>
      e = EvLock Destructor ∨ e = EvStop ∨ e = EvNotifyAll ∨
      ∃ w, e = EvJoin w ∧ w < k
  | DDestroyed =>
      e = EvLock Destructor ∨ e = EvStop ∨ e = EvNotifyAll ∨
      (∃ w, e = EvJoin w ∧ w < threads) ∨ e = EvDestroy q
  end.
Proof.
  destruct d; cbn -[seq];
    rewrite ?elem_of_cons, ?elem_of_app, ?elem_of_joins, ?elem_of_nil,
      ?list_elem_of_singleton; tauto.
Qed.

Lemma stop_event threads tr s :
  wf threads s → evts threads tr s → EvStop ∈ tr ↔ stop s = true.
Proof.
  intros Hwf He. rewrite elem_of_dtor_events by done.
  rewrite (ev_dtor _ _ _ He), (wf_stop _ _ Hwf), elem_of_dtor_script.
  destruct (dtor s); simpl; split; try done; eauto.
  all: intros Hx; repeat destruct Hx as [Hx|Hx]; try done.
  all: by destruct Hx as (? & ? & ?).
Qed.

Lemma destroy_event threads tr s q :
  evts threads tr s → EvDestroy q ∈ tr ↔ dtor s = DDestroyed ∧ q = abandoned tr.
Proof.
  intros He. rewrite elem_of_dtor_events by done.
  rewrite (ev_dtor _ _ _ He), elem_of_dtor_script.
  destruct (dtor s); simpl; split; try done; try (by intros [? ?]).
  all: try (intros Hx; repeat destruct Hx as [Hx|Hx]; try done;
            by destruct Hx as (? & ? & ?)).
  - intros Hx; repeat destruct Hx as [Hx|Hx]; try done.
    + by destruct Hx as (? & ? & ?).
    + by simplify_eq.
  - intros [_ ->]. eauto 6.
Qed.

(** ** Destruction drains the queue of a pool that has workers *)

Lemma run_before_destroy threads tr s w h o :
  reachable threads tr s → dtor s = DDestroyed → EvRun w h o ∈ tr →
  ∃ q, before (EvRun w h o) (EvDestroy q) tr.
Proof.
  intros Hr Hd Hrun. exists (abandoned tr).
  pose proof (reachable_evts _ _ _ Hr) as He.
  assert (EvDestroy (abandoned tr) ∈ tr) as Hin
    by by apply (destroy_event _ _ _ _ He).
  revert Hin. generalize (abandoned tr). intros q Hin.
  apply list_elem_of_split in Hrun as (l1 & l2 & ->).
  destruct (reachable_cut _ _ _ _ _ Hr) as (s1 & s2 & acts & Hr1 & Hs & _ & _).
  apply elem_of_app in Hin as [Hin|Hin].
  - pose proof (proj1 (destroy_event threads l1 s1 _
                         (reachable_evts _ _ _ Hr1)) Hin) as [Hd1 _].
    destruct (wf_destroyed _ _ (reachable_wf _ _ _ Hr1) Hd1) as [Hw _].
    inversion Hs; simplify_eq. by apply Hw in Ew.
  - apply elem_of_cons in Hin as [?|Hin]; [done|].
    apply list_elem_of_split in Hin as (l3 & l4 & ->).
    by exists l1, l3, l4.
Qed.

(** ** Once stopping, the pool runs out of work *)

Lemma sum_list_insert {A} (g : A → nat) (l : list A) j x y :
  l !! j = Some x →
  sum_list (g <$> <[j := y]> l) + g x = sum_list (g <$> l) + g y.
Proof.
  revert j. induction l as [|a l IH]; intros [|j] Hl; simplify_eq/=; [lia|].
  specialize (IH _ Hl). lia.
Qed.

Lemma sum_list_notify_all ws :
  sum_list (worker_weight <$> notify_all ws) ≤ sum_list (worker_weight <$> ws).
Proof.
  induction ws as [|p ws IH]; [done|].
  change (notify_all (p :: ws)) with (wake p :: notify_all ws).
  rewrite !fmap_cons. simpl. destruct p; simpl; lia.
Qed.

Lemma sum_list_abandon_all q (l : list (invocation return_type exn)) :
  sum_list (caller_weight <$> abandon_all q l) = sum_list (caller_weight <$> l).
Proof.
  f_equal. apply list_eq. intros j.
  rewrite !list_lookup_fmap, abandon_all_lookup.
  destruct (l !! j) as [i|]; simpl; [|done].
  unfold caller_weight. case_decide; simpl; by rewrite ?abandon_pc.
Qed.

Lemma pool_action_event a s e s' :
  step a s = Some (e, s') → pool_action a = pool_event e.
Proof.
  intros Hs. destruct a; simpl in *.
  - unfold enqueue_construct in Hs. by case_match; simplify_eq.
  - unfold enqueue_step in Hs. by repeat case_match; simplify_eq.
  - unfold worker_step in Hs. repeat case_match; simplify_eq; try done.
    unfold claim_event. by case_match.
  - unfold wake_step in Hs. by repeat case_match; simplify_eq.
  - unfold dtor_step in Hs. by repeat case_match; simplify_eq.
  - unfold get_step in Hs. by repeat case_match; simplify_eq.
Qed.

(** Every step of a worker or of the destructor taken while the pool is
    stopping uses up some of what is left. *)
Lemma pool_step_rel_decreases threads s e s' :
  wf threads s → stop s = true → pool_event e = true →
  step_rel s e s' → work_left threads s' < work_left threads s.
Proof.
  intros Hwf Hstop He Hrel. unfold work_left.
  pose proof (wf_stop _ _ Hwf) as Hst. rewrite Hstop in Hst.
  destruct Hrel; simplify_eq/=; try congruence.
  all: try match goal with
       | Hw : workers _ !! ?w = Some ?p
         |- context [<[?w := ?p']> (workers _)] =>
           pose proof (sum_list_insert worker_weight _ _ _ p' Hw) as Hsum;
           simpl in Hsum
       end.
  all: rewrite ?Etasks, ?Edtor in *; simpl in *; try done.
  all: try lia.
  - destruct Ep as [-> | ->]; simpl in *; lia.
  - pose proof (sum_list_insert caller_weight _ _ _
                  (set_cell (Ready (callable i ())) i) Einv) as Hsumi.
    change (caller_weight (set_cell (Ready (callable i ())) i))
      with (caller_weight i) in Hsumi.
    lia.
  - pose proof (sum_list_notify_all (workers s)). lia.
  - apply lookup_lt_Some in Ew. rewrite (wf_workers _ _ Hwf) in Ew. lia.
  - rewrite sum_list_abandon_all. lia.
Qed.

Lemma pool_step_decreases threads a s e s' :
  wf threads s → stop s = true → pool_action a = true →
  step a s = Some (e, s') → work_left threads s' < work_left threads s.
Proof.
  intros Hwf Hstop Ha Hs. eapply pool_step_rel_decreases; eauto using step_sound.
  by rewrite <- (pool_action_event _ _ _ _ Hs).
Qed.

Lemma step_rel_stop s e s' : step_rel s e s' → stop s = true → stop s' = true.
Proof. by destruct 1. Qed.

(** While the pool is stopping and not yet destroyed, some thread of the
    pool can take a step, and that step uses up some of what is left. *)
Lemma stopping_progress threads tr s :
  reachable threads tr s → stop s = true → dtor s ≠ DDestroyed →
  ∃ a e s', step a s = Some (e, s') ∧
            work_left threads s' < work_left threads s.
Proof.
  intros Hr Hstop Hd.
  pose proof (reachable_wf _ _ _ Hr) as Hwf.
  pose proof (reachable_hist _ _ _ Hr) as Hh.
  pose proof (reachable_evts _ _ _ Hr) as He.
  pose proof (wf_stop _ _ Hwf) as Hst. rewrite Hstop in Hst.
  assert (∀ a e s', pool_action a = true → step a s = Some (e, s') →
            ∃ a e s', step a s = Some (e, s') ∧
                      work_left threads s' < work_left threads s) as Hpool.
  { intros a e s' Ha Hs. exists a, e, s'. split; [done|].
    by eapply pool_step_decreases. }
  destruct (queue_mutex s) as [[w|h|]|] eqn:Hm.
  - apply (wf_mutex _ _ Hwf) in Hm. simpl in Hm.
    destruct (worker_claim (stop s) (tasks s)) as [p q] eqn:Hc.
    eapply (Hpool (AWorker w)); [done|]. simpl. unfold worker_step.
    by rewrite Hm, Hc.
  - apply (wf_mutex _ _ Hwf) in Hm as (i & Hi & Hpc).
    eexists (ACaller h None), _, _. split.
    { simpl. unfold enqueue_step. rewrite Hi, Hpc, Hstop.
      by destruct (dtor s). }
    unfold work_left. simpl.
    pose proof (sum_list_insert caller_weight _ _ _
      (Invocation (callable i) BrokenPromise EThrew false) Hi) as Hsum.
    assert (caller_weight i = 1) as Hone
      by (unfold caller_weight; by rewrite Hpc).
    rewrite Hone in Hsum.
    change (caller_weight (Invocation (callable i) BrokenPromise EThrew false))
      with 0 in Hsum.
    lia.
  - apply (wf_mutex _ _ Hwf) in Hm. simpl in Hm. by rewrite Hm in Hst.
  - destruct (dtor s) as [| | |k|] eqn:Edtor; try done.
    + eapply (Hpool ADtor); [done|]. simpl. unfold dtor_step. by rewrite Edtor.
    + destruct (workers s !! k) as [p|] eqn:Ew.
      2: { eapply (Hpool ADtor); [done|]. simpl. unfold dtor_step.
           by rewrite Edtor, Ew. }
      destruct p as [| | | |h| |].
      * eapply (Hpool (AWorker k)); [done|]. simpl. unfold worker_step.
        by rewrite Ew, Hm.
      * assert (holds s (Worker k)) as Hk by done.
        apply (wf_mutex _ _ Hwf) in Hk. congruence.
      * destruct (wf_awake _ _ Hwf) with (w := k); [by rewrite Edtor|done].
      * eapply (Hpool (AWorker k)); [done|]. simpl. unfold worker_step.
        by rewrite Ew, Hm.
      * assert (h ∈ pushed tr) as Hp.
        { eapply dequeued_pushed; [done|]. eapply running_dequeued; [done|].
          apply elem_of_running. eauto. }
        apply (hist_pushed _ _ Hh) in Hp as (i & Hi & _).
        destruct (invoke i) as [i'|] eqn:Hinv.
        -- eapply (Hpool (AWorker k)); [done|]. simpl. unfold worker_step.
           by rewrite Ew, Hi, Hinv.
        -- eapply (Hpool (AWorker k)); [done|]. simpl. unfold worker_step.
           by rewrite Ew, Hi, Hinv.
      * eapply (Hpool ADtor); [done|]. simpl. unfold dtor_step.
        by rewrite Edtor, Ew.
      * by destruct (ev_crash _ _ _ He k).
Qed.

(** From a stopping pool the destructor can be brought to its end, in no
    more steps than there is work left. *)
Lemma stopping_drains threads m :
  ∀ tr s, reachable threads tr s → stop s = true → work_left threads s ≤ m →
          ∃ acts tr' s', run acts s = Some (tr', s') ∧ dtor s' = DDestroyed ∧
                         length acts ≤ m.
Proof.
  induction m as [|m IH]; intros tr s Hr Hstop Hm.
  - destruct (decide (dtor s = DDestroyed)) as [Hd|Hd].
    + exists [], [], s. split_and!; simpl; [done..|lia].
    + destruct (stopping_progress _ _ _ Hr Hstop Hd) as (? & ? & ? & _ & ?). lia.
  - destruct (decide (dtor s = DDestroyed)) as [Hd|Hd].
    + exists [], [], s. split_and!; simpl; [done..|lia].
    + destruct (stopping_progress _ _ _ Hr Hstop Hd) as (a & e & s1 & Hs & Hlt).
      destruct (IH (tr ++ [e]) s1) as (acts & tr' & s' & Hrun & Hd' & Hlen).
      * by eapply reachable_step.
      * eapply step_rel_stop; [by eapply step_sound|done].
      * lia.
      * exists (a :: acts), (e :: tr'), s'. simpl. rewrite Hs, Hrun.
        split_and!; [done..|lia].
Qed.

(** Whoever holds the mutex can leave its block. *)
Lemma holder_releases threads s t :
  wf threads s → queue_mutex s = Some t → is_destroyed (dtor s) = false →
  ∃ a e s', step a s = Some (e, s') ∧ queue_mutex s' = None ∧
            is_destroyed (dtor s') = false ∧
            (stop s = true → stop s' = true) ∧
            (t ≠ Destructor → dtor s' = dtor s) ∧
            (∀ h, t ≠ Caller h → invocations s' !! h = invocations s !! h).
Proof.
  intros Hwf Hm Hd. apply (wf_mutex _ _ Hwf) in Hm. destruct t as [w|h|].
  - simpl in Hm. destruct (worker_claim (stop s) (tasks s)) as [p q] eqn:Hc.
    eexists (AWorker w), _, _. simpl. unfold worker_step. rewrite Hm, Hc.
    by split_and!.
  - destruct Hm as (i & Hi & Hpc).
    destruct (stop s) eqn:Hstop.
    all: eexists (ACaller h None), _, _; simpl; unfold enqueue_step.
    all: rewrite Hi, Hpc, Hd, Hstop; simpl; split_and!; try done.
    all: intros h0 Hne; apply list_lookup_insert_ne; congruence.
  - simpl in Hm. eexists ADtor, _, _. simpl. unfold dtor_step. rewrite Hm.
    by split_and!.
Qed.

(** The destructor can always get as far as setting the flag. *)
Lemma destructor_can_stop threads tr s :
  reachable threads tr s →
  ∃ acts tr' s', run acts s = Some (tr', s') ∧
                 (stop s' = true ∨ dtor s' = DDestroyed).
Proof.
  intros Hr. pose proof (reachable_wf _ _ _ Hr) as Hwf.
  assert (∀ s1, dtor s1 = DAlive → queue_mutex s1 = None →
            ∃ acts tr' s', run acts s1 = Some (tr', s') ∧ stop s' = true)
    as Hfree.
  { intros s1 Hd Hm. exists [ADtor; ADtor]. simpl. unfold dtor_step.
    rewrite Hd, Hm. simpl. eauto. }
  destruct (dtor s) eqn:Hd.
  - destruct (queue_mutex s) as [t|] eqn:Hm.
    + destruct (holder_releases _ _ _ Hwf Hm) as (a & e & s1 & Hs & Hm1 & _ & _ & Hd1 & _);
        [by rewrite Hd|].
      assert (t ≠ Destructor) as Ht.
      { intros ->. apply (wf_mutex _ _ Hwf) in Hm. simpl in Hm. congruence. }
      rewrite Hd in Hd1. specialize (Hd1 Ht).
      destruct (Hfree _ Hd1 Hm1) as (acts & tr' & s' & Hrun & Hstop).
      exists (a :: acts), (e :: tr'), s'. simpl. rewrite Hs, Hrun. eauto.
    + destruct (Hfree _ Hd Hm) as (acts & tr' & s' & Hrun & Hstop). eauto 6.
  - exists [ADtor]. simpl. unfold dtor_step. rewrite Hd. simpl. eauto.
  - exists [], [], s. split; [done|]. left. by rewrite (wf_stop _ _ Hwf), Hd.
  - exists [], [], s. split; [done|]. left. by rewrite (wf_stop _ _ Hwf), Hd.
  - exists [], [], s. eauto.
Qed.

Lemma destructor_returns threads :
  destruction_completes (return_type:=return_type) (exn:=exn) threads.
Proof.
  intros tr s Hr.
  destruct (destructor_can_stop _ _ _ Hr) as (acts1 & tr1 & s1 & Hrun1 & Hs1).
  destruct Hs1 as [Hstop|Hd]; [|by eauto].
  destruct (stopping_drains threads (work_left threads s1) (tr ++ tr1) s1)
    as (acts2 & tr2 & s2 & Hrun2 & Hd & _);
    [by eapply reachable_run|done..|].
  exists (acts1 ++ acts2), (tr1 ++ tr2), s2. by rewrite run_app, Hrun1, Hrun2.
Qed.

Lemma drained_when_destroyed threads tr s :
  0 < threads → reachable threads tr s → dtor s = DDestroyed → drained tr s.
Proof.
  intros Hpos Hr Hd.
  pose proof (reachable_wf _ _ _ Hr) as Hwf.
  pose proof (reachable_hist _ _ _ Hr) as Hh.
  pose proof (reachable_evts _ _ _ Hr) as He.
  destruct (wf_destroyed _ _ Hwf Hd) as [Hw Ht].
  pose proof (abandoned_nil _ _ _ Hr Hpos) as Hab.
  split_and!.
  - by rewrite (ev_dtor _ _ _ He), Hd, Hab, (wf_workers _ _ Hwf).
  - by rewrite (wf_stop _ _ Hwf), Hd.
  - done.
  - intros h Hp.
    assert (h ∈ executed tr) as Hx.
    { rewrite (hist_fifo _ _ Hh), Ht, Hab, !app_nil_r in Hp.
      rewrite (hist_running _ _ Hh) in Hp.
      apply elem_of_app in Hp as [?|Hrun]; [done|].
      apply elem_of_running in Hrun as [w Hrun]. by apply Hw in Hrun. }
    split; [done|]. by apply (hist_executed _ _ Hh).
  - intros w h o. by apply (run_before_destroy threads tr s).
Qed.

(** C2 (as amended): in a pool with at least one worker, when the destructor
    has returned it has set the stop flag, woken and joined every worker, in
    that order, and every task that was accepted has been run, before the
    pool was destroyed: none is dropped.  And the destructor does return:
    from every state of the pool it can be called and brought to its end. *)
Theorem C2_destruction_drains threads :
  0 < threads →
  drains_on_destruction (return_type:=return_type) (exn:=exn) threads ∧
  destruction_completes (return_type:=return_type) (exn:=exn) threads.
Proof.
  intros Hpos. split; [|apply destructor_returns].
  intros tr s Hr Hd. by apply (drained_when_destroyed threads).
Qed.

(** ** A call that comes after the flag is set *)

Lemma elem_of_pushed tr h : h ∈ pushed tr ↔ EvPush h ∈ tr.
Proof.
  unfold pushed. rewrite list_elem_of_omap. split.
  - intros (e & He & Hf). destruct e; by simplify_eq.
  - intros He. by exists (EvPush h).
Qed.

Lemma elem_of_dequeued tr h : h ∈ dequeued tr ↔ ∃ w, EvDequeue w h ∈ tr.
Proof.
  unfold dequeued. rewrite list_elem_of_omap. split.
  - intros (e & He & Hf). destruct e; simplify_eq. eauto.
  - intros [w He]. by exists (EvDequeue w h).
Qed.

Lemma elem_of_executed tr h : h ∈ executed tr ↔ ∃ w o, EvRun w h o ∈ tr.
Proof.
  unfold executed. rewrite list_elem_of_omap. split.
  - intros (e & He & Hf). destruct e; simplify_eq. eauto.
  - intros (w & o & He). by exists (EvRun w h o).
Qed.

Lemma turned_away_step s e s' h :
  step_rel s e s' → stop s = true → turned_away s h → turned_away s' h.
Proof.
  intros Hs Hstop (i & Hi & Hpc). unfold turned_away.
  destruct Hs; simpl; try (by eauto); try congruence.
  all: try (destruct (decide (h0 = h)) as [->|Hne];
            [ simplify_eq;
              rewrite list_lookup_insert_eq by (by eapply lookup_lt_Some);
              simpl; eauto 6
            | rewrite list_lookup_insert_ne by done; eauto ]).
  - eauto using lookup_app_l_Some.
  - destruct Hpc as [?|[?|?]]; congruence.
  - by abandon_goal.
Qed.

Lemma turned_away_run acts :
  ∀ s tr s' h, run acts s = Some (tr, s') → stop s = true →
               turned_away s h → turned_away s' h ∧ stop s' = true.
Proof.
  induction acts as [|a acts IH]; intros s tr s' h Hrun Hstop Hh.
  - simpl in Hrun. by simplify_eq.
  - apply run_cons in Hrun as (e & s1 & tr1 & Hs & Hrun & ->).
    apply step_sound in Hs. eapply IH; [done|..].
    + by eapply step_rel_stop.
    + by eapply turned_away_step.
Qed.

(** A call turned away can be brought to its [throw], in three steps at
    most: the holder of the mutex leaves, the call locks, tests and throws. *)
Lemma turned_away_throws threads tr s h :
  reachable threads tr s → stop s = true → turned_away s h →
  is_destroyed (dtor s) = false →
  ∃ acts tr' s', run acts s = Some (tr', s') ∧ length acts ≤ 3 ∧
                 ∃ i, invocations s' !! h = Some i ∧ pc i = EThrew.
Proof.
  intros Hr Hstop (i & Hi & Hpc) Hd.
  pose proof (reachable_wf _ _ _ Hr) as Hwf.
  assert (∀ s1 i1, stop s1 = true → is_destroyed (dtor s1) = false →
            invocations s1 !! h = Some i1 → pc i1 = ELocked →
            ∃ acts tr' s', run acts s1 = Some (tr', s') ∧ length acts ≤ 1 ∧
                           ∃ i, invocations s' !! h = Some i ∧ pc i = EThrew)
    as Hlocked.
  { intros s1 i1 Hs1 Hd1 Hi1 Hpc1. exists [ACaller h None]. simpl.
    unfold enqueue_step. rewrite Hd1, Hi1, Hpc1, Hs1. simpl.
    eexists _, _. split_and!; [done|lia|]. eexists.
    split; [by apply list_lookup_insert_eq; eapply lookup_lt_Some|done]. }
  assert (∀ s1 i1, stop s1 = true → is_destroyed (dtor s1) = false →
            invocations s1 !! h = Some i1 → pc i1 = EConstructed →
            queue_mutex s1 = None →
            ∃ acts tr' s', run acts s1 = Some (tr', s') ∧ length acts ≤ 2 ∧
                           ∃ i, invocations s' !! h = Some i ∧ pc i = EThrew)
    as Hfree.
  { intros s1 i1 Hs1 Hd1 Hi1 Hpc1 Hm1. exists [ACaller h None; ACaller h None].
    simpl. unfold enqueue_step. rewrite Hd1, Hi1, Hpc1, Hm1. simpl.
    rewrite Hd1, Hs1, list_lookup_insert_eq by (by eapply lookup_lt_Some).
    simpl. eexists _, _. split_and!; [done|lia|]. eexists.
    split;
      [ simpl; apply list_lookup_insert_eq; rewrite length_insert;
        by eapply lookup_lt_Some
      | done ]. }
  destruct Hpc as [Hpc|[Hpc|Hpc]].
  - destruct (queue_mutex s) as [t|] eqn:Hm.
    + destruct (holder_releases _ _ _ Hwf Hm Hd)
        as (a & e & s1 & Hs & Hm1 & Hd1 & Hs1 & _ & Hinv).
      assert (t ≠ Caller h) as Ht.
      { intros ->. apply (wf_mutex _ _ Hwf) in Hm as (i' & ? & ?).
        simplify_eq. congruence. }
      rewrite <- (Hinv _ Ht) in Hi.
      destruct (Hfree s1 i (Hs1 Hstop) Hd1 Hi Hpc Hm1)
        as (acts & tr' & s' & Hrun & Hlen & Hthrew).
      exists (a :: acts), (e :: tr'), s'. simpl. rewrite Hs, Hrun.
      split_and!; [done|lia|done].
    + destruct (Hfree s i Hstop Hd Hi Hpc Hm)
        as (acts & tr' & s' & Hrun & Hlen & Hthrew).
      exists acts, tr', s'. split_and!; [done|lia|done].
  - destruct (Hlocked s i Hstop Hd Hi Hpc)
      as (acts & tr' & s' & Hrun & Hlen & Hthrew).
    exists acts, tr', s'. split_and!; [done|lia|done].
  - exists [], [], s. split_and!; [done|simpl; lia|eauto].
Qed.

(** C3: a call of [enqueue] made after the stop flag has been set fails in
    the caller with the exception of line 105: its task is never pushed,
    dequeued or run, the call never reaches [notify_one] and [return res], so
    no handle exists to read, and the only end the call has is the [throw]
    (which it can always reach while the pool object exists). *)
Theorem C3_enqueue_after_stop threads tr1 h tr2 s :
  reachable threads (tr1 ++ EvCall h :: tr2) s → EvStop ∈ tr1 →
  (EvPush h ∉ tr1 ++ EvCall h :: tr2) ∧
  (h ∉ tasks s) ∧
  (∀ w, EvDequeue w h ∉ tr1 ++ EvCall h :: tr2) ∧
  (∀ w o, EvRun w h o ∉ tr1 ++ EvCall h :: tr2) ∧
  (∀ k, EvNotifyOne h k ∉ tr1 ++ EvCall h :: tr2) ∧
  (∀ r, EvGet h r ∉ tr1 ++ EvCall h :: tr2) ∧
  turned_away s h ∧
  (EvReject h ∈ tr1 ++ EvCall h :: tr2 ↔
   ∃ i, invocations s !! h = Some i ∧ pc i = EThrew) ∧
  (is_destroyed (dtor s) = false →
   ∃ acts tr' s', run acts s = Some (tr', s') ∧ length acts ≤ 3 ∧
                  EvReject h ∈ (tr1 ++ EvCall h :: tr2) ++ tr').
Proof.
  intros Hr Hstop. set (tr := tr1 ++ EvCall h :: tr2) in *.
  pose proof (reachable_wf _ _ _ Hr) as Hwf.
  pose proof (reachable_hist _ _ _ Hr) as Hh.
  pose proof (reachable_evts _ _ _ Hr) as He.
  destruct (reachable_cut _ _ _ _ _ Hr)
    as (s1 & s2 & acts & Hr1 & Hs & Hr2 & Hrun).
  assert (stop s1 = true) as Hstop1.
  { by apply (stop_event threads tr1); eauto using reachable_wf, reachable_evts. }
  assert (turned_away s2 h) as Hta2.
  { inversion Hs; simplify_eq. eexists.
    split; [simpl; by apply list_lookup_middle|by left]. }
  destruct (turned_away_run _ _ _ _ h Hrun) as [Hta Hstops]; [|done|].
  { by eapply step_rel_stop. }
  assert (h ∉ pushed tr) as Hnp.
  { intros (i & Hi & Hpc)%(hist_pushed _ _ Hh).
    destruct Hta as (i' & ? & ?). simplify_eq.
    destruct Hpc as [?|?], H0 as [?|[?|?]]; congruence. }
  assert (∀ i, invocations s !! h = Some i → pc i ≠ EReturned) as Hnr.
  { intros i Hi. destruct Hta as (i' & ? & ?). simplify_eq.
    destruct H0 as [?|[?|?]]; congruence. }
  assert (h ∉ dequeued tr) as Hnd.
  { intros Hd. by apply Hnp, (dequeued_pushed _ s). }
  split_and!.
  - by rewrite <- elem_of_pushed.
  - intros Ht. by apply Hnp, (tasks_pushed _ s).
  - intros w Hw. apply Hnd, elem_of_dequeued. eauto.
  - intros w o Hw. apply Hnd, elem_of_dequeued. exists w.
    by apply (ev_run _ _ _ He w h o).
  - intros k (i & Hi & Hpc)%(ev_notify _ _ _ He). by apply (Hnr i).
  - intros r (i & Hi & Hpc)%(ev_get _ _ _ He). by apply (Hnr i).
  - done.
  - apply (ev_reject _ _ _ He).
  - intros Hd.
    destruct (turned_away_throws _ _ _ _ Hr Hstops Hta Hd)
      as (acts' & tr' & s' & Hrun' & Hlen & Hthrew).
    exists acts', tr', s'. split_and!; [done..|].
    apply (ev_reject threads _ s'); [|done].
    apply reachable_evts. by eapply reachable_run.
Qed.

(** ** First in, first out *)

Lemma omap_split {X Y} (g : X → option Y) (l : list X) l1 y l2 :
  omap g l = l1 ++ y :: l2 →
  ∃ t1 x t2, l = t1 ++ x :: t2 ∧ g x = Some y ∧ omap g t1 = l1 ∧ omap g t2 = l2.
Proof.
  revert l1. induction l as [|x0 l IH]; intros l1 Hl; simpl in Hl.
  - by destruct l1.
  - destruct (g x0) as [y0|] eqn:Hg.
    + destruct l1 as [|z l1]; simplify_eq/=.
      * exists [], x0, l. by rewrite Hg.
      * destruct (IH _ H0) as (t1 & x & t2 & -> & Hx & <- & <-).
        exists (x0 :: t1), x, t2. simpl. by rewrite Hg.
    + destruct (IH _ Hl) as (t1 & x & t2 & -> & Hx & <- & <-).
      exists (x0 :: t1), x, t2. simpl. by rewrite Hg.
Qed.

Lemma NoDup_split_inj {X} (x : X) p r p' r' :
  NoDup (p ++ x :: r) → p ++ x :: r = p' ++ x :: r' → p = p' ∧ r = r'.
Proof.
  revert p'. induction p as [|y p IH]; intros [|y' p'] Hn Heq; simplify_eq/=.
  - done.
  - apply NoDup_cons in Hn as [Hn _]. destruct Hn.
    apply elem_of_app. right. by left.
  - apply NoDup_cons in Hn as [Hn _]. destruct Hn.
    apply elem_of_app. right. by left.
  - apply NoDup_cons in Hn as [_ Hn]. destruct (IH _ Hn H0) as [-> ->]. done.
Qed.

(** In a list without duplicates, a prefix that reaches an element contains
    all that comes before it. *)
Lemma prefix_reaches {X} (x : X) l r p r' :
  NoDup (p ++ x :: r') → l ++ r = p ++ x :: r' → x ∈ l → ∃ d, l = p ++ x :: d.
Proof.
  intros Hn Heq (l1 & l2 & ->)%list_elem_of_split.
  rewrite <- app_assoc in Heq. simpl in Heq. symmetry in Heq.
  destruct (NoDup_split_inj _ _ _ _ _ Hn Heq) as [-> _]. eauto.
Qed.

(** A call that begins after another has returned gets a task pushed after
    the other's, if it gets one pushed at all. *)
Lemma submission_order threads tr s A B k :
  reachable threads tr s → before (EvNotifyOne A k) (EvCall B) tr →
  ∃ p1 p2, (pushed tr = p1 ++ p2 ∧ A ∈ p1 ∧ B ∉ p1) ∧
           (EvPush B ∈ tr → before (EvPush A) (EvPush B) tr).
Proof.
  intros Hr (l1 & l2 & l3 & ->).
  rewrite app_comm_cons, app_assoc in Hr |- *.
  set (P := l1 ++ EvNotifyOne A k :: l2) in *.
  destruct (reachable_cut _ _ _ _ _ Hr) as (s1 & s2 & acts & Hr1 & Hs & _ & _).
  pose proof (reachable_hist _ _ _ Hr1) as Hh1.
  pose proof (reachable_evts _ _ _ Hr1) as He1.
  assert (A ∈ pushed P) as HA.
  { apply (hist_pushed _ _ Hh1). 
    destruct (ev_notify _ _ _ He1 A k) as (i & Hi & Hpc); [|by eauto].
    apply elem_of_app. right. by left. }
  assert (B ∉ pushed P) as HB.
  { intros (i & Hi%lookup_lt_Some & _)%(hist_pushed _ _ Hh1).
    inversion Hs; simplify_eq. lia. }
  exists (pushed P), (pushed (EvCall B :: l3)). split.
  - split_and!; [|done..]. unfold pushed. by rewrite omap_app.
  - intros [Hin|Hin]%elem_of_app.
    + by apply elem_of_pushed in Hin.
    + apply elem_of_pushed, list_elem_of_split in HA as (m1 & m2 & HP).
      apply list_elem_of_split in Hin as (m3 & m4 & Hrest).
      exists m1, (m2 ++ m3), m4. rewrite HP, Hrest, <- app_assoc. simpl.
      by rewrite <- app_assoc.
Qed.

Lemma dequeue_event e h :
  match e with EvDequeue _ h' => Some h' | _ => None end = Some h →
  ∃ w, e = EvDequeue w h.
Proof. destruct e; intros ?; simplify_eq. eauto. Qed.

Lemma dequeue_order threads tr s A B k wb :
  reachable threads tr s → before (EvNotifyOne A k) (EvCall B) tr →
  EvDequeue wb B ∈ tr → ∃ wa, before (EvDequeue wa A) (EvDequeue wb B) tr.
Proof.
  intros Hr Hbefore HB.
  pose proof (reachable_hist _ _ _ Hr) as Hh.
  destruct (submission_order _ _ _ _ _ _ Hr Hbefore)
    as (p1 & p2 & (Hp & HA & HnB) & _).
  assert (B ∈ dequeued tr) as HBd by (apply elem_of_dequeued; eauto).
  assert (B ∈ p2) as HB2.
  { pose proof (dequeued_pushed _ _ _ Hh HBd) as HBp.
    rewrite Hp in HBp. by apply elem_of_app in HBp as [?|?]. }
  apply list_elem_of_split in HB2 as (x & y & ->).
  apply list_elem_of_split in HA as (a1 & a2 & ->).
  pose proof (hist_nodup _ _ Hh) as Hn.
  pose proof (hist_fifo _ _ Hh) as Hf.
  rewrite Hp in Hn, Hf. rewrite app_assoc in Hn, Hf.
  symmetry in Hf.
  destruct (prefix_reaches _ _ _ _ _ Hn Hf HBd) as (d & Hd).
  destruct (omap_split _ _ _ _ _ Hd) as (t1 & eB & t2 & -> & HeB & Ht1 & _).
  rewrite <- app_assoc in Ht1. simpl in Ht1.
  destruct (omap_split _ _ _ _ _ Ht1) as (u1 & eA & u2 & -> & HeA & _ & _).
  apply dequeue_event in HeA as [wa ->]. apply dequeue_event in HeB as [w' ->].
  assert (w' = wb) as ->.
  { assert (NoDup (dequeued ((u1 ++ EvDequeue wa A :: u2) ++ EvDequeue w' B :: t2)))
      as Hnd.
    { pose proof (hist_nodup _ _ Hh) as Hn'. rewrite (hist_fifo _ _ Hh) in Hn'.
      by apply NoDup_app in Hn' as (? & _ & _). }
    assert (EvDequeue w' B = EvDequeue wb B :> event return_type exn) as Heq.
    { eapply (omap_NoDup_inj _ _ _ _ B Hnd); [|done..].
      apply elem_of_app. right. by left. }
    by simplify_eq. }
  exists wa, u1, u2, t2. by rewrite <- app_assoc.
Qed.

(** A push puts the task at the back, a dequeue takes the front. *)
Lemma queue_ends s e s' :
  step_rel s e s' →
  (∀ h, e = EvPush h → tasks s' = tasks s ++ [h]) ∧
  (∀ w h, e = EvDequeue w h → tasks s = h :: tasks s').
Proof. destruct 1; split; intros; by simplify_eq. Qed.

(** C4: the task queue is first in, first out.  A push appends to the back
    and a worker takes the front, so that the tasks dequeued so far, followed
    by the queue, are the accepted tasks in the order of their pushes; and
    when the submission of A has returned before the submission of B begins,
    A is pushed before B and dequeued before B is (nothing is said of the
    order in which they are run to completion). *)
Theorem C4_fifo threads tr s :
  reachable threads tr s →
  pushed tr = dequeued tr ++ tasks s ++ abandoned tr ∧
  (∀ a e s', step a s = Some (e, s') →
             (∀ h, e = EvPush h → tasks s' = tasks s ++ [h]) ∧
             (∀ w h, e = EvDequeue w h → tasks s = h :: tasks s')) ∧
  (∀ A B k, before (EvNotifyOne A k) (EvCall B) tr →
            (EvPush B ∈ tr → before (EvPush A) (EvPush B) tr) ∧
            (∀ wb, EvDequeue wb B ∈ tr →
                   ∃ wa, before (EvDequeue wa A) (EvDequeue wb B) tr)).
Proof.
  intros Hr. split_and!.
  - apply (hist_fifo _ _ (reachable_hist _ _ _ Hr)).
  - intros a e s' Hs. by apply queue_ends, step_sound with a.
  - intros A B k Hb. split.
    + by destruct (submission_order _ _ _ _ _ _ Hr Hb) as (? & ? & _ & ?).
    + intros wb. by apply (dequeue_order threads tr s A B k).
Qed.

(** ** When a worker ends *)



Lemma worker_claim_wait (st : bool) q :
  (worker_claim st q).1 = WWaiting ↔ st = false ∧ q = [].
Proof.
  unfold worker_claim, wake_pred. destruct st, q as [|h q]; simpl; split;
    try done; by intros [? ?].
Qed.




(** ** What the cells hold *)

Lemma results_init threads :
  results [] (ThreadPool (return_type:=return_type) (exn:=exn) threads).
Proof. split; intros; by match goal with H : _ ∈ [] |- _ => apply elem_of_nil in H end. Qed.

Lemma future_get_settled (c : shared_state return_type exn) r :
  future_get true c = Some r → c ≠ Pending.
Proof. by destruct c. Qed.

Ltac insert_cases h h0 :=
  destruct (decide (h = h0)) as [->|?];
  [ simplify_eq;
    rewrite list_lookup_insert_eq by (by eapply lookup_lt_Some); simpl
  | rewrite list_lookup_insert_ne by done ].

Lemma results_step tr s e s' :
  hist tr s → results tr s → step_rel s e s' → results (tr ++ [e]) s'.
Proof.
  intros Hh [Hrun Hget] Hs. split.
  - intros w0 h0 o. rewrite elem_of_app, list_elem_of_singleton.
    intros [Hin|Heq].
    + destruct (Hrun _ _ _ Hin) as (i0 & Hi0 & Hc0 & Ho).
      destruct Hs; simpl; try (by eauto using lookup_app_l_Some).
      all: try (insert_cases h h0; by eauto).
      * insert_cases h h0; [|by eauto].
        rewrite (hist_pending _ _ Hh _ _ Einv) in Hc0; [done|]. auto.
      * destruct (abandon_all_lookup_keep (tasks s) _ _ _ Hi0)
          as (i' & Hi' & _ & _ & _ & Hsame).
        rewrite Hsame in Hi' by congruence. eauto.
    + destruct Hs; simplify_eq/=.
      rewrite list_lookup_insert_eq by (by eapply lookup_lt_Some). eauto.
  - intros h0 r0. rewrite elem_of_app, list_elem_of_singleton.
    intros [Hin|Heq].
    + destruct (Hget _ _ Hin) as [->|(i0 & Hi0 & Hg0)]; [by left|right].
      pose proof (future_get_settled _ _ Hg0) as Hset.
      destruct Hs; simpl; try (by eauto using lookup_app_l_Some).
      all: try (insert_cases h h0; by eauto).
      * insert_cases h h0; [|by eauto].
        destruct Hset. eapply (hist_pending _ _ Hh); [done|]. auto.
      * destruct (abandon_all_lookup_keep (tasks s) _ _ _ Hi0)
          as (i' & Hi' & _ & _ & _ & Hsame).
        rewrite Hsame in Hi' by congruence. eauto.
    + destruct Hs; simplify_eq/=.
      rewrite list_lookup_insert_eq by (by eapply lookup_lt_Some). simpl.
      destruct (future_valid i); simplify_eq/=; eauto.
Qed.

Lemma reachable_results threads tr s : reachable threads tr s → results tr s.
Proof.
  revert tr s. apply reachable_ind.
  - apply results_init.
  - intros tr s a e s' Hr IH Hs.
    eapply results_step; eauto using reachable_hist, step_sound.
Qed.

(** ** A task that throws *)

Lemma running_pending tr s w h i :
  hist tr s → workers s !! w = Some (WRunning h) →
  invocations s !! h = Some i → cell i = Pending.
Proof.
  intros Hh Hw Hi. eapply (hist_pending _ _ Hh); [done|].
  right; left. apply elem_of_running. eauto.
Qed.

Lemma run_step s w h i :
  workers s !! w = Some (WRunning h) → invocations s !! h = Some i →
  cell i = Pending →
  step (AWorker w) s
  = Some (EvRun w h (callable i ()),
          set_worker w WIdle
            (set_invocation h (set_cell (Ready (callable i ())) i) s)).
Proof.
  intros Hw Hi Hc. simpl. unfold worker_step, invoke. by rewrite Hw, Hi, Hc.
Qed.

Lemma get_step_ready s h i :
  invocations s !! h = Some i → pc i = EReturned → future_valid i = true →
  ∀ r, future_get true (cell i) = Some r →
       step (AGet h) s
       = Some (EvGet h r, set_invocation h (set_future_valid false i) s).
Proof.
  intros Hi Hpc Hv r Hr. simpl. unfold get_step. by rewrite Hi, Hpc, Hv, Hr.
Qed.

(** C6: when the callable of a task throws, the failure is stored in the
    shared state of that task and nowhere else.  The worker that ran it goes
    back to the top of its loop, exactly as after a task that returns; no
    worker is ever ended by an exception; the queue, the flag and the other
    tasks are untouched.  The failure is re-raised by [get] on the handle of
    that task, and what [get] re-raises is what that callable threw.  The
    tasks queued behind still run: in a pool with workers every accepted
    task has been run when the destructor returns, whatever the others
    did. *)
Theorem C6_failure_is_captured threads tr s :
  reachable threads tr s →
  (∀ w, (EvCrash w ∉ tr) ∧ workers s !! w ≠ Some WCrashed) ∧
  (∀ w h i, workers s !! w = Some (WRunning h) →
            invocations s !! h = Some i →
            cell i = Pending ∧
            step (AWorker w) s
            = Some (EvRun w h (callable i ()),
                    set_worker w WIdle
                      (set_invocation h
                         (set_cell (Ready (callable i ())) i) s))) ∧
  (∀ w h x, EvRun w h (Raised x) ∈ tr →
            ∃ i, invocations s !! h = Some i ∧ cell i = Ready (Raised x) ∧
                 callable i () = Raised x) ∧
  (∀ h i x, invocations s !! h = Some i → pc i = EReturned →
            future_valid i = true → cell i = Ready (Raised x) →
            step (AGet h) s
            = Some (EvGet h (GetRethrow x),
                    set_invocation h (set_future_valid false i) s)) ∧
  (∀ h x, EvGet h (GetRethrow x) ∈ tr →
          ∃ w i, EvRun w h (Raised x) ∈ tr ∧ invocations s !! h = Some i ∧
                 callable i () = Raised x) ∧
  (0 < threads → dtor s = DDestroyed →
   ∀ h, h ∈ pushed tr → h ∈ executed tr).
Proof.
  intros Hr.
  pose proof (reachable_hist _ _ _ Hr) as Hh.
  pose proof (reachable_evts _ _ _ Hr) as He.
  pose proof (reachable_results _ _ _ Hr) as Hres.
  split_and!.
  - apply (ev_crash _ _ _ He).
  - intros w h i Hw Hi.
    pose proof (running_pending _ _ _ _ _ Hh Hw Hi) as Hc.
    split; [done|]. by apply run_step.
  - intros w h x Hin.
    destruct (res_run _ _ Hres _ _ _ Hin) as (i & Hi & Hc & Ho). eauto.
  - intros h i x Hi Hpc Hv Hc. apply get_step_ready; try done. by rewrite Hc.
  - intros h x Hin.
    destruct (res_get _ _ Hres _ _ Hin) as [?|(i & Hi & Hg)]; [done|].
    destruct (cell i) as [|[v|x']|] eqn:Hc; simplify_eq/=.
    destruct (hist_ready _ _ Hh _ _ _ Hi Hc) as [Ho Hex].
    apply elem_of_executed in Hex as (w & o & Hrun).
    destruct (res_run _ _ Hres _ _ _ Hrun) as (i' & Hi' & Hc' & Ho').
    rewrite Hi in Hi'. injection Hi' as <-. rewrite Hc in Hc'.
    injection Hc' as <-. exists w, i. by rewrite <- Ho.
  - intros Hpos Hd h Hp.
    by destruct (drained_when_destroyed _ _ _ Hpos Hr Hd)
      as (_ & _ & _ & Hall & _); destruct (Hall h Hp).
Qed.

(** ** Reading a handle *)

Lemma step_rel_callable s e s' h i :
  step_rel s e s' → invocations s !! h = Some i →
  ∃ i', invocations s' !! h = Some i' ∧ callable i' = callable i.
Proof.
  intros Hs Hi. destruct Hs; simpl; try (by eauto using lookup_app_l_Some).
  all: try (insert_cases h0 h; by eauto).
  destruct (abandon_all_lookup_keep (tasks s) _ _ _ Hi)
    as (i' & Hi' & _ & Hc & _). eauto.
Qed.

Lemma run_callable acts :
  ∀ s tr s' h i, run acts s = Some (tr, s') → invocations s !! h = Some i →
                 ∃ i', invocations s' !! h = Some i' ∧ callable i' = callable i.
Proof.
  induction acts as [|a acts IH]; intros s tr s' h i Hrun Hi.
  - simpl in Hrun. simplify_eq. eauto.
  - apply run_cons in Hrun as (e & s1 & tr1 & Hs & Hrun & ->).
    destruct (step_rel_callable _ _ _ _ _ (step_sound _ _ _ _ Hs) Hi)
      as (i1 & Hi1 & Hc1).
    destruct (IH _ _ _ _ _ Hrun Hi1) as (i' & Hi' & Hc'). exists i'.
    split; [done|congruence].
Qed.

Lemma step_calls a s e s' :
  step a s = Some (e, s') →
  length (invocations s') = length (invocations s) + (if is_call a then 1 else 0).
Proof.
  intros Hs. pose proof (step_sound _ _ _ _ Hs) as Hrel.
  destruct a; simpl in *.
  - unfold enqueue_construct in Hs. case_match; simplify_eq/=.
    by rewrite length_app.
  - destruct Hrel; simpl; rewrite ?length_insert, ?abandon_all_length; try lia.
    unfold enqueue_step in Hs. by repeat case_match.
  - destruct Hrel; simpl; rewrite ?length_insert, ?abandon_all_length; try lia.
    unfold worker_step in Hs. repeat case_match; simplify_eq.
    unfold claim_event in *. by repeat case_match.
  - destruct Hrel; simpl; rewrite ?length_insert, ?abandon_all_length; try lia.
    unfold wake_step in Hs. by repeat case_match.
  - destruct Hrel; simpl; rewrite ?length_insert, ?abandon_all_length; try lia.
    unfold dtor_step in Hs. by repeat case_match.
  - destruct Hrel; simpl; rewrite ?length_insert, ?abandon_all_length; try lia.
    unfold get_step in Hs. by repeat case_match.
Qed.

Lemma run_calls acts :
  ∀ s tr s', run acts s = Some (tr, s') →
             length (invocations s') = length (invocations s) + calls_in acts.
Proof.
  unfold calls_in.
  induction acts as [|a acts IH]; intros s tr s' Hrun.
  - simpl in Hrun. simplify_eq. simpl. lia.
  - apply run_cons in Hrun as (e & s1 & tr1 & Hs & Hrun & ->).
    rewrite (IH _ _ _ Hrun), (step_calls _ _ _ _ Hs). simpl.
    destruct (is_call a); simpl; lia.
Qed.

Lemma future_get_ready (o : outcome return_type exn) :
  future_get true (Ready o) = Some (get_of o).
Proof. by destruct o. Qed.

(** A read leaves the future without shared state, and a read of such a
    future yields no value. *)
Lemma get_invalidates s h e s' :
  step (AGet h) s = Some (e, s') →
  (∃ i', invocations s' !! h = Some i' ∧ future_valid i' = false) ∧
  step (AGet h) s' = Some (EvGet h GetNoState, s').
Proof.
  simpl. unfold get_step. intros Hs.
  destruct (invocations s !! h) as [i|] eqn:Hi; [|done].
  destruct (pc i) eqn:Hpc; try done.
  destruct (future_get (future_valid i) (cell i)) as [r|]; [|done].
  simplify_eq/=.
  rewrite list_lookup_insert_eq by (by eapply lookup_lt_Some). simpl.
  rewrite Hpc. split; [by eauto|]. do 2 f_equal.
  unfold set_invocation, with_invocations. simpl.
  by rewrite list_insert_insert_eq.
Qed.

(** C7 (as amended): let a callable [fn] with arguments [args] be submitted
    by the call that gets handle [h], and let that call have returned.  The
    task wraps [fn] bound to [args].  While it is unresolved, [get] on the
    handle blocks.  Once a worker has run it, the outcome the worker computed
    is [fn args], and the first [get] returns that value, or re-raises that
    failure.  Whatever the first [get] yields is that, or a broken promise in
    a pool without workers that was destroyed with the task queued.  A [get]
    leaves the future without shared state: a further [get] on it yields no
    value. *)
Theorem C7_get_returns_the_result threads {A : Type}
    (fn : A → outcome return_type exn) (args : A) acts1 acts2 tr s i :
  run (acts1 ++ AEnqueue (bind fn args) :: acts2) (ThreadPool threads)
  = Some (tr, s) →
  invocations s !! calls_in acts1 = Some i → pc i = EReturned →
  callable i = bind fn args ∧
  (future_valid i = true →
   (cell i = Pending → step (AGet (calls_in acts1)) s = None) ∧
   (∀ w o, EvRun w (calls_in acts1) o ∈ tr →
           o = fn args ∧
           step (AGet (calls_in acts1)) s
           = Some (EvGet (calls_in acts1) (get_of (fn args)),
                   set_invocation (calls_in acts1)
                     (set_future_valid false i) s)) ∧
   (∀ e s', step (AGet (calls_in acts1)) s = Some (e, s') →
            e = EvGet (calls_in acts1) (get_of (fn args)) ∨
            (e = EvGet (calls_in acts1) GetBroken ∧ threads = 0 ∧
             dtor s = DDestroyed))) ∧
  (∀ e s', step (AGet (calls_in acts1)) s = Some (e, s') →
           (∃ i', invocations s' !! calls_in acts1 = Some i' ∧
                  future_valid i' = false) ∧
           step (AGet (calls_in acts1)) s'
           = Some (EvGet (calls_in acts1) GetNoState, s')).
Proof.
  intros Hrun Hi Hpc.
  assert (reachable threads tr s) as Hr by by eexists.
  pose proof (reachable_hist _ _ _ Hr) as Hh.
  pose proof (reachable_results _ _ _ Hr) as Hres.
  assert (callable i = bind fn args) as Hcall.
  { rewrite run_app in Hrun.
    destruct (run acts1 (ThreadPool threads)) as [[tr1 s1]|] eqn:Hrun1; [|done].
    destruct (run (AEnqueue (bind fn args) :: acts2) s1) as [[tr2 s2]|] eqn:Hrun2;
      [|done].
    simplify_eq.
    apply run_cons in Hrun2 as (e & s3 & tr3 & Hs & Hrun3 & ->).
    pose proof (run_calls _ _ _ _ Hrun1) as Hlen. simpl in Hlen.
    simpl in Hs. unfold enqueue_construct in Hs.
    destruct (is_destroyed (dtor s1)); simplify_eq.
    destruct (run_callable _ _ _ _ (calls_in acts1) _ Hrun3
                (list_lookup_middle _ _ _ _ (eq_sym Hlen)))
      as (i' & Hi' & Hc').
    rewrite Hi in Hi'. by injection Hi' as <-. }
  split_and!.
  - done.
  - intros Hv. split_and!.
    + intros Hc. simpl. unfold get_step. by rewrite Hi, Hpc, Hv, Hc.
    + intros w o Hin.
      destruct (res_run _ _ Hres _ _ _ Hin) as (i' & Hi' & Hc & Ho).
      assert (i' = i) as -> by congruence.
      rewrite Hcall in Ho. split; [done|].
      apply get_step_ready; try done.
      rewrite Hc, future_get_ready. by rewrite Ho.
    + intros e s'. simpl. unfold get_step. rewrite Hi, Hpc, Hv.
      destruct (cell i) as [|o|] eqn:Hc; simpl; [done| |].
      * destruct (hist_ready _ _ Hh _ _ _ Hi Hc) as [Ho _].
        rewrite Hcall in Ho. unfold bind in Ho. subst o.
        destruct (fn args); simpl; intros ?; simplify_eq; by left.
      * intros ?; simplify_eq. right. split; [done|].
        destruct (hist_broken _ _ Hh _ _ Hi Hc) as [?|Hab]; [congruence|].
        split.
        -- destruct threads as [|n]; [done|].
           rewrite (abandoned_nil _ _ _ Hr) in Hab by lia.
           by apply elem_of_nil in Hab.
        -- destruct (is_destroyed (dtor s)) eqn:Hd; [by destruct (dtor s)|].
           rewrite (hist_alive _ _ Hh Hd) in Hab. by apply elem_of_nil in Hab.
  - intros e s'. apply get_invalidates.
Qed.

(** ** The lock and the condition variable *)



Lemma notify_one_spec pick ws ws' :
  notify_one pick ws = Some ws' →
  (∃ w, pick = Some w ∧ ws !! w = Some WWaiting ∧ ws' = <[w := WWoken]> ws) ∨
  (pick = None ∧ (∀ w, ws !! w ≠ Some WWaiting) ∧ ws' = ws).
Proof.
  unfold notify_one. destruct pick as [w|].
  - destruct (ws !! w) as [[]|] eqn:Hw; intros ?; simplify_eq. left. eauto.
  - destruct (existsb is_waiting ws) eqn:Hex; intros [= <-].
    right. split_and!; try done. intros w Hw.
    assert (existsb is_waiting ws = true); [|congruence].
    apply existsb_exists. exists WWaiting. split; [|done].
    apply list_elem_of_In, list_elem_of_lookup. eauto.
Qed.

Lemma notify_one_enabled ws : ∃ pick ws', notify_one pick ws = Some ws'.
Proof.
  destruct (existsb is_waiting ws) eqn:Hex.
  - apply existsb_exists in Hex as (p & Hin & Hp).
    apply list_elem_of_In, list_elem_of_lookup in Hin as [w Hw].
    destruct p; try done. exists (Some w). simpl. rewrite Hw. eauto.
  - exists None. simpl. rewrite Hex. eauto.
Qed.







Lemma signal_weight_pc i p :
  pc i = p → signal_weight i = match p with EPushed => 1 | _ => 0 end.
Proof. intros <-. done. Qed.

(** A task is queued while a worker sleeps only if, for each queued task,
    some worker is awake and on its way to the predicate or some
    [notify_one] is still to come. *)
Lemma no_lost_wakeup_step s e s' :
  no_lost_wakeup s → step_rel s e s' → no_lost_wakeup s'.
Proof.
  unfold no_lost_wakeup, looking. intros IH Hs.
  destruct Hs; simpl; intros [w0 Hw0].
  all: try (rewrite ?Etasks; simpl; lia).
  all: try match goal with
       | Hw : workers _ !! ?w = Some ?p
         |- context [<[?w := ?p']> (workers _)] =>
           pose proof (sum_list_insert looking_weight _ _ _ p' Hw) as Hsum;
           simpl in Hsum
       end.
  all: try match goal with
       | Hi : invocations _ !! ?h = Some ?i
         |- context [<[?h := ?i']> (invocations _)] =>
           pose proof (sum_list_insert signal_weight _ _ _ i' Hi) as Hsumi
       end.
  - rewrite fmap_app, sum_list_with_app. simpl.
    change (signal_weight (Invocation b Pending EConstructed true)) with 0.
    specialize (IH (ex_intro _ w0 Hw0)). lia.
  - rewrite (signal_weight_pc i _ Epc) in Hsumi.
    rewrite (signal_weight_pc (set_pc ELocked i) _ eq_refl) in Hsumi; simpl in Hsumi.
    specialize (IH (ex_intro _ w0 Hw0)). lia.
  - rewrite (signal_weight_pc i _ Epc) in Hsumi.
    rewrite (signal_weight_pc
               (Invocation (callable i) BrokenPromise EThrew false) _ eq_refl)
      in Hsumi; simpl in Hsumi.
    specialize (IH (ex_intro _ w0 Hw0)). lia.
  - rewrite (signal_weight_pc i _ Epc) in Hsumi.
    rewrite (signal_weight_pc (set_pc EPushed i) _ eq_refl) in Hsumi; simpl in Hsumi.
    specialize (IH (ex_intro _ w0 Hw0)). rewrite length_app. simpl. lia.
  - rewrite (signal_weight_pc i _ Epc) in Hsumi.
    rewrite (signal_weight_pc (set_pc EReturned i) _ eq_refl) in Hsumi; simpl in Hsumi.
    destruct (notify_one_spec _ _ _ Ews)
      as [(w & -> & Hw & ->)|(-> & Hnone & ->)]; [|by destruct (Hnone w0)].
    pose proof (sum_list_insert looking_weight _ _ _ WWoken Hw) as Hsum.
    simpl in Hsum. specialize (IH (ex_intro _ w Hw)). lia.
  - apply list_lookup_insert_Some in Hw0 as [(? & ? & ?)|[? Hw0]];
      [congruence|].
    specialize (IH (ex_intro _ w0 Hw0)).
    destruct Ep as [-> | ->]; simpl in Hsum; lia.
  - apply list_lookup_insert_Some in Hw0 as [(? & ? & ?)|[? Hw0]];
      [congruence|].
    specialize (IH (ex_intro _ w0 Hw0)). rewrite Etasks in IH. simpl in IH. lia.
  - apply list_lookup_insert_Some in Hw0 as [(? & ? & ?)|[? Hw0]];
      [congruence|].
    specialize (IH (ex_intro _ w0 Hw0)).
    change (signal_weight (set_cell (Ready (callable i ())) i))
      with (signal_weight i) in Hsumi.
    lia.
  - apply list_lookup_insert_Some in Hw0 as [(? & ? & ?)|[? Hw0]];
      [congruence|].
    specialize (IH (ex_intro _ w0 Hw0)). lia.
  - apply list_lookup_insert_Some in Hw0 as [(? & ? & ?)|[? Hw0]];
      [congruence|].
    specialize (IH (ex_intro _ w0 Hw0)). lia.
  - by apply IH; eauto.
  - by apply IH; eauto.
  - apply notify_all_lookup_Some in Hw0 as [[? ?]|[? ?]]; done.
  - by apply IH; eauto.
  - change (signal_weight (set_future_valid false i))
      with (signal_weight i) in Hsumi.
    specialize (IH (ex_intro _ w0 Hw0)). lia.
Qed.

Lemma reachable_no_lost_wakeup threads tr s :
  reachable threads tr s → no_lost_wakeup s.
Proof.
  revert tr s. apply reachable_ind.
  - intros _. simpl. lia.
  - intros tr s a e s' _ IH Hs. eapply no_lost_wakeup_step; [done|].
    by eapply step_sound.
Qed.


(** ** A pool without workers *)

Lemma zero_workers tr s : reachable 0 tr s → workers s = [].
Proof.
  intros Hr%reachable_wf. apply nil_length_inv. apply (wf_workers _ _ Hr).
Qed.

Lemma zero_workers_idle tr s :
  reachable 0 tr s → dequeued tr = [] ∧ executed tr = [].
Proof.
  revert tr s.
  apply (reachable_ind 0 (λ tr _, dequeued tr = [] ∧ executed tr = [])).
  { done. }
  intros tr s a e s' Hr [IHd IHe] Hs%step_sound.
  pose proof (zero_workers _ _ Hr) as Hw. cbv beta in *.
  rewrite dequeued_snoc, executed_snoc, IHd, IHe.
  destruct Hs; try done; by rewrite Hw in Ew.
Qed.

Lemma blocked_queued tr s h :
  reachable 0 tr s → is_destroyed (dtor s) = false → blocked_on_get s h →
  h ∈ tasks s.
Proof.
  intros Hr Hd (i & Hi & Hpc & _ & _).
  pose proof (reachable_hist _ _ _ Hr) as Hh.
  assert (h ∈ pushed tr) as Hin by (apply (hist_pushed _ _ Hh); eauto).
  destruct (zero_workers_idle _ _ Hr) as [Hq _].
  rewrite (hist_fifo _ _ Hh), (hist_alive _ _ Hh Hd), Hq in Hin.
  by rewrite app_nil_r in Hin.
Qed.

Lemma destroyed_not_blocked tr s :
  reachable 0 tr s → is_destroyed (dtor s) = true → ∀ h, ¬ blocked_on_get s h.
Proof.
  revert tr s.
  apply (reachable_ind 0
           (λ _ s, is_destroyed (dtor s) = true → ∀ h, ¬ blocked_on_get s h)).
  { done. }
  intros tr s a e s' Hr IH Hs%step_sound Hd' h (i' & Hi' & Hpc & Hv & Hc).
  pose proof (zero_workers _ _ Hr) as Hw.
  destruct (is_destroyed (dtor s)) eqn:Hd.
  - apply (IH eq_refl h).
    destruct Hs; simpl in *; try (by rewrite Hw in Ew); try congruence.
    all: try (by rewrite Edtor in Hd).
    revert Hi'. insert_cases h0 h; [|by exists i'].
    intros ?. by simplify_eq.
  - destruct Hs; simpl in *; try congruence; try done.
    apply abandon_all_lookup_Some in Hi'
      as (i & Hi & Hpc' & _ & Hv' & [[Hin ->]|[Hin ->]]).
    + revert Hc. unfold abandon. destruct (cell i) eqn:E; simpl; congruence.
    + apply Hin. eapply blocked_queued; [done..|].
      by exists i.
Qed.

Lemma get_outlook_step tr s e s' h :
  reachable 0 tr s → step_rel s e s' → get_outlook s h → get_outlook s' h.
Proof.
  intros Hr Hs. pose proof (zero_workers _ _ Hr) as Hw.
  unfold get_outlook. destruct (is_destroyed (dtor s)) eqn:Hd.
  - intros (i & Hi & Hpc & Hc).
    destruct Hs; simpl; try (by rewrite Hw in Ew); try congruence.
    all: try (by rewrite Edtor in Hd).
    rewrite Hd. unfold promise_broken. simpl.
    insert_cases h0 h; eauto.
  - intros Hb. pose proof (blocked_queued _ _ _ Hr Hd Hb) as Hq.
    destruct Hb as (i & Hi & Hpc & Hv & Hc).
    destruct Hs; simpl; try (by rewrite Hw in Ew).
    all: rewrite ?Hd, ?Edtor; simpl.
    all: unfold blocked_on_get, promise_broken; simpl.
    all: try (by eauto 6 using lookup_app_l_Some).
    all: try (insert_cases h0 h; [congruence|by eauto 6]).
    + exists (abandon i). rewrite abandon_all_lookup, Hi. simpl.
      rewrite decide_True by done. unfold abandon. by rewrite Hc.
    + insert_cases h0 h; [|by eauto 6].
      rewrite Hv, Hc in Eget. discriminate Eget.
Qed.

Lemma get_outlook_run acts : ∀ tr s tr' s' h,
  reachable 0 tr s → run acts s = Some (tr', s') →
  get_outlook s h → get_outlook s' h.
Proof.
  induction acts as [|a acts IH]; intros tr s tr' s' h Hr Hrun Ho.
  - simpl in Hrun. by simplify_eq.
  - apply run_cons in Hrun as (e & s1 & tr1 & Hs & Hrun & _).
    eapply IH; [by eapply reachable_step|done|].
    eapply get_outlook_step; [done|by apply step_sound in Hs|done].
Qed.

(** C9 (amended). A pool made with no workers has none, in every state it
    reaches, and nothing is ever taken from its queue or run. Its [enqueue]
    still accepts a task: the four steps of a call put the handle at the back
    of the queue and return, and the caller's handle is then one [get] waits
    on. Its destructor takes its own four steps and is over, the queue
    destroyed as it stood, no task run. A caller waiting in [get] cannot
    return, and stays so along every run for as long as the pool object
    exists; once the pool is destroyed the promise of the handle is broken,
    which is what [get] then reports: the wait ends, without a value. *)
Theorem C9_zero_worker_pool tr s :
  reachable 0 tr s →
  workers (ThreadPool (return_type:=return_type) (exn:=exn) 0) = [] ∧
  workers s = [] ∧ dequeued tr = [] ∧ executed tr = [] ∧
  (∀ b, dtor s = DAlive → queue_mutex s = None →
     ∃ s', run [AEnqueue b; ACaller (length (invocations s)) None;
                ACaller (length (invocations s)) None;
                ACaller (length (invocations s)) None] s
           = Some ([EvCall (length (invocations s));
                    EvLock (Caller (length (invocations s)));
                    EvPush (length (invocations s));
                    EvNotifyOne (length (invocations s)) None], s') ∧
           tasks s' = tasks s ++ [length (invocations s)] ∧
           blocked_on_get s' (length (invocations s))) ∧
  (dtor s = DAlive → queue_mutex s = None →
     ∃ s', run [ADtor; ADtor; ADtor; ADtor] s
           = Some ([EvLock Destructor; EvStop; EvNotifyAll;
                    EvDestroy (tasks s)], s') ∧
           dtor s' = DDestroyed ∧
           ∀ h, blocked_on_get s h → promise_broken s' h) ∧
  (∀ h, blocked_on_get s h →
     step (AGet h) s = None ∧
     ∀ acts tr' s', run acts s = Some (tr', s') →
       (is_destroyed (dtor s') = false → blocked_on_get s' h) ∧
       (is_destroyed (dtor s') = true → promise_broken s' h ∧
          ∀ i, invocations s' !! h = Some i → future_valid i = true →
               step (AGet h) s'
               = Some (EvGet h GetBroken,
                       set_invocation h (set_future_valid false i) s'))).
Proof.
  intros Hr. pose proof (zero_workers _ _ Hr) as Hw.
  pose proof (reachable_wf _ _ _ Hr) as Hwf.
  destruct (zero_workers_idle _ _ Hr) as [Hq He].
  split_and!; try done.
  - intros b Hd Hm. pose proof (wf_stop _ _ Hwf) as Hst.
    rewrite Hd in Hst. simpl in Hst.
    destruct s as [ws q m st inv d]. simpl in *. subst.
    unfold enqueue_construct, enqueue_step, set_invocation. simpl.
    repeat (first [ rewrite list_lookup_middle by done
                  | rewrite list_lookup_insert_eq
                      by (rewrite ?length_insert, length_app; simpl; lia) ];
            simpl).
    eexists. split; [reflexivity|]. split; [reflexivity|].
    eexists. simpl.
    rewrite list_lookup_insert_eq
      by (rewrite ?length_insert, length_app; simpl; lia).
    done.
  - intros Hd Hm. simpl. unfold dtor_step. rewrite Hd, Hm. simpl.
    rewrite Hw. simpl. eexists. split; [reflexivity|]. split; [done|].
    intros h Hb. simpl.
    assert (h ∈ tasks s) as Hin
      by (eapply blocked_queued; [done|by rewrite Hd|done]).
    destruct Hb as (i & Hi & Hpc & Hv & Hc).
    exists (abandon i). simpl. rewrite abandon_all_lookup, Hi. simpl.
    rewrite decide_True by done. unfold abandon. by rewrite Hc.
  - intros h Hb. split.
    { destruct Hb as (i & Hi & Hpc & Hv & Hc). simpl. unfold get_step.
      by rewrite Hi, Hpc, Hv, Hc. }
    intros acts tr' s' Hrun.
    assert (get_outlook s' h) as Ho.
    { eapply get_outlook_run; [done..|]. unfold get_outlook.
      destruct (is_destroyed (dtor s)) eqn:Hd; [|done].
      by destruct (destroyed_not_blocked _ _ Hr Hd h). }
    unfold get_outlook in Ho. split.
    { intros Hd. by rewrite Hd in Ho. }
    intros Hd. rewrite Hd in Ho. split; [done|].
    destruct Ho as (i' & Hi' & Hpc & Hc). intros i ? Hv. simplify_eq.
    simpl. unfold get_step. by rewrite Hi', Hpc, Hv, Hc.
Qed.

(** ** The task object of a call that fails *)

Lemma discarded_step s e s' h b :
  step_rel s e s' → discarded s h b → discarded s' h b.
Proof.
  unfold discarded. intros Hs Hi.
  destruct Hs; simpl; try done.
  all: try (by apply lookup_app_l_Some).
  all: try (by insert_cases h0 h).
  destruct (abandon_all_lookup_keep (tasks s) _ _ _ Hi)
    as (i' & Hi' & _ & _ & _ & Hsame).
  by rewrite Hsame in Hi'.
Qed.

Lemma discarded_run acts : ∀ s tr s' h b,
  run acts s = Some (tr, s') → discarded s h b → discarded s' h b.
Proof.
  induction acts as [|a acts IH]; intros s tr s' h b Hrun Hd.
  - simpl in Hrun. by simplify_eq.
  - apply run_cons in Hrun as (e & s1 & tr1 & Hs%step_sound & Hrun & _).
    eauto using discarded_step.
Qed.

(** Until a call has passed the check of the flag, its future is whole. *)
Lemma unchecked_valid threads tr s :
  reachable threads tr s →
  ∀ h i, invocations s !! h = Some i → pc i = EConstructed ∨ pc i = ELocked →
         future_valid i = true.
Proof.
  revert tr s.
  apply (reachable_ind threads
           (λ _ s, ∀ h i, invocations s !! h = Some i →
                          pc i = EConstructed ∨ pc i = ELocked →
                          future_valid i = true)).
  { by intros h i ?. }
  intros tr s a e s' _ IH Hs%step_sound h i.
  destruct Hs; simpl; eauto.
  all: intros Hi Hpc.
  all: lookup_insert; simpl in *; eauto.
  all: try (destruct Hpc; congruence).
  apply abandon_all_lookup_Some in Hi as (i0 & Hi & Hp & _ & Hv & _).
  rewrite Hp in Hpc. rewrite Hv. eauto.
Qed.

Lemma call_order threads tr s h i :
  reachable threads tr s → invocations s !! h = Some i → pc i ≠ EConstructed →
  before (EvCall h) (EvLock (Caller h)) tr.
Proof.
  intros Hr Hi Hpc.
  assert (EvLock (Caller h) ∈ tr) as Hin
    by (apply (ev_lock _ _ _ (reachable_evts _ _ _ Hr)); eauto).
  apply list_elem_of_split in Hin as (la & lb & ->).
  destruct (reachable_cut _ _ _ _ _ Hr) as (sa & sb & _ & Hra & Hs & _).
  inversion Hs; simplify_eq.
  assert (EvCall h ∈ la) as Hin.
  { apply (ev_call _ _ _ (reachable_evts _ _ _ Hra)).
    by eapply lookup_lt_Some. }
  apply list_elem_of_split in Hin as (l1 & l2 & ->).
  exists l1, l2, lb. by rewrite <- app_assoc.
Qed.

(** C10: a call of [enqueue] that fails built its task object from the
    caller's callable and arguments first (the construction needs neither
    the lock nor the flag, and happens in a pool that is stopping as in one
    that is not), took the lock after that, and only then read the flag.
    The throw leaves the queue, the flag, the workers and the other calls as
    they were, and gives back the lock; the task object, which holds what
    the caller passed, is destroyed with its future: it is never pushed,
    run or read. *)
Theorem C10_task_built_before_the_check threads tr1 h tr2 s :
  reachable threads (tr1 ++ EvReject h :: tr2) s →
  before (EvCall h) (EvLock (Caller h)) tr1 ∧
  ∃ b s0 s1 s2 l1 l2,
    tr1 = l1 ++ EvCall h :: l2 ∧
    reachable threads l1 s0 ∧ h = length (invocations s0) ∧
    (∀ m st, step (AEnqueue b) (with_mutex m (with_stop st s0))
             = Some (EvCall h,
                     with_invocations
                       (invocations s0
                          ++ [Invocation b Pending EConstructed true])
                       (with_mutex m (with_stop st s0)))) ∧
    reachable threads tr1 s1 ∧
    invocations s1 !! h = Some (Invocation b Pending ELocked true) ∧
    queue_mutex s1 = Some (Caller h) ∧ stop s1 = true ∧
    (∀ pick, step (ACaller h pick) s1 = Some (EvReject h, s2)) ∧
    tasks s2 = tasks s1 ∧ stop s2 = stop s1 ∧
    workers s2 = workers s1 ∧ dtor s2 = dtor s1 ∧ queue_mutex s2 = None ∧
    (∀ h', h' ≠ h → invocations s2 !! h' = invocations s1 !! h') ∧
    discarded s2 h b ∧
    discarded s h b ∧
    (EvPush h ∉ tr1 ++ EvReject h :: tr2) ∧ (h ∉ tasks s) ∧
    (∀ w, EvDequeue w h ∉ tr1 ++ EvReject h :: tr2) ∧
    (∀ w o, EvRun w h o ∉ tr1 ++ EvReject h :: tr2) ∧
    (∀ r, EvGet h r ∉ tr1 ++ EvReject h :: tr2).
Proof.
  intros Hr. set (tr := tr1 ++ EvReject h :: tr2) in *.
  pose proof (reachable_hist _ _ _ Hr) as Hh.
  pose proof (reachable_evts _ _ _ Hr) as He.
  destruct (reachable_cut _ _ _ _ _ Hr)
    as (s1 & s2 & acts & Hr1 & Hs & Hr2 & Hrun).
  inversion Hs as [ | |h' i Ealive Hi Hpc Hstop| | | | | | | | | | | | | | | ];
    simplify_eq.
  assert (cell i = Pending) as Hcell.
  { eapply (hist_pending _ _ (reachable_hist _ _ _ Hr1)); [done|]. auto. }
  assert (future_valid i = true) as Hvalid.
  { apply (unchecked_valid _ _ _ Hr1 h i Hi). by right. }
  assert (before (EvCall h) (EvLock (Caller h)) tr1) as Hbefore.
  { apply (call_order _ _ _ _ _ Hr1 Hi). by rewrite Hpc. }
  split; [done|].
  destruct Hbefore as (l1 & l2 & l3 & Htr1).
  assert (reachable threads (l1 ++ EvCall h :: l2 ++ EvLock (Caller h) :: l3) s1)
    as Hr1' by (by rewrite <- Htr1).
  destruct (reachable_cut _ _ _ _ _ Hr1')
    as (s0 & s0' & acts0 & Hr0 & Hs0 & _ & Hrun0).
  inversion Hs0 as [b Ealive0| | | | | | | | | | | | | | | | | ]; simplify_eq.
  destruct (run_callable acts0 _ _ _ (length (invocations s0))
              (Invocation b Pending EConstructed true) Hrun0)
    as (i' & Hi' & Hcall); [by apply list_lookup_middle|].
  simpl in Hcall. assert (i' = i) as -> by congruence. clear Hi'. subst b.
  destruct i as [c ce p v]. simpl in *. subst.
  assert (discarded
            (set_invocation (length (invocations s0))
               (Invocation c BrokenPromise EThrew false) (with_mutex None s1))
            (length (invocations s0)) c) as Hd2.
  { unfold discarded. simpl. apply list_lookup_insert_eq.
    by eapply lookup_lt_Some. }
  pose proof (discarded_run _ _ _ _ _ _ Hrun Hd2) as Hd.
  assert (length (invocations s0) ∉ pushed tr) as Hnp.
  { intros (i & Hi' & Hpc)%(hist_pushed _ _ Hh).
    unfold discarded in Hd. rewrite Hd in Hi'. simplify_eq.
    by destruct Hpc. }
  assert (length (invocations s0) ∉ dequeued tr) as Hnd.
  { intros ?. by apply Hnp, (dequeued_pushed _ s). }
  exists c, s0, s1,
    (set_invocation (length (invocations s0))
       (Invocation c BrokenPromise EThrew false) (with_mutex None s1)),
    l1, (l2 ++ EvLock (Caller (length (invocations s0))) :: l3).
  split_and!; try done.
  - intros m st. simpl. unfold enqueue_construct. simpl. by rewrite Ealive0.
  - apply (wf_mutex _ _ (reachable_wf _ _ _ Hr1) (Caller _)). simpl. eauto.
  - intros pick. simpl. unfold enqueue_step. rewrite Ealive, Hi. simpl.
    by rewrite Hstop.
  - intros h' Hne. simpl. by rewrite list_lookup_insert_ne.
  - by rewrite <- elem_of_pushed.
  - intros Ht. by apply Hnp, (tasks_pushed _ s).
  - intros w Hw. apply Hnd, elem_of_dequeued. eauto.
  - intros w o Hw. apply Hnd, elem_of_dequeued. exists w.
    by apply (ev_run _ _ _ He w _ o).
  - intros r (i & Hi' & Hpc)%(ev_get _ _ _ He).
    unfold discarded in Hd. rewrite Hd in Hi'. by simplify_eq.
Qed.

(** ** What is stored stays *)

Lemma step_rel_settled tr s e s' h i :
  hist tr s → step_rel s e s' → invocations s !! h = Some i →
  cell i ≠ Pending →
  ∃ i', invocations s' !! h = Some i' ∧ cell i' = cell i ∧
        callable i' = callable i.
Proof.
  intros Hh Hs Hi Hc.
  destruct Hs; simpl; try (by eauto using lookup_app_l_Some).
  all: try (insert_cases h0 h; by eauto).
  - insert_cases h0 h; [|by eauto].
    destruct Hc. eapply (hist_pending _ _ Hh); [done|]. auto.
  - destruct (abandon_all_lookup_keep (tasks s) _ _ _ Hi)
      as (i' & Hi' & _ & _ & _ & Hsame).
    rewrite Hsame in Hi' by done. eauto.
Qed.

(** The shared state of a task is written once: what it holds, the outcome
    of the callable or the broken promise, it holds in every later state of
    the pool, the destruction of the pool included. *)
Theorem result_is_final threads acts : ∀ tr s tr' s' h i,
  reachable threads tr s → run acts s = Some (tr', s') →
  invocations s !! h = Some i → cell i ≠ Pending →
  ∃ i', invocations s' !! h = Some i' ∧ cell i' = cell i ∧
        callable i' = callable i.
Proof.
  induction acts as [|a acts IH]; intros tr s tr' s' h i Hr Hrun Hi Hc.
  - simpl in Hrun. simplify_eq. eauto.
  - apply run_cons in Hrun as (e & s1 & tr1 & Hs & Hrun & _).
    destruct (step_rel_settled tr s e s1 h i) as (i1 & Hi1 & Hc1 & Hb1);
      [by apply reachable_hist in Hr|by apply (step_sound a)|done..|].
    destruct (IH (tr ++ [e]) s1 tr1 s' h i1) as (i' & Hi' & Hc' & Hb');
      [by eapply reachable_step|done..|congruence|].
    exists i'. split; [done|]. split; congruence.
Qed.
(** ** The future in the caller's hands *)

Lemma future_spent threads tr s :
  reachable threads tr s →
  ∀ h i, invocations s !! h = Some i →
         (future_valid i = false ↔ pc i = EThrew ∨ ∃ r, EvGet h r ∈ tr).
Proof.
  revert tr s.
  apply (reachable_ind threads
           (λ tr s, ∀ h i, invocations s !! h = Some i →
              (future_valid i = false ↔
               pc i = EThrew ∨ ∃ r, EvGet h r ∈ tr))).
  { by intros h i ?. }
  intros tr s a e s' Hr IH Hs%step_sound h i Hi.
  assert ((∃ r, EvGet h r ∈ tr ++ [e]) ↔
          (∃ r, EvGet h r ∈ tr) ∨ ∃ r, e = EvGet h r) as ->.
  { split.
    - intros [r [?|?%list_elem_of_singleton]%elem_of_app]; eauto.
    - intros [[r ?]|[r ->]]; exists r; apply elem_of_app; auto.
      right. by apply list_elem_of_singleton. }
  destruct Hs; simpl in Hi.
  all: try match goal with
       | |- context [∃ r, ?e' = EvGet ?h' r] =>
           assert ((∃ r, e' = EvGet h' r) ↔ False) as ->
             by (split; [by intros [? ?]|done])
       end.
  all: try (rewrite <- (IH _ _ Hi); tauto).
  all: lookup_insert; simpl.
  all: repeat match goal with
       | Hl : invocations _ !! _ = Some _ |- _ =>
           pose proof (IH _ _ Hl); revert Hl
       end; intros.
  all: try (rewrite ?Epc in *; intuition congruence).
  - split; [done|]. intros [?|[[r Hin]|[]]]; [done|].
    apply (ev_get _ _ _ (reachable_evts _ _ _ Hr)) in Hin as (i & Hi & _).
    apply lookup_lt_Some in Hi. lia.
  - apply abandon_all_lookup_Some in Hi as (i0 & Hi & Hp & _ & Hv & _).
    rewrite Hp, Hv, (IH _ _ Hi). tauto.
  - split; [|done]. intros _. right. right. by exists r.
  - rewrite H1. split; [tauto|]. intros [?|[?|[r0 ?]]]; [tauto..|].
    by simplify_eq.
Qed.

(** [get] finds the future of a handle spent exactly when the handle has
    been read before: the first [get] on a handle never does, every later
    one does. *)
Theorem get_once threads l1 h r l2 s :
  reachable threads (l1 ++ EvGet h r :: l2) s →
  (r = GetNoState ↔ ∃ r', EvGet h r' ∈ l1) ∧
  (r ≠ GetNoState →
   r = GetBroken ∨
   ∃ w o, r = get_of o ∧ EvRun w h o ∈ l1) ∧
  ∃ i, invocations s !! h = Some i ∧ future_valid i = false.
Proof.
  intros Hr.
  destruct (reachable_cut _ _ _ _ _ Hr)
    as (s1 & s2 & acts & Hr1 & Hs & Hr2 & Hrun).
  pose proof (future_spent _ _ _ Hr1) as Hsp.
  inversion Hs as [ | | | | | | | | | | | | | | | | |h' i r' Hi Hpc Hget];
    simplify_eq.
  specialize (Hsp _ _ Hi). rewrite Hpc in Hsp.
  assert (∃ i, invocations s !! h = Some i ∧ future_valid i = false) as Hend.
  { assert (EvGet h r ∈ l1 ++ EvGet h r :: l2) as Hin
      by (apply elem_of_app; right; left).
    destruct (ev_get _ _ _ (reachable_evts _ _ _ Hr) _ _ Hin)
      as (i' & Hi' & _).
    exists i'. split; [done|].
    apply (future_spent _ _ _ Hr _ _ Hi'). right. by exists r. }
  destruct (future_valid i) eqn:Hv; simpl in Hget.
  - assert (r ≠ GetNoState) as Hne
      by (destruct (cell i) as [|[]|]; by simplify_eq).
    split_and!; [|intros _|done].
    + split; [done|]. intros Hin.
      assert (true = false) by (apply Hsp; by right). done.
    + destruct (cell i) as [|o|] eqn:Hc; [done| |].
      * right.
        destruct (hist_ready _ _ (reachable_hist _ _ _ Hr1) _ _ _ Hi Hc)
          as [-> (w & o' & Hin)%elem_of_executed].
        destruct (res_run _ _ (reachable_results _ _ _ Hr1) _ _ _ Hin)
          as (i' & Hi' & Hc' & ->).
        exists w, (callable i' ()). split; [|done].
        assert (i' = i) as -> by congruence.
        by destruct (callable i ()); simplify_eq.
      * left. by simplify_eq.
  - simplify_eq. split_and!; [|done..].
    split; [|done]. intros _.
    destruct (proj1 Hsp eq_refl) as [?|?]; done.
Qed.
(** ** A pool of one worker *)

Lemma one_worker_order tr s :
  reachable 1 tr s → dequeued tr = executed tr ++ running s.
Proof.
  revert tr s.
  apply (reachable_ind 1 (λ tr s, dequeued tr = executed tr ++ running s)).
  { done. }
  intros tr s a e s' Hr IH Hs%step_sound. cbv beta in *.
  pose proof (wf_workers _ _ (reachable_wf _ _ _ Hr)) as Hlen.
  rewrite dequeued_snoc, executed_snoc, IH. unfold running in *.
  destruct (workers s) as [|p [|??]] eqn:Hws; try done. clear Hlen.
  destruct Hs; simpl; rewrite ?Hws in *; rewrite ?app_nil_r; try done.
  all: try (destruct w as [|w]; simplify_eq/=; rewrite ?app_nil_r; try done).
  - unfold notify_one in Ews.
    destruct pick as [[|w]|]; simpl in Ews; destruct p; by simplify_eq/=.
  - by destruct Ep as [-> | ->]; rewrite app_nil_r.
  - destruct Ecell.
    eapply (running_pending tr s 0); [by apply reachable_hist in Hr| |done].
    by rewrite Hws.
  - by destruct p.
Qed.

(** With one worker the tasks are run in the order in which they were
    submitted: the tasks taken from the queue are those that have been run,
    in that order, followed by the one the worker is running, and they are
    the first of those pushed. *)
Theorem one_worker_runs_in_order tr s :
  reachable 1 tr s →
  dequeued tr = executed tr ++ running s ∧
  pushed tr = executed tr ++ running s ++ tasks s ++ abandoned tr ∧
  executed tr `prefix_of` pushed tr ∧
  length (running s) ≤ 1.
Proof.
  intros Hr. pose proof (one_worker_order _ _ Hr) as Ho.
  pose proof (hist_fifo _ _ (reachable_hist _ _ _ Hr)) as Hf.
  rewrite Ho, <- app_assoc in Hf. split_and!; [done..| |].
  - rewrite Hf. by eexists.
  - unfold running.
    pose proof (wf_workers _ _ (reachable_wf _ _ _ Hr)) as Hlen.
    destruct (workers s) as [|p [|??]]; try done. destruct p; simpl; lia.
Qed.
(** ** The queue and the flag are used under the mutex only *)

(** A step of a thread that does not hold [queue_mutex] neither reads nor
    writes [tasks] and [stop]: it does the same whatever they hold, and
    leaves them as they are.  The one exception is the end of
    [~ThreadPool], where the members are destroyed after the last [join]. *)
Theorem shared_data_guarded threads tr s a :
  reachable threads tr s →
  (∀ t, actor a = Some t → queue_mutex s ≠ Some t) →
  a ≠ ADtor ∨ dtor s ≠ DJoining threads →
  (∀ e s', step a s = Some (e, s') → tasks s' = tasks s ∧ stop s' = stop s) ∧
  ∀ st q, step a (with_shared st q s)
          = prod_map id (with_shared st q) <$> step a s.
Proof.
  intros Hr Hfree Hend. pose proof (reachable_wf _ _ _ Hr) as Hwf.
  destruct a as [b|h pick|w|w| |h]; simpl in *.
  - unfold enqueue_construct. simpl. split.
    + intros e s'. destruct (is_destroyed (dtor s)); intros; by simplify_eq.
    + intros st q. by destruct (is_destroyed (dtor s)).
  - assert (∀ i, invocations s !! h = Some i → pc i ≠ ELocked) as Hpc.
    { intros i Hi Hpc. apply (Hfree (Caller h)); [done|].
      apply (wf_mutex _ _ Hwf). simpl. eauto. }
    unfold enqueue_step. simpl.
    destruct (is_destroyed (dtor s)); [done|].
    destruct (invocations s !! h) as [i|] eqn:Hi; [|done].
    specialize (Hpc i eq_refl).
    destruct (pc i); try done.
    + destruct (queue_mutex s); [done|]. split; [|done].
      intros; by simplify_eq.
    + destruct (notify_one pick (workers s)); [|done]. split; [|done].
      intros; by simplify_eq.
  - assert (workers s !! w ≠ Some WLocked) as Hpc.
    { intros Hw. apply (Hfree (Worker w)); [done|].
      by apply (wf_mutex _ _ Hwf). }
    unfold worker_step. simpl.
    destruct (workers s !! w) as [[| | | |h| |]|]; try done.
    1,2: destruct (queue_mutex s); [done|]; split; [|done];
         intros; by simplify_eq.
    destruct (invocations s !! h) as [i|]; [|done].
    destruct (invoke i); (split; [|done]); intros; by simplify_eq.
  - unfold wake_step. simpl.
    destruct (workers s !! w) as [[| | | | | |]|]; try done.
    split; [|done]. intros; by simplify_eq.
  - assert (dtor s ≠ DLocked) as Hpc.
    { intros Hd. apply (Hfree Destructor); [done|].
      by apply (wf_mutex _ _ Hwf). }
    unfold dtor_step. simpl.
    destruct (dtor s) as [| | |k|] eqn:Hd; try done.
    + destruct (queue_mutex s); [done|]. split; [|done].
      intros; by simplify_eq.
    + split; [|done]. intros; by simplify_eq.
    + destruct (workers s !! k) as [p|] eqn:Hw.
      * destruct p; try done. split; [|done]. intros; by simplify_eq.
      * apply lookup_ge_None in Hw. rewrite (wf_workers _ _ Hwf) in Hw.
        pose proof (wf_join_bound _ _ Hwf _ Hd).
        assert (k = threads) as -> by lia. by destruct Hend.
  - unfold get_step. simpl.
    destruct (invocations s !! h) as [i|]; [|done].
    destruct (pc i); try done.
    destruct (future_get (future_valid i) (cell i)); [|done].
    split; [|done]. intros; by simplify_eq.
Qed.
(** ** The workers of a pool *)

Lemma omap_length_le {X Y} (g : X → option Y) (l : list X) :
  length (omap g l) ≤ length l.
Proof.
  induction l as [|x l IH]; [done|].
  change (omap g (x :: l)) with (from_option (λ y, y :: omap g l) (omap g l) (g x)).
  destruct (g x); simpl; lia.
Qed.

(** The constructor starts [threads] workers at the top of their loop, with
    an empty queue, the mutex free and the flag down.  No worker is added or
    lost afterwards; at most [threads] tasks are being run at a time; and as
    long as the destructor has not set the flag every worker is in its
    loop: none has returned, none was ended by an exception. *)
Theorem workers_stay threads tr s :
  reachable threads tr s →
  workers (ThreadPool (return_type:=return_type) (exn:=exn) threads)
  = replicate threads WIdle ∧
  length (workers s) = threads ∧
  length (running s) ≤ threads ∧
  (stop s = false →
   ∀ w, w < threads →
        ∃ p, workers s !! w = Some p ∧ p ≠ WExited ∧ p ≠ WCrashed) ∧
  (∀ w, EvExit w ∈ tr → before EvStop (EvExit w) tr).
Proof.
  intros Hr. pose proof (reachable_wf _ _ _ Hr) as Hwf.
  pose proof (reachable_evts _ _ _ Hr) as He.
  split_and!.
  - apply ThreadPool_workers.
  - apply (wf_workers _ _ Hwf).
  - rewrite <- (wf_workers _ _ Hwf). unfold running. apply omap_length_le.
  - intros Hstop w Hw. rewrite <- (wf_workers _ _ Hwf) in Hw.
    apply lookup_lt_is_Some in Hw as [p Hp]. exists p. split_and!; [done| |].
    + intros ->. destruct (wf_exited _ _ Hwf _ Hp). congruence.
    + intros ->. by destruct (ev_crash _ _ _ He w).
  - intros w (l1 & l2 & ->)%list_elem_of_split.
    destruct (reachable_cut _ _ _ _ _ Hr) as (s1 & s2 & _ & Hr1 & Hs & _).
    inversion Hs; simplify_eq.
    assert (EvStop ∈ l1) as (la & lb & ->)%list_elem_of_split.
    { by apply (stop_event threads l1 s1);
        eauto using reachable_wf, reachable_evts. }
    exists la, lb, l2. by rewrite <- app_assoc.
Qed.
(** ** A pool that lives serves its queue *)

Lemma sum_list_zero {X} (g : X → nat) (l : list X) :
  (∀ j x, l !! j = Some x → g x = 0) → sum_list (g <$> l) = 0.
Proof.
  induction l as [|x l IH]; intros Hl; [done|].
  change (sum_list (g <$> x :: l)) with (g x + sum_list (g <$> l)).
  rewrite (Hl 0 x eq_refl), IH; [done|]. intros j y Hj. by apply (Hl (S j)).
Qed.

Lemma service_dtor a s e s' :
  service_action a = true → step a s = Some (e, s') → dtor s' = dtor s.
Proof.
  intros Ha Hs. destruct a; try done; simpl in Hs.
  - unfold enqueue_step in Hs. by repeat case_match; simplify_eq.
  - unfold worker_step in Hs. by repeat case_match; simplify_eq.
Qed.

(** Unless the pool is at rest, one of its workers or one of the calls under
    way can take a step. *)
Lemma service_progress threads tr s :
  reachable threads tr s → 0 < threads → dtor s = DAlive →
  at_rest s ∨ ∃ a e s', service_action a = true ∧ step a s = Some (e, s').
Proof.
  intros Hr Hpos Hd.
  pose proof (reachable_wf _ _ _ Hr) as Hwf.
  pose proof (reachable_hist _ _ _ Hr) as Hh.
  pose proof (reachable_evts _ _ _ Hr) as He.
  assert (stop s = false) as Hstop by (by rewrite (wf_stop _ _ Hwf), Hd).
  destruct (queue_mutex s) as [[w|h|]|] eqn:Hm.
  - right. apply (wf_mutex _ _ Hwf) in Hm. simpl in Hm.
    destruct (worker_claim (stop s) (tasks s)) as [p q] eqn:Hc.
    exists (AWorker w). simpl. unfold worker_step. rewrite Hm, Hc. eauto.
  - right. apply (wf_mutex _ _ Hwf) in Hm as (i & Hi & Hpc).
    exists (ACaller h None). simpl. unfold enqueue_step.
    rewrite Hd, Hi, Hpc, Hstop. simpl. eauto.
  - apply (wf_mutex _ _ Hwf) in Hm. simpl in Hm. congruence.
  - destruct (decide (Forall (λ p, p = WWaiting) (workers s))) as [Hall|Hnot].
    2: { right. apply not_Forall_Exists in Hnot; [|apply _].
         apply Exists_exists in Hnot as (p & [w Hw]%list_elem_of_lookup & Hp).
         exists (AWorker w). simpl. unfold worker_step. rewrite Hw, Hm.
         simpl in Hp. destruct p as [| | | |h| |]; try done; simpl.
         - eauto.
         - assert (holds s (Worker w)) as Hk by done.
           apply (wf_mutex _ _ Hwf) in Hk. congruence.
         - eauto.
         - assert (h ∈ pushed tr) as Hin.
           { eapply dequeued_pushed; [done|]. eapply running_dequeued; [done|].
             apply elem_of_running. eauto. }
           apply (hist_pushed _ _ Hh) in Hin as (i & Hi & _).
           pose proof (running_pending _ _ _ _ _ Hh Hw Hi) as Hc.
           unfold invoke. rewrite Hi, Hc. eauto.
         - destruct (wf_exited _ _ Hwf _ Hw). congruence.
         - by destruct (ev_crash _ _ _ He w). }
    destruct (decide (Forall (λ i, pc i ≠ EPushed) (invocations s)))
      as [Hcalls|Hnot].
    2: { right. apply not_Forall_Exists in Hnot; [|apply _].
         apply Exists_exists in Hnot as (i & [h Hi]%list_elem_of_lookup & Hp).
         simpl in Hp. apply dec_stable in Hp.
         destruct (notify_one_enabled (workers s)) as (pick & ws' & Hn).
         exists (ACaller h pick). simpl. unfold enqueue_step.
         rewrite Hd, Hi, Hp, Hn. simpl. eauto. }
    left. rewrite Forall_lookup in Hall. rewrite Forall_lookup in Hcalls.
    split_and!; [|done|done|].
    + assert (∃ w, workers s !! w = Some WWaiting) as Hex.
      { exists 0. rewrite <- (wf_workers _ _ Hwf) in Hpos.
        apply lookup_lt_is_Some in Hpos as [p Hp].
        by rewrite Hp, (Hall _ _ Hp). }
      apply (reachable_no_lost_wakeup _ _ _ Hr) in Hex.
      unfold looking in Hex.
      rewrite (sum_list_zero looking_weight), (sum_list_zero signal_weight)
        in Hex.
      * apply nil_length_inv. lia.
      * intros h i Hi. specialize (Hcalls _ _ Hi). simpl in Hcalls.
        unfold signal_weight. by destruct (pc i).
      * intros w p Hp. by rewrite (Hall _ _ Hp).
    + intros h i Hi. split; [|by apply (Hcalls _ _ Hi)].
      intros Hpc. assert (holds s (Caller h)) as Hk by (simpl; eauto).
      apply (wf_mutex _ _ Hwf) in Hk. congruence.
Qed.

Lemma service_step_decreases a s e s' :
  service_action a = true → step a s = Some (e, s') →
  service_left s' < service_left s.
Proof.
  intros Ha Hs. unfold service_left. destruct a as [|h pick|w| | |]; try done.
  - simpl in Hs. unfold enqueue_step in Hs.
    destruct (is_destroyed (dtor s)); [done|].
    destruct (invocations s !! h) as [i|] eqn:Hi; [|done].
    destruct (pc i) eqn:Hpc; try done.
    + destruct (queue_mutex s); [done|]. simplify_eq. simpl.
      pose proof (sum_list_insert call_weight _ _ _ (set_pc ELocked i) Hi) as Hc.
      change (call_weight (set_pc ELocked i)) with 7 in Hc.
      assert (call_weight i = 8) by (unfold call_weight; by rewrite Hpc).
      lia.
    + assert (call_weight i = 7) by (unfold call_weight; by rewrite Hpc).
      destruct (stop s); simplify_eq; simpl.
      * pose proof (sum_list_insert call_weight _ _ _
          (Invocation (callable i) BrokenPromise EThrew false) Hi) as Hc.
        change (call_weight (Invocation (callable i) BrokenPromise EThrew false))
          with 0 in Hc.
        lia.
      * pose proof (sum_list_insert call_weight _ _ _ (set_pc EPushed i) Hi)
          as Hc.
        change (call_weight (set_pc EPushed i)) with 3 in Hc.
        rewrite length_app. simpl. lia.
    + destruct (notify_one pick (workers s)) as [ws|] eqn:Hn; [|done].
      simplify_eq. simpl.
      pose proof (sum_list_insert call_weight _ _ _ (set_pc EReturned i) Hi)
        as Hc.
      change (call_weight (set_pc EReturned i)) with 0 in Hc.
      assert (call_weight i = 3) by (unfold call_weight; by rewrite Hpc).
      apply notify_one_spec in Hn as [(w & -> & Hw & ->)|(-> & _ & ->)]; [|lia].
      pose proof (sum_list_insert serve_weight _ _ _ WWoken Hw) as Hl.
      simpl in Hl. lia.
  - simpl in Hs. unfold worker_step in Hs.
    destruct (workers s !! w) as [p|] eqn:Hw; [|done].
    pose proof (λ p', sum_list_insert serve_weight _ _ _ p' Hw) as Hl.
    destruct p as [| | | |h| |]; try done.
    + destruct (queue_mutex s); [done|]. simplify_eq. simpl.
      specialize (Hl WLocked). simpl in Hl. lia.
    + destruct (worker_claim (stop s) (tasks s)) as [p q] eqn:Hc.
      simplify_eq. simpl. specialize (Hl p). simpl in Hl.
      unfold worker_claim in Hc.
      destruct (tasks s) as [|h q']; repeat case_match; simplify_eq/=; lia.
    + destruct (queue_mutex s); [done|]. simplify_eq. simpl.
      specialize (Hl WLocked). simpl in Hl. lia.
    + destruct (invocations s !! h) as [i|] eqn:Hi; [|done].
      unfold invoke in Hs. destruct (cell i); simplify_eq; simpl.
      * pose proof (sum_list_insert call_weight _ _ _
                      (set_cell (Ready (callable i ())) i) Hi) as Hi'.
        change (call_weight (set_cell (Ready (callable i ())) i))
          with (call_weight i) in Hi'.
        specialize (Hl WIdle). simpl in Hl. lia.
      * specialize (Hl WCrashed). simpl in Hl. lia.
      * specialize (Hl WCrashed). simpl in Hl. lia.
Qed.

Lemma service_bound acts : ∀ s tr s',
  forallb service_action acts = true → run acts s = Some (tr, s') →
  length acts + service_left s' ≤ service_left s.
Proof.
  induction acts as [|a acts IH]; intros s tr s' Hall Hrun.
  - simpl in Hrun. simplify_eq. simpl. lia.
  - simpl in Hall. apply andb_true_iff in Hall as [Ha Hall].
    apply run_cons in Hrun as (e & s1 & tr1 & Hs & Hrun & _).
    pose proof (service_step_decreases _ _ _ _ Ha Hs).
    specialize (IH _ _ _ Hall Hrun). simpl. lia.
Qed.

Lemma service_run acts : ∀ threads tr s tr' s',
  reachable threads tr s → dtor s = DAlive →
  forallb service_action acts = true → run acts s = Some (tr', s') →
  dtor s' = DAlive.
Proof.
  induction acts as [|a acts IH]; intros threads tr s tr' s' Hr Hd Hall Hrun.
  - simpl in Hrun. by simplify_eq.
  - simpl in Hall. apply andb_true_iff in Hall as [Ha Hall].
    apply run_cons in Hrun as (e & s1 & tr1 & Hs & Hrun & _).
    eapply (IH threads (tr ++ [e]) s1); [by eapply reachable_step| |done..].
    by rewrite (service_dtor _ _ _ _ Ha Hs).
Qed.

Lemma service_completes threads m :
  ∀ tr s, reachable threads tr s → 0 < threads → dtor s = DAlive →
          service_left s ≤ m →
          ∃ acts tr' s', forallb service_action acts = true ∧
                         run acts s = Some (tr', s') ∧ at_rest s'.
Proof.
  induction m as [|m IH]; intros tr s Hr Hpos Hd Hm.
  - destruct (service_progress _ _ _ Hr Hpos Hd)
      as [?|(a & e & s' & Ha & Hs)]; [by exists [], [], s|].
    pose proof (service_step_decreases _ _ _ _ Ha Hs). lia.
  - destruct (service_progress _ _ _ Hr Hpos Hd)
      as [?|(a & e & s1 & Ha & Hs)]; [by exists [], [], s|].
    pose proof (service_step_decreases _ _ _ _ Ha Hs).
    destruct (IH (tr ++ [e]) s1) as (acts & tr' & s' & Hall & Hrun & ?);
      [by eapply reachable_step|done|
       by rewrite (service_dtor _ _ _ _ Ha Hs)|lia|].
    exists (a :: acts), (e :: tr'), s'. simpl. rewrite Ha, Hall, Hs, Hrun.
    by split_and!.
Qed.

Lemma at_rest_served threads tr s :
  reachable threads tr s → dtor s = DAlive → at_rest s →
  pushed tr = dequeued tr ∧ dequeued tr ≡ₚ executed tr ∧
  ∀ h, h ∈ pushed tr →
       ∃ i, invocations s !! h = Some i ∧ pc i = EReturned ∧
            cell i = Ready (callable i ()) ∧
            (future_valid i = true →
             step (AGet h) s
             = Some (EvGet h (get_of (callable i ())),
                     set_invocation h (set_future_valid false i) s)).
Proof.
  intros Hr Hd (Ht & _ & Hw & Hc).
  pose proof (reachable_hist _ _ _ Hr) as Hh.
  assert (running s = []) as Hrun.
  { apply elem_of_nil_inv. intros h (w & Hp)%elem_of_running.
    by specialize (Hw _ _ Hp). }
  assert (pushed tr = dequeued tr) as Hpd.
  { rewrite (hist_fifo _ _ Hh), Ht, (hist_alive _ _ Hh); [|by rewrite Hd].
    by rewrite !app_nil_r. }
  assert (dequeued tr ≡ₚ executed tr) as Hde.
  { rewrite (hist_running _ _ Hh), Hrun. by rewrite app_nil_r. }
  split_and!; [done..|].
  intros h Hin.
  destruct (proj1 (hist_pushed _ _ Hh h) Hin) as (i & Hi & Hpc).
  rewrite Hpd, Hde in Hin.
  destruct (hist_executed _ _ Hh _ Hin) as (i' & Hi' & Hcell).
  assert (i' = i) as -> by congruence.
  exists i. destruct (Hc _ _ Hi) as [_ Hnp].
  assert (pc i = EReturned) as Hret by (by destruct Hpc).
  split_and!; [done..|].
  intros Hv. apply get_step_ready; [done..|].
  rewrite Hcell. apply future_get_ready.
Qed.

(** The workers and the calls of [enqueue] under way cannot go on for ever
    by themselves: from any state, the steps they can take with no new
    call, no spurious wake-up and no destructor are at most
    [service_left] many.  A worker with nothing to do ends inside
    [condition.wait]; it does not spin. *)
Theorem service_terminates acts s tr s' :
  forallb service_action acts = true → run acts s = Some (tr, s') →
  length acts ≤ service_left s ∧ service_left s' ≤ service_left s - length acts.
Proof.
  intros Hall Hrun. pose proof (service_bound _ _ _ _ Hall Hrun). lia.
Qed.

(** A pool that has a worker and whose destructor has not been called serves
    its queue.  By the steps of its workers and of the calls under way
    alone it can come to rest; however these steps are taken, once none of
    them is possible the pool is at rest; and at rest every task that was
    pushed has been run, its call of [enqueue] has returned, and [get] on
    its handle returns what the callable did.  No spurious wake-up is
    needed. *)
Theorem queue_is_served threads tr s :
  reachable threads tr s → 0 < threads → dtor s = DAlive →
  (∃ acts tr' s', forallb service_action acts = true ∧
                  run acts s = Some (tr', s') ∧ at_rest s') ∧
  ∀ acts tr' s',
    forallb service_action acts = true → run acts s = Some (tr', s') →
    dtor s' = DAlive ∧
    ((∀ a, service_action a = true → step a s' = None) → at_rest s') ∧
    (at_rest s' →
     pushed (tr ++ tr') = dequeued (tr ++ tr') ∧
     dequeued (tr ++ tr') ≡ₚ executed (tr ++ tr') ∧
     ∀ h, h ∈ pushed (tr ++ tr') →
          ∃ i, invocations s' !! h = Some i ∧ pc i = EReturned ∧
               cell i = Ready (callable i ()) ∧
               (future_valid i = true →
                step (AGet h) s'
                = Some (EvGet h (get_of (callable i ())),
                        set_invocation h (set_future_valid false i) s'))).
Proof.
  intros Hr Hpos Hd. split.
  { by apply (service_completes threads (service_left s) tr). }
  intros acts tr' s' Hall Hrun.
  pose proof (reachable_run _ _ _ _ _ _ Hr Hrun) as Hr'.
  pose proof (service_run _ _ _ _ _ _ Hr Hd Hall Hrun) as Hd'.
  split_and!; [done| |].
  - intros Hnone.
    destruct (service_progress _ _ _ Hr' Hpos Hd')
      as [?|(a & e & s1 & Ha & Hs)]; [done|].
    by rewrite (Hnone a Ha) in Hs.
  - intros Hrest. by apply (at_rest_served threads).
Qed.

(** ** A call of enqueue on a pool that lives *)

Lemma call_locks s h i :
  dtor s = DAlive → queue_mutex s = None →
  invocations s !! h = Some i → pc i = EConstructed →
  ∃ s', step (ACaller h None) s = Some (EvLock (Caller h), s') ∧
        dtor s' = DAlive ∧ stop s' = stop s ∧
        invocations s' !! h = Some (set_pc ELocked i).
Proof.
  intros Hd Hm Hi Hpc. simpl. unfold enqueue_step.
  rewrite Hd, Hi, Hpc, Hm. simpl. eexists. split; [done|]. simpl.
  split_and!; [done..|].
  apply list_lookup_insert_eq. by eapply lookup_lt_Some.
Qed.

Lemma call_pushes s h i :
  dtor s = DAlive → stop s = false →
  invocations s !! h = Some i → pc i = ELocked →
  ∃ s', step (ACaller h None) s = Some (EvPush h, s') ∧
        dtor s' = DAlive ∧ invocations s' !! h = Some (set_pc EPushed i).
Proof.
  intros Hd Hstop Hi Hpc. simpl. unfold enqueue_step.
  rewrite Hd, Hi, Hpc, Hstop. simpl. eexists. split; [done|]. simpl.
  split; [done|]. apply list_lookup_insert_eq. by eapply lookup_lt_Some.
Qed.

Lemma call_signals s h i :
  dtor s = DAlive → invocations s !! h = Some i → pc i = EPushed →
  ∃ pick s', step (ACaller h pick) s = Some (EvNotifyOne h pick, s') ∧
             dtor s' = DAlive ∧
             invocations s' !! h = Some (set_pc EReturned i).
Proof.
  intros Hd Hi Hpc.
  destruct (notify_one_enabled (workers s)) as (pick & ws & Hn).
  exists pick. simpl. unfold enqueue_step.
  rewrite Hd, Hi, Hpc, Hn. simpl. eexists. split; [done|]. simpl.
  split; [done|]. apply list_lookup_insert_eq. by eapply lookup_lt_Some.
Qed.

(** While the destructor has not been called, [enqueue] does not throw and
    does not get stuck: no call has been turned away, a new call can be
    made, and every call under way can be brought to its [return], its task
    pushed and its future whole, in at most four steps (one of them the
    holder of the mutex letting go of it). *)
Theorem enqueue_is_accepted threads tr s :
  reachable threads tr s → dtor s = DAlive →
  (∀ h, EvReject h ∉ tr) ∧
  (∀ b, ∃ s', step (AEnqueue b) s = Some (EvCall (length (invocations s)), s') ∧
              dtor s' = DAlive ∧
              invocations s' !! length (invocations s)
              = Some (Invocation b Pending EConstructed true)) ∧
  ∀ h i, invocations s !! h = Some i → pc i ≠ EReturned →
         ∃ acts tr' s',
           run acts s = Some (tr', s') ∧ length acts ≤ 4 ∧
           dtor s' = DAlive ∧ EvPush h ∈ tr ++ tr' ∧
           ∃ i', invocations s' !! h = Some i' ∧ pc i' = EReturned ∧
                 callable i' = callable i ∧ future_valid i' = true.
Proof.
  intros Hr Hd.
  pose proof (reachable_wf _ _ _ Hr) as Hwf.
  pose proof (reachable_hist _ _ _ Hr) as Hh.
  pose proof (reachable_evts _ _ _ Hr) as He.
  assert (stop s = false) as Hstop by (by rewrite (wf_stop _ _ Hwf), Hd).
  assert (∀ h, EvReject h ∉ tr) as Hnr.
  { intros h (l1 & l2 & ->)%list_elem_of_split.
    destruct (reachable_cut _ _ _ _ _ Hr) as (s1 & s2 & _ & Hr1 & Hs & _).
    inversion Hs; simplify_eq.
    assert (EvStop ∈ l1).
    { by apply (stop_event threads l1 s1);
        eauto using reachable_wf, reachable_evts. }
    assert (stop s = true); [|congruence].
    apply (stop_event threads (l1 ++ EvReject h :: l2) s); [done..|].
    apply elem_of_app. by left. }
  split; [done|]. split.
  { intros b. simpl. unfold enqueue_construct. rewrite Hd. simpl.
    eexists. split; [done|]. split; [done|]. simpl.
    by apply list_lookup_middle. }
  intros h i Hi Hpc.
  assert (future_valid i = true) as Hv.
  { destruct (future_valid i) eqn:Hv; [done|].
    apply (future_spent _ _ _ Hr _ _ Hi) in Hv as [Hv|[r Hin]].
    - destruct (Hnr h). apply (ev_reject _ _ _ He). eauto.
    - apply (ev_get _ _ _ He) in Hin as (i' & ? & ?). congruence. }
  assert (∀ s1 i1 tr1, dtor s1 = DAlive → invocations s1 !! h = Some i1 →
            pc i1 = EPushed → callable i1 = callable i →
            future_valid i1 = true → EvPush h ∈ tr ++ tr1 →
            ∃ acts tr' s', run acts s1 = Some (tr', s') ∧ length acts ≤ 1 ∧
              dtor s' = DAlive ∧ EvPush h ∈ tr ++ tr1 ++ tr' ∧
              ∃ i', invocations s' !! h = Some i' ∧ pc i' = EReturned ∧
                    callable i' = callable i ∧ future_valid i' = true)
    as Hsignal.
  { intros s1 i1 tr1 Hd1 Hi1 Hpc1 Hb1 Hv1 Hin.
    destruct (call_signals _ _ _ Hd1 Hi1 Hpc1) as (pick & s' & Hs & Hd' & Hi').
    exists [ACaller h pick], [EvNotifyOne h pick], s'. simpl in *. rewrite Hs.
    split_and!; [done..| |by eauto].
    rewrite app_assoc, elem_of_app. by left. }
  assert (∀ s1 i1 tr1, dtor s1 = DAlive → stop s1 = false →
            invocations s1 !! h = Some i1 →
            pc i1 = ELocked → callable i1 = callable i →
            future_valid i1 = true →
            ∃ acts tr' s', run acts s1 = Some (tr', s') ∧ length acts ≤ 2 ∧
              dtor s' = DAlive ∧ EvPush h ∈ tr ++ tr1 ++ tr' ∧
              ∃ i', invocations s' !! h = Some i' ∧ pc i' = EReturned ∧
                    callable i' = callable i ∧ future_valid i' = true)
    as Hpush.
  { intros s1 i1 tr1 Hd1 Hstop1 Hi1 Hpc1 Hb1 Hv1.
    destruct (call_pushes _ _ _ Hd1 Hstop1 Hi1 Hpc1) as (s2 & Hs & Hd2 & Hi2).
    destruct (Hsignal s2 _ (tr1 ++ [EvPush h]) Hd2 Hi2)
      as (acts & tr' & s' & Hrun & Hlen & Hd' & Hin & Hi'); [done..| |].
    { rewrite !elem_of_app, list_elem_of_singleton. auto. }
    exists (ACaller h None :: acts), (EvPush h :: tr'), s'.
    simpl in *. rewrite Hs, Hrun. split_and!; [done|lia|done| |done].
    rewrite <- !app_assoc in Hin. done. }
  assert (∀ s1 i1 tr1, dtor s1 = DAlive → stop s1 = false →
            queue_mutex s1 = None → invocations s1 !! h = Some i1 →
            pc i1 = EConstructed → callable i1 = callable i →
            future_valid i1 = true →
            ∃ acts tr' s', run acts s1 = Some (tr', s') ∧ length acts ≤ 3 ∧
              dtor s' = DAlive ∧ EvPush h ∈ tr ++ tr1 ++ tr' ∧
              ∃ i', invocations s' !! h = Some i' ∧ pc i' = EReturned ∧
                    callable i' = callable i ∧ future_valid i' = true)
    as Hlock.
  { intros s1 i1 tr1 Hd1 Hstop1 Hm1 Hi1 Hpc1 Hb1 Hv1.
    destruct (call_locks _ _ _ Hd1 Hm1 Hi1 Hpc1)
      as (s2 & Hs & Hd2 & Hstop2 & Hi2).
    destruct (Hpush s2 (set_pc ELocked i1) (tr1 ++ [EvLock (Caller h)]) Hd2)
      as (acts & tr' & s' & Hrun & Hlen & Hd' & Hin & Hi');
      [congruence|done..|].
    exists (ACaller h None :: acts), (EvLock (Caller h) :: tr'), s'.
    simpl in *. rewrite Hs, Hrun. split_and!; [done|lia|done| |done].
    rewrite <- !app_assoc in Hin. done. }
  destruct (pc i) eqn:Hpci; [| | | |done].
  - destruct (queue_mutex s) as [t|] eqn:Hm.
    + destruct (holder_releases _ _ _ Hwf Hm)
        as (a & e & s1 & Hs & Hm1 & _ & _ & Hdt & Hinv); [by rewrite Hd|].
      assert (dtor s1 = DAlive) as Hd1.
      { rewrite Hdt; [done|]. intros ->.
        apply (wf_mutex _ _ Hwf) in Hm. simpl in Hm. congruence. }
      assert (invocations s1 !! h = Some i) as Hi1.
      { rewrite Hinv; [done|]. intros ->.
        apply (wf_mutex _ _ Hwf) in Hm as (i' & ? & ?). congruence. }
      assert (stop s1 = false) as Hstop1.
      { rewrite (wf_stop threads s1), Hd1; [done|].
        eapply reachable_wf. by eapply reachable_step. }
      destruct (Hlock s1 i [e] Hd1 Hstop1 Hm1 Hi1)
        as (acts & tr' & s' & Hrun & Hlen & Hd' & Hin & Hi'); [done..|].
      exists (a :: acts), (e :: tr'), s'. simpl in *. rewrite Hs, Hrun.
      split_and!; [done|lia|done..].
    + destruct (Hlock s i [] Hd Hstop Hm Hi)
        as (acts & tr' & s' & Hrun & Hlen & Hd' & Hin & Hi'); [done..|].
      exists acts, tr', s'. split_and!; [done|lia|done..].
  - destruct (Hpush s i [] Hd Hstop Hi)
      as (acts & tr' & s' & Hrun & Hlen & Hd' & Hin & Hi'); [done..|].
    exists acts, tr', s'. split_and!; [done|lia|done..].
  - destruct (Hnr h). apply (ev_reject _ _ _ He). eauto.
  - destruct (Hsignal s i [] Hd Hi)
      as (acts & tr' & s' & Hrun & Hlen & Hd' & Hin & Hi'); [done..| |].
    { rewrite app_nil_r. apply elem_of_pushed, (hist_pushed _ _ Hh). eauto. }
    exists acts, tr', s'. split_and!; [done|lia|done..].
Qed.

(** ** A thread that uses the pool *)

Implicit Types (code : list (op return_type exn)) (v : view return_type exn).
Implicit Types (o : op return_type exn) (cs : list choice).

Lemma schedule_app code cs1 : ∀ cs2,
  schedule code (cs1 ++ cs2)
  = schedule code cs1 ++ schedule (drop (mains cs1) code) cs2.
Proof.
  revert code. induction cs1 as [|c cs1 IH]; intros code cs2; [done|].
  destruct c as [pick|w|w]; simpl.
  - destruct code as [|o code]; simpl.
    + rewrite IH. by rewrite drop_nil.
    + by rewrite IH.
  - by rewrite IH.
  - by rewrite IH.
Qed.

Lemma reads_snoc tr e :
  reads (tr ++ [e]) = reads tr ++ match e with EvGet h _ => [h] | _ => [] end.
Proof. unfold reads. rewrite omap_app. f_equal. by destruct e. Qed.

Lemma fmap_insert_same {X Y} (g : X → Y) (l : list X) j x y :
  l !! j = Some x → g y = g x → g <$> <[j := y]> l = g <$> l.
Proof.
  intros Hl Hg. rewrite list_fmap_insert, Hg. apply list_insert_id.
  by rewrite list_lookup_fmap, Hl.
Qed.

Lemma fmap_abandon_all {Y} (g : invocation return_type exn → Y) q
    (l : list (invocation return_type exn)) :
  (∀ i, g (abandon i) = g i) → g <$> abandon_all q l = g <$> l.
Proof.
  intros Hg. apply list_eq. intros j.
  rewrite !list_lookup_fmap, abandon_all_lookup.
  destruct (l !! j) as [i|]; simpl; [|done]. case_decide; simpl; by rewrite ?Hg.
Qed.

(** The steps of the workers are not seen. *)
Lemma view_worker tr s a e s' :
  (∃ w, a = AWorker w ∨ a = AWake w) → step a s = Some (e, s') →
  view_of (tr ++ [e]) s' = view_of tr s.
Proof.
  intros [w [-> | ->]] Hs; simpl in Hs; unfold view_of; rewrite reads_snoc.
  - unfold worker_step in Hs.
    repeat case_match; simplify_eq/=; rewrite ?app_nil_r; try done.
    + unfold claim_event in *. by case_match.
    + unfold invoke in *. case_match; simplify_eq.
      by rewrite !(fmap_insert_same _ _ _ i).
  - unfold wake_step in Hs.
    repeat case_match; simplify_eq/=; by rewrite ?app_nil_r.
Qed.

(** A step of the thread does to the pool what the thread expects of it. *)
Lemma view_client threads tr s o pick e s' v' :
  reachable threads tr s → step (op_action o pick) s = Some (e, s') →
  client_step threads o (view_of tr s) = Some v' →
  view_of (tr ++ [e]) s' = v'.
Proof.
  intros Hr Hs Hv. pose proof (reachable_wf _ _ _ Hr) as Hwf.
  unfold view_of in *. rewrite reads_snoc.
  destruct o as [b|h|h|]; simpl in *.
  - unfold enqueue_construct in Hs.
    destruct (dtor s) eqn:Hd; simplify_eq/=. rewrite app_nil_r, Hd.
    f_equal; [apply (fmap_app pc)|].
    exact (fmap_app (B:=bound return_type exn) callable _ [_]).
  - destruct (dtor s) eqn:Hd; try done.
    assert (stop s = false) as Hstop by (by rewrite (wf_stop _ _ Hwf), Hd).
    rewrite list_lookup_fmap in Hv. unfold enqueue_step in Hs.
    rewrite Hd, Hstop in Hs. simpl in Hs.
    destruct (invocations s !! h) as [i|] eqn:Hi; simpl in *; [|done].
    destruct (pc i) eqn:Hpc; simplify_eq.
    + destruct (queue_mutex s); simplify_eq/=. rewrite app_nil_r, Hd.
      f_equal; [apply list_fmap_insert|by apply (fmap_insert_same _ _ _ i)].
    + simpl. rewrite app_nil_r, Hd.
      f_equal; [apply list_fmap_insert|by apply (fmap_insert_same _ _ _ i)].
    + destruct (notify_one pick (workers s)); simplify_eq/=.
      rewrite app_nil_r, Hd.
      f_equal; [apply list_fmap_insert|by apply (fmap_insert_same _ _ _ i)].
  - rewrite list_lookup_fmap in Hv. unfold get_step in Hs.
    destruct (invocations s !! h) as [i|] eqn:Hi; simpl in *; [|done].
    destruct (pc i) eqn:Hpc; simplify_eq.
    destruct (future_get (future_valid i) (cell i)); simplify_eq/=.
    f_equal; by apply (fmap_insert_same _ _ _ i).
  - unfold dtor_step in Hs.
    destruct (dtor s) as [| | |k|] eqn:Hd; simplify_eq/=.
    + destruct (queue_mutex s); simplify_eq/=. by rewrite app_nil_r.
    + by rewrite app_nil_r.
    + by rewrite app_nil_r.
    + destruct (workers s !! k) as [p|] eqn:Hw.
      * destruct p; simplify_eq/=. rewrite app_nil_r.
        apply lookup_lt_Some in Hw. rewrite (wf_workers _ _ Hwf) in Hw.
        by rewrite decide_True.
      * simplify_eq/=. rewrite app_nil_r.
        apply lookup_ge_None in Hw. rewrite (wf_workers _ _ Hwf) in Hw.
        rewrite decide_False by lia.
        f_equal; apply fmap_abandon_all; auto using abandon_pc, abandon_callable.
Qed.
Lemma client_run_app threads code1 code2 v :
  client_run threads (code1 ++ code2) v
  = client_run threads code1 v ≫= client_run threads code2.
Proof.
  revert v. induction code1 as [|o code1 IH]; intros v; simpl; [done|].
  destruct (client_step threads o v); simpl; [apply IH|done].
Qed.

Lemma mains_snoc cs c :
  mains (cs ++ [c])
  = mains cs + match c with Main _ => 1 | _ => 0 end.
Proof.
  unfold mains. rewrite List.filter_app, length_app. by destruct c.
Qed.

(** Where the thread has got to in its code, it sees of the pool what its
    code run on its own gives. *)
Lemma client_views threads code vfin cs :
  client_run threads code (view_of [] (ThreadPool threads)) = Some vfin →
  ∀ tr s, run (schedule code cs) (ThreadPool threads) = Some (tr, s) →
          client_run threads (take (mains cs) code)
            (view_of [] (ThreadPool threads))
          = Some (view_of tr s).
Proof.
  intros Hfin. induction cs as [|c cs IH] using rev_ind; intros tr s Hrun.
  { simpl in Hrun. simplify_eq. by rewrite take_0. }
  rewrite schedule_app, run_app in Hrun.
  destruct (run (schedule code cs) (ThreadPool threads))
    as [[tr1 s1]|] eqn:Hrun1; [|done].
  specialize (IH _ _ eq_refl). rewrite mains_snoc.
  assert (reachable threads tr1 s1) as Hr1 by (by eexists).
  destruct c as [pick|w|w]; cbn -[step] in Hrun.
  - destruct (drop (mains cs) code) as [|o rest] eqn:Hdrop.
    + simpl in Hrun. simplify_eq. rewrite app_nil_r.
      apply drop_nil_inv in Hdrop.
      rewrite take_ge by lia. by rewrite take_ge in IH by lia.
    + cbn -[step] in Hrun.
      destruct (step (op_action o pick) s1) as [[e s2]|] eqn:Hs; [|done].
      simplify_eq/=.
      assert (code !! mains cs = Some o) as Ho.
      { rewrite <- (Nat.add_0_r (mains cs)), <- lookup_drop. by rewrite Hdrop. }
      rewrite Nat.add_1_r, (take_S_r _ _ _ Ho), client_run_app, IH. simpl.
      rewrite <- (take_drop (mains cs) code), Hdrop, client_run_app, IH in Hfin.
      simpl in Hfin.
      destruct (client_step threads o (view_of tr1 s1)) as [v'|] eqn:Hv;
        [|done].
      by rewrite (view_client _ _ _ _ _ _ _ _ Hr1 Hs Hv).
  - destruct (step (AWorker w) s1) as [[e s2]|] eqn:Hs; [|done].
    simplify_eq/=. rewrite Nat.add_0_r, IH.
    by rewrite (view_worker tr1 s1 (AWorker w) e s); eauto.
  - destruct (step (AWake w) s1) as [[e s2]|] eqn:Hs; [|done].
    simplify_eq/=. rewrite Nat.add_0_r, IH.
    by rewrite (view_worker tr1 s1 (AWake w) e s); eauto.
Qed.
Lemma elem_of_reads tr h : h ∈ reads tr ↔ ∃ r, EvGet h r ∈ tr.
Proof.
  unfold reads. rewrite list_elem_of_omap. split.
  - intros (e & Hin & He). destruct e; simplify_eq. eauto.
  - intros [r Hin]. by exists (EvGet h r).
Qed.

(** The first read of a handle, in a pool with workers, returns what the
    callable did. *)
Lemma first_read threads l1 h r l2 s :
  reachable threads (l1 ++ EvGet h r :: l2) s → 0 < threads →
  h ∉ reads l1 →
  ∃ i, invocations s !! h = Some i ∧ r = get_of (callable i ()).
Proof.
  intros Hr Hpos Hnot.
  destruct (reachable_cut _ _ _ _ _ Hr)
    as (s1 & s2 & acts & Hr1 & Hs & Hr2 & Hrun).
  pose proof (reachable_hist _ _ _ Hr1) as Hh1.
  inversion Hs as [ | | | | | | | | | | | | | | | | |h' i r' Hi Hpc Hget];
    simplify_eq.
  destruct (run_callable acts _ _ _ h (set_future_valid false i) Hrun)
    as (i' & Hi' & Hcall).
  { simpl. apply list_lookup_insert_eq. by eapply lookup_lt_Some. }
  exists i'. split; [done|]. rewrite Hcall. simpl.
  destruct (future_valid i) eqn:Hv.
  - destruct (cell i) as [|o|] eqn:Hc; [done| |].
    + destruct (hist_ready _ _ Hh1 _ _ _ Hi Hc) as [-> _].
      rewrite future_get_ready in Hget. by simplify_eq.
    + destruct (hist_broken _ _ Hh1 _ _ Hi Hc) as [?|Hin]; [congruence|].
      rewrite (abandoned_nil _ _ _ Hr1 Hpos) in Hin. by apply elem_of_nil in Hin.
  - apply (future_spent _ _ _ Hr1 _ _ Hi) in Hv as [?|[r' Hin]]; [congruence|].
    destruct Hnot. apply elem_of_reads. eauto.
Qed.

(** ** The next step of the thread can always be reached *)

Lemma view_workers (wl : list nat) : ∀ tr s tr' s',
  run (AWorker <$> wl) s = Some (tr', s') →
  view_of (tr ++ tr') s' = view_of tr s.
Proof.
  induction wl as [|w wl IH]; intros tr s tr' s' Hrun.
  - simpl in Hrun. simplify_eq. by rewrite app_nil_r.
  - rewrite fmap_cons in Hrun.
    apply run_cons in Hrun as (e & s1 & tr1 & Hs & Hrun & ->).
    rewrite (cons_middle e), app_assoc, (IH _ _ _ _ Hrun).
    apply (view_worker _ _ (AWorker w)); eauto.
Qed.

Lemma worker_releases threads s w :
  wf threads s → queue_mutex s = Some (Worker w) →
  ∃ e s', step (AWorker w) s = Some (e, s') ∧ queue_mutex s' = None.
Proof.
  intros Hwf Hm. apply (wf_mutex _ _ Hwf) in Hm. simpl in Hm.
  destruct (worker_claim (stop s) (tasks s)) as [p q] eqn:Hc.
  simpl. unfold worker_step. rewrite Hm, Hc. eauto.
Qed.

Lemma holder_is_worker threads s t :
  wf threads s → queue_mutex s = Some t → dtor s ≠ DLocked →
  (∀ h i, invocations s !! h = Some i → pc i ≠ ELocked) →
  ∃ w, t = Worker w.
Proof.
  intros Hwf Hm Hd Hpc. apply (wf_mutex _ _ Hwf) in Hm.
  destruct t as [w|h|]; simpl in Hm; [by eauto| |done].
  destruct Hm as (i & Hi & ?). by destruct (Hpc _ _ Hi).
Qed.

(** When every call has returned, the pool is served by its workers
    alone. *)
Lemma service_workers acts : ∀ s tr s',
  forallb service_action acts = true → run acts s = Some (tr, s') →
  (∀ h i, invocations s !! h = Some i → pc i = EReturned) →
  ∃ wl : list nat, acts = AWorker <$> wl.
Proof.
  induction acts as [|a acts IH]; intros s tr s' Hall Hrun Hpc.
  { by exists []. }
  simpl in Hall. apply andb_true_iff in Hall as [Ha Hall].
  apply run_cons in Hrun as (e & s1 & tr1 & Hs & Hrun & _).
  destruct a as [|h pick|w| | |]; try done.
  - simpl in Hs. unfold enqueue_step in Hs.
    destruct (is_destroyed (dtor s)); [done|].
    destruct (invocations s !! h) as [i|] eqn:Hi; [|done].
    by rewrite (Hpc _ _ Hi) in Hs.
  - destruct (IH _ _ _ Hall Hrun) as [wl ->].
    + intros h i Hi.
      pose proof (view_worker [] s (AWorker w) e s1 ltac:(eauto) Hs) as Hv.
      injection Hv as Hv _ _ _.
      assert ((pc <$> invocations s) !! h = Some (pc i)) as Hp
        by (by rewrite <- Hv, list_lookup_fmap, Hi).
      rewrite list_lookup_fmap in Hp.
      destruct (invocations s !! h) as [i0|] eqn:Hi0; [|done].
      injection Hp as Hp. rewrite <- Hp. eauto.
    + by exists (w :: wl).
Qed.
Lemma view_pcs tr s tr' s' h i :
  view_of tr' s' = view_of tr s → invocations s !! h = Some i →
  ∃ i', invocations s' !! h = Some i' ∧ pc i' = pc i.
Proof.
  intros Hv Hi. injection Hv as Hv _ _ _.
  assert ((pc <$> invocations s') !! h = Some (pc i)) as Hp
    by (by rewrite Hv, list_lookup_fmap, Hi).
  rewrite list_lookup_fmap in Hp.
  destruct (invocations s' !! h) as [i'|]; [|done].
  injection Hp as Hp. eauto.
Qed.

Lemma view_all_returned tr s :
  all_returned (view_of tr s) ↔
  ∀ h i, invocations s !! h = Some i → pc i = EReturned.
Proof.
  unfold all_returned. simpl. split.
  - intros H h i Hi. apply (H h). by rewrite list_lookup_fmap, Hi.
  - intros H h p Hp. rewrite list_lookup_fmap in Hp.
    destruct (invocations s !! h) as [i|] eqn:Hi; simplify_eq/=. eauto.
Qed.

(** While the destructor waits in [join] for a worker, some worker can take
    a step. *)
Lemma join_progress threads tr s j p :
  reachable threads tr s → dtor s = DJoining j →
  workers s !! j = Some p → p ≠ WExited →
  (∀ h i, invocations s !! h = Some i → pc i ≠ ELocked) →
  ∃ w e s', step (AWorker w) s = Some (e, s').
Proof.
  intros Hr Hd Hw Hp Hpc.
  pose proof (reachable_wf _ _ _ Hr) as Hwf.
  pose proof (reachable_hist _ _ _ Hr) as Hh.
  pose proof (reachable_evts _ _ _ Hr) as He.
  destruct (queue_mutex s) as [t|] eqn:Hm.
  - destruct (holder_is_worker _ _ _ Hwf Hm) as [w ->];
      [by rewrite Hd|done|].
    destruct (worker_releases _ _ _ Hwf Hm) as (e & s' & Hs & _). eauto.
  - exists j. simpl. unfold worker_step. rewrite Hw, Hm.
    destruct p as [| | | |h| |]; try done; eauto.
    + assert (holds s (Worker j)) as Hk by done.
      apply (wf_mutex _ _ Hwf) in Hk. congruence.
    + destruct (wf_awake _ _ Hwf) with (w := j); [by rewrite Hd|done].
    + assert (h ∈ pushed tr) as Hin.
      { eapply dequeued_pushed; [done|]. eapply running_dequeued; [done|].
        apply elem_of_running. eauto. }
      apply (hist_pushed _ _ Hh) in Hin as (i & Hi & _).
      rewrite Hi. destruct (invoke i); eauto.
    + by destruct (ev_crash _ _ _ He j).
Qed.

(** The worker the destructor waits for comes to its [return], by the steps
    of the workers alone. *)
Lemma join_ready threads m : ∀ tr s j,
  reachable threads tr s → dtor s = DJoining j → j < threads →
  (∀ h i, invocations s !! h = Some i → pc i = EReturned) →
  work_left threads s ≤ m →
  ∃ (wl : list nat) tr' s',
    run (AWorker <$> wl) s = Some (tr', s') ∧
    workers s' !! j = Some WExited ∧ dtor s' = DJoining j.
Proof.
  induction m as [|m IH]; intros tr s j Hr Hd Hj Hpc Hm.
  all: pose proof (reachable_wf _ _ _ Hr) as Hwf.
  all: assert (stop s = true) as Hstop by (by rewrite (wf_stop _ _ Hwf), Hd).
  all: assert (∃ p, workers s !! j = Some p) as [p Hw]
         by (apply lookup_lt_is_Some; by rewrite (wf_workers _ _ Hwf)).
  all: destruct (decide (p = WExited)) as [->|Hp];
         [by exists [], [], s|].
  all: destruct (join_progress _ _ _ _ _ Hr Hd Hw Hp) as (w & e & s1 & Hs);
         [intros h i Hi; by rewrite (Hpc _ _ Hi)|].
  all: pose proof (pool_step_decreases _ (AWorker w) _ _ _ Hwf Hstop eq_refl Hs)
         as Hlt.
  { lia. }
  destruct (IH (tr ++ [e]) s1 j) as (wl & tr' & s' & Hrun & Hex & Hd');
    [by eapply reachable_step|by rewrite (service_dtor (AWorker w) _ _ _ eq_refl Hs)|
     done| |lia|].
  { apply view_all_returned with (tr := tr ++ [e]).
    rewrite (view_worker tr s (AWorker w) e s1); [|by eauto|done].
    by apply view_all_returned. }
  exists (w :: wl), (e :: tr'), s'. split_and!; [|done..].
  rewrite fmap_cons. cbn -[step]. by rewrite Hs, Hrun.
Qed.
(** Whatever the workers are doing, the next step of a thread that uses the
    pool one call at a time can be taken, at the latest after some steps of
    the workers. *)
Lemma client_enabled threads tr s o v' :
  reachable threads tr s → 0 < threads →
  client_step threads o (view_of tr s) = Some v' →
  sequential (view_of tr s) o →
  ∃ (wl : list nat) tr1 s1 pick e s2,
    run (AWorker <$> wl) s = Some (tr1, s1) ∧
    step (op_action o pick) s1 = Some (e, s2).
Proof.
  intros Hr Hpos Hv Hseq.
  pose proof (reachable_wf _ _ _ Hr) as Hwf.
  pose proof (reachable_hist _ _ _ Hr) as Hh.
  assert (∀ s0, (∃ pick e s2, step (op_action o pick) s0 = Some (e, s2)) →
            ∃ (wl : list nat) tr1 s1 pick e s2,
              run (AWorker <$> wl) s0 = Some (tr1, s1) ∧
              step (op_action o pick) s1 = Some (e, s2)) as Hnow.
  { intros s0 (pick & e & s2 & Hs). by exists [], [], s0, pick, e, s2. }
  assert (∀ w e s1, step (AWorker w) s = Some (e, s1) →
            (∃ pick e s2, step (op_action o pick) s1 = Some (e, s2)) →
            ∃ (wl : list nat) tr1 s1 pick e s2,
              run (AWorker <$> wl) s = Some (tr1, s1) ∧
              step (op_action o pick) s1 = Some (e, s2)) as Hone.
  { intros w e s1 Hs1 (pick & e2 & s2 & Hs).
    exists [w], [e], s1, pick, e2, s2. split; [|done].
    cbn -[step]. by rewrite Hs1. }
  destruct o as [b|h|h|]; simpl in Hv, Hseq.
  - apply Hnow. exists None. simpl. unfold enqueue_construct.
    destruct (dtor s); try done. eauto.
  - destruct (dtor s) eqn:Hd; try done.
    assert (stop s = false) as Hstop by (by rewrite (wf_stop _ _ Hwf), Hd).
    rewrite list_lookup_fmap in Hv.
    destruct (invocations s !! h) as [i|] eqn:Hi; [|done]. simpl in Hv.
    destruct (pc i) eqn:Hpc; try done.
    + destruct (queue_mutex s) as [t|] eqn:Hm.
      * destruct (holder_is_worker _ _ _ Hwf Hm) as [w ->]; [by rewrite Hd| |].
        { intros h' i' Hi'. destruct (decide (h' = h)) as [->|Hne].
          - assert (i' = i) as -> by congruence. congruence.
          - rewrite (Hseq h' (pc i') Hne); [done|].
            by rewrite list_lookup_fmap, Hi'. }
        destruct (worker_releases _ _ _ Hwf Hm) as (e & s1 & Hs1 & Hm1).
        apply (Hone w e s1 Hs1).
        destruct (view_pcs tr s (tr ++ [e]) s1 h i) as (i1 & Hi1 & Hpc1);
          [by apply (view_worker _ _ (AWorker w)); eauto|done|].
        destruct (call_locks s1 h i1) as (s' & Hs & _);
          [by rewrite (service_dtor (AWorker w) _ _ _ eq_refl Hs1)|
           done..|congruence|].
        by exists None, (EvLock (Caller h)), s'.
      * apply Hnow. exists None.
        destruct (call_locks _ _ _ Hd Hm Hi Hpc) as (s' & Hs & _). eauto.
    + apply Hnow. exists None.
      destruct (call_pushes _ _ _ Hd Hstop Hi Hpc) as (s' & Hs & _). eauto.
    + apply Hnow.
      destruct (call_signals _ _ _ Hd Hi Hpc) as (pick & s' & Hs & _). eauto.
  - destruct Hseq as [Hall Hd].
    rewrite list_lookup_fmap in Hv.
    destruct (invocations s !! h) as [i|] eqn:Hi; [|done]. simpl in Hv.
    destruct (pc i) eqn:Hpc; try done.
    destruct (service_completes threads (service_left s) tr s)
      as (acts & tr' & s' & Hserv & Hrun & Hrest); [done..|].
    destruct (service_workers _ _ _ _ Hserv Hrun) as [wl ->].
    { by apply (view_all_returned tr). }
    assert (h ∈ pushed (tr ++ tr')) as Hin.
    { apply elem_of_pushed, elem_of_app. left.
      apply elem_of_pushed, (hist_pushed _ _ Hh). eauto. }
    destruct (at_rest_served threads (tr ++ tr') s') as (_ & _ & Hdone);
      [by eapply reachable_run|
       by eapply (service_run _ threads tr s)|done|].
    destruct (Hdone h Hin) as (i' & Hi' & Hpc' & Hc & _).
    assert (∃ r, future_get (future_valid i') (cell i') = Some r) as [r Hget].
    { rewrite Hc. destruct (future_valid i'), (callable i' ()); simpl; eauto. }
    exists wl, tr', s', None, (EvGet h r). eexists. split; [done|].
    simpl. unfold get_step. by rewrite Hi', Hpc', Hget.
  - destruct (dtor s) as [| | |j|] eqn:Hd; try done.
    + destruct (queue_mutex s) as [t|] eqn:Hm.
      * destruct (holder_is_worker _ _ _ Hwf Hm) as [w ->]; [by rewrite Hd| |].
        { intros h i Hi. by rewrite (proj1 (view_all_returned tr s) Hseq _ _ Hi). }
        destruct (worker_releases _ _ _ Hwf Hm) as (e & s1 & Hs1 & Hm1).
        apply (Hone w e s1 Hs1). exists None. simpl. unfold dtor_step.
        rewrite (service_dtor (AWorker w) _ _ _ eq_refl Hs1), Hd, Hm1. eauto.
      * apply Hnow. exists None. simpl. unfold dtor_step. rewrite Hd, Hm. eauto.
    + apply Hnow. exists None. simpl. unfold dtor_step. rewrite Hd. eauto.
    + apply Hnow. exists None. simpl. unfold dtor_step. rewrite Hd. eauto.
    + destruct (decide (j < threads)) as [Hj|Hj].
      * destruct (join_ready threads (work_left threads s) tr s j)
          as (wl & tr' & s' & Hrun & Hex & Hd'); [done..| |done|].
        { by apply (view_all_returned tr). }
        exists wl, tr', s', None. do 2 eexists. split; [done|].
        simpl. unfold dtor_step. by rewrite Hd', Hex.
      * apply Hnow. exists None. simpl. unfold dtor_step. rewrite Hd.
        rewrite (proj2 (lookup_ge_None _ _)); [by eauto|].
        rewrite (wf_workers _ _ Hwf). lia.
Qed.
Lemma mains_app cs1 cs2 : mains (cs1 ++ cs2) = mains cs1 + mains cs2.
Proof. unfold mains. by rewrite List.filter_app, length_app. Qed.

Lemma schedule_works code (wl : list nat) :
  schedule code (Work <$> wl) = AWorker <$> wl ∧ mains (Work <$> wl) = 0.
Proof.
  induction wl as [|w wl [IH1 IH2]]; [done|].
  rewrite !fmap_cons. simpl. by rewrite IH1.
Qed.

(** A thread that uses the pool one call at a time, and whose code runs
    through on a pool that lives, can be scheduled to the end of its code
    from wherever it and the workers stand. *)
Lemma client_can_finish threads code vfin :
  0 < threads →
  client_run threads code (view_of [] (ThreadPool threads)) = Some vfin →
  (∀ k o v, code !! k = Some o →
            client_run threads (take k code) (view_of [] (ThreadPool threads))
            = Some v →
            sequential v o) →
  ∀ n cs tr s,
    run (schedule code cs) (ThreadPool threads) = Some (tr, s) →
    length code ≤ mains cs + n →
    ∃ cs' tr' s',
      run (schedule code (cs ++ cs')) (ThreadPool threads)
      = Some (tr ++ tr', s') ∧
      view_of (tr ++ tr') s' = vfin.
Proof.
  intros Hpos Hfin Hseq.
  assert (∀ cs tr s,
            run (schedule code cs) (ThreadPool threads) = Some (tr, s) →
            length code ≤ mains cs → view_of tr s = vfin) as Hdone.
  { intros cs tr s Hrun Hlen.
    pose proof (client_views _ _ _ cs Hfin _ _ Hrun) as Hv.
    rewrite take_ge in Hv by done. congruence. }
  induction n as [|n IH]; intros cs tr s Hrun Hlen.
  { exists [], [], s. rewrite !app_nil_r. split; [done|].
    apply (Hdone cs); [done|lia]. }
  destruct (decide (length code ≤ mains cs)) as [Hle|Hlt].
  { exists [], [], s. rewrite !app_nil_r. split; [done|]. by apply (Hdone cs). }
  assert (∃ o, code !! mains cs = Some o) as [o Ho]
    by (apply lookup_lt_is_Some; lia).
  pose proof (client_views _ _ _ cs Hfin _ _ Hrun) as Hv.
  assert (reachable threads tr s) as Hr by (by eexists).
  assert (∃ v', client_step threads o (view_of tr s) = Some v') as [v' Hv'].
  { rewrite <- (take_drop_middle _ _ _ Ho), client_run_app, Hv in Hfin.
    simpl in Hfin. destruct (client_step threads o (view_of tr s)); [|done].
    eauto. }
  destruct (client_enabled _ _ _ _ _ Hr Hpos Hv')
    as (wl & tr1 & s1 & pick & e & s2 & Hrun1 & Hs2).
  { by apply (Hseq (mains cs)). }
  destruct (schedule_works (drop (mains cs) code) wl) as [Hsw Hm0].
  assert (run (schedule code ((cs ++ (Work <$> wl)) ++ [Main pick]))
            (ThreadPool threads)
          = Some ((tr ++ tr1) ++ [e], s2)) as Hrun2.
  { rewrite !schedule_app, !run_app, Hrun, Hsw, Hrun1.
    rewrite mains_app, Hm0, Nat.add_0_r.
    rewrite (drop_S _ _ _ Ho). cbn -[step]. by rewrite Hs2. }
  destruct (IH _ _ _ Hrun2) as (cs' & tr' & s' & Hrun' & Hfinal).
  { rewrite !mains_app, Hm0. change (mains [Main pick]) with 1. lia. }
  exists ((Work <$> wl) ++ Main pick :: cs'), (tr1 ++ e :: tr'), s'.
  rewrite <- !app_assoc in Hrun'. rewrite <- !app_assoc in Hfinal. done.
Qed.

(** ** The destructor, step by step *)

Lemma exited_event threads tr s :
  reachable threads tr s → ∀ w, workers s !! w = Some WExited → EvExit w ∈ tr.
Proof.
  revert tr s.
  apply (reachable_ind threads
           (λ tr s, ∀ w, workers s !! w = Some WExited → EvExit w ∈ tr)).
  { intros w Hw. rewrite ThreadPool_workers in Hw.
    by apply lookup_replicate in Hw as [? _]. }
  intros tr s a e s' Hr IH Hs%step_sound w Hw. apply elem_of_app.
  destruct Hs; simpl in Hw; try (left; by apply IH).
  all: try (apply list_lookup_insert_Some in Hw as [(-> & ? & ?)|[? Hw]];
            [try done|left; by apply IH]).
  - left. apply IH.
    destruct (notify_one_lookup _ _ _ _ _ Ews Hw) as [?|(_ & ? & _)]; done.
  - right. by apply list_elem_of_singleton.
  - left. apply IH. by apply notify_all_lookup_Some in Hw as [[? _]|[_ ?]].
Qed.

(** What [~ThreadPool] has done is, at any moment, the beginning of its
    code: the lock, the flag, [notify_all], the joins of the workers in
    their order, the members; each once.  It passes [join] of a worker only
    after that worker has returned, and a worker returns only after the
    flag was set. *)
Theorem destructor_follows_its_code threads tr s :
  reachable threads tr s →
  dtor_events tr = dtor_script threads (dtor s) (abandoned tr) ∧
  (∀ w, EvJoin w ∈ tr →
        w < threads ∧ before (EvExit w) (EvJoin w) tr ∧
        before EvStop (EvExit w) tr) ∧
  (∀ q, EvDestroy q ∈ tr →
        dtor s = DDestroyed ∧ q = abandoned tr ∧
        ∀ w, w < threads → EvJoin w ∈ tr).
Proof.
  intros Hr. pose proof (reachable_wf _ _ _ Hr) as Hwf.
  pose proof (reachable_evts _ _ _ Hr) as He.
  split; [apply (ev_dtor _ _ _ He)|]. split.
  - intros w Hin.
    pose proof Hin as (l1 & l2 & ->)%list_elem_of_split.
    destruct (reachable_cut _ _ _ _ _ Hr) as (s1 & s2 & _ & Hr1 & Hs & _).
    inversion Hs as [ | | | | | | | | | | | | | | |k Hd Hw| | ]; simplify_eq.
    pose proof (reachable_wf _ _ _ Hr1) as Hwf1.
    split_and!.
    + apply lookup_lt_Some in Hw. by rewrite (wf_workers _ _ Hwf1) in Hw.
    + apply (exited_event _ _ _ Hr1) in Hw as (la & lb & ->)%list_elem_of_split.
      exists la, lb, l2. by rewrite <- app_assoc.
    + apply (exited_event _ _ _ Hr1) in Hw as (la & lb & ->)%list_elem_of_split.
      destruct (reachable_cut _ _ _ _ _ Hr1) as (sa & sb & _ & Hra & Hsa & _).
      inversion Hsa; simplify_eq.
      assert (EvStop ∈ la) as (lc & ld & ->)%list_elem_of_split.
      { by apply (stop_event threads la sa);
          eauto using reachable_wf, reachable_evts. }
      exists lc, ld, (lb ++ EvJoin w :: l2). by rewrite <- !app_assoc.
  - intros q Hin. apply (destroy_event _ _ _ _ He) in Hin as [Hd ->].
    split_and!; [done..|]. intros w Hw.
    apply (elem_of_dtor_events _ (EvJoin w)); [done|].
    rewrite (ev_dtor _ _ _ He), elem_of_dtor_script, Hd.
    do 3 right. left. eauto.
Qed.

(** ** A wake-up for nothing *)

(** A worker that is woken (spuriously or not) while the queue is empty and
    the flag is down takes the mutex, finds the predicate false and is back
    inside [wait]: the pool is as it was. *)
Theorem spurious_wakeup_is_harmless s w :
  workers s !! w = Some WWaiting → queue_mutex s = None →
  tasks s = [] → stop s = false →
  run [AWake w; AWorker w; AWorker w] s
  = Some ([EvSpurious w; EvLock (Worker w); EvWait w], s).
Proof.
  intros Hw Hm Ht Hstop.
  pose proof (lookup_lt_Some _ _ _ Hw) as Hlt.
  destruct s as [ws q m st inv d]. simpl in *. subst.
  unfold wake_step, worker_step, set_worker. simpl. rewrite Hw. simpl.
  rewrite list_lookup_insert_eq by done. simpl.
  rewrite list_lookup_insert_eq by (by rewrite length_insert). simpl.
  unfold with_workers, with_tasks, with_mutex. simpl.
  rewrite !list_insert_insert_eq, list_insert_id by done. done.
Qed.

(** ** Any thread that uses the pool one call at a time *)




End Proofs.

(** * Concrete runs *)


Lemma C2_destruction_drains_witness :
  0 < 4 ∧ drained example_trace example_state.
Proof.
  split; [lia|].
  destruct (C2_destruction_drains (return_type:=Z) (exn:=nat) 4) as [H _];
    [lia|].
  apply H; [|reflexivity]. exists example_main. reflexivity.
Defined.

(** C2 as stated, for every pool, fails: a pool made with no workers returns
    from its destructor with the accepted task never run. *)
Lemma C2_no_workers_no_drain :
  ¬ drains_on_destruction (return_type:=Z) (exn:=nat) 0.
Proof.
  intros H.
  destruct (H no_workers_trace no_workers_state) as (_ & _ & _ & Hp & _).
  - exists no_workers. reflexivity.
  - reflexivity.
  - destruct (Hp 0) as [Hx _]; [by left|]. by apply elem_of_nil in Hx.
Qed.

Lemma C3_enqueue_after_stop_witness :
  EvStop ∈ [EvLock Destructor; EvStop (return_type:=Z) (exn:=nat)] ∧
  EvPush 0 ∉
    [EvLock Destructor; EvStop] ++
    EvCall (return_type:=Z) (exn:=nat) 0 :: [EvLock (Caller 0); EvReject 0].
Proof.
  assert (EvStop ∈ [EvLock Destructor; EvStop (return_type:=Z) (exn:=nat)])
    as Hstop by (right; left).
  split; [exact Hstop|].
  refine (proj1 (C3_enqueue_after_stop 1 _ 0 _ late_call_state _ Hstop)).
  exists late_call. reflexivity.
Defined.

Lemma C4_fifo_witness :
  reachable 4 example_trace example_state ∧
  pushed example_trace
  = dequeued example_trace ++ tasks example_state ++ abandoned example_trace ∧
  ∃ wa, before (EvDequeue wa 0) (EvDequeue 1 1) example_trace.
Proof.
  assert (reachable 4 example_trace example_state) as Hr
    by (exists example_main; reflexivity).
  destruct (C4_fifo 4 _ _ Hr) as (Hf & _ & Ho).
  split; [exact Hr|]. split; [exact Hf|].
  destruct (Ho 0 1 (Some 0)) as [_ Hd].
  - exists [EvLock (Worker 0); EvWait 0; EvCall 0; EvLock (Caller 0); EvPush 0],
      [], (drop 7 example_trace). reflexivity.
  - apply (Hd 1). unfold example_trace. do 13 right. left.
Defined.


Lemma C6_failure_is_captured_witness :
  reachable 1 failure_then_success_trace failure_then_success_state ∧
  (∃ i, invocations failure_then_success_state !! 0 = Some i ∧
        cell i = Ready (Raised 7) ∧ callable i () = Raised 7) ∧
  executed failure_then_success_trace = [0; 1] ∧
  workers failure_then_success_state = [WIdle].
Proof.
  assert (reachable 1 failure_then_success_trace failure_then_success_state)
    as Hr by (exists failure_then_success; reflexivity).
  split; [exact Hr|].
  destruct (C6_failure_is_captured 1 _ _ Hr) as (_ & _ & Hrun & _).
  split; [|split; reflexivity].
  apply (Hrun 0 0 7). unfold failure_then_success_trace. do 10 right. left.
Defined.

Lemma C7_get_returns_the_result_witness :
  run (take 2 example_main ++ AEnqueue (bind f 1%Z) :: take 26 (drop 3 example_main))
    (ThreadPool 4)
  = Some (take 29 example_trace, example_before_get) ∧
  step (AGet 0) example_before_get
  = Some (EvGet 0 (GetValue 1%Z),
          set_invocation 0
            (set_future_valid false
               (Invocation (bind f 1%Z) (Ready (Returned 1%Z)) EReturned true))
            example_before_get).
Proof.
  assert (run (take 2 example_main
               ++ AEnqueue (bind f 1%Z) :: take 26 (drop 3 example_main))
            (ThreadPool 4)
          = Some (take 29 example_trace, example_before_get)) as Hrun
    by reflexivity.
  split; [exact Hrun|].
  destruct (C7_get_returns_the_result 4 f 1%Z _ _ _ _
              (Invocation (bind f 1%Z) (Ready (Returned 1%Z)) EReturned true)
              Hrun)
    as (_ & Hfirst & _); [reflexivity..|].
  destruct (Hfirst eq_refl) as (_ & Hget & _).
  apply (Hget 0 (Returned 1%Z)). simpl. do 28 right. left.
Defined.

(** C7 as stated fails in its last part: in the run of example.cpp the
    handle of the first task was read and gave 1; a second read of it does
    not give 1 again. *)
Lemma C7_second_get_yields_no_value :
  ¬ get_is_repeatable (return_type:=Z) (exn:=nat) 4.
Proof.
  intros H.
  destruct (H example_trace example_state 0 1%Z) as [s' Hs].
  - exists example_main. reflexivity.
  - unfold example_trace. do 29 right. left.
  - discriminate Hs.
Qed.


Lemma C9_zero_worker_pool_witness :
  reachable 0 (take 4 no_workers_trace) no_workers_queued ∧
  blocked_on_get no_workers_queued 0 ∧
  step (AGet 0) no_workers_queued = None ∧
  promise_broken no_workers_state 0.
Proof.
  assert (reachable 0 (take 4 no_workers_trace) no_workers_queued) as Hr
    by (exists (take 4 no_workers); reflexivity).
  assert (blocked_on_get no_workers_queued 0) as Hb
    by (eexists; split; [reflexivity|]; split; [reflexivity|];
        split; reflexivity).
  split; [exact Hr|]. split; [exact Hb|].
  destruct (C9_zero_worker_pool _ _ Hr) as (_ & _ & _ & _ & _ & _ & Hget).
  destruct (Hget 0 Hb) as [Hnone Hlater].
  split; [exact Hnone|].
  destruct (Hlater (drop 4 no_workers) (drop 4 no_workers_trace)
              no_workers_state eq_refl) as [_ Hbroken].
  exact (proj1 (Hbroken eq_refl)).
Defined.

(** C9 as stated fails in its last part: with a task queued in a pool made
    without workers, the caller's [get] waits; the pool is then destroyed,
    the queued task with it, and the wait is over. *)
Lemma C9_destruction_ends_the_wait :
  ¬ zero_workers_block_forever (return_type:=Z) (exn:=nat).
Proof.
  intros H.
  destruct (H (take 4 no_workers_trace) no_workers_queued 0
              (drop 4 no_workers) (drop 4 no_workers_trace) no_workers_state)
    as (i & Hi & _ & _ & Hc).
  - exists (take 4 no_workers). reflexivity.
  - eexists. split; [reflexivity|]. split; [reflexivity|]. split; reflexivity.
  - reflexivity.
  - vm_compute in Hi. injection Hi as <-. discriminate Hc.
Qed.

Lemma C10_task_built_before_the_check_witness :
  reachable 1
    ([EvLock Destructor; EvStop; EvCall 0; EvLock (Caller 0)]
       ++ EvReject 0 :: [])
    late_call_state ∧
  before (EvCall 0) (EvLock (Caller 0))
    [EvLock Destructor; EvStop; EvCall (return_type:=Z) (exn:=nat) 0;
     EvLock (Caller 0)] ∧
  ∃ b, discarded late_call_state 0 b.
Proof.
  assert (reachable 1
            ([EvLock Destructor; EvStop; EvCall 0; EvLock (Caller 0)]
               ++ EvReject 0 :: [])
            late_call_state) as Hr
    by (exists late_call; reflexivity).
  split; [exact Hr|].
  destruct (C10_task_built_before_the_check 1 _ 0 [] late_call_state Hr)
    as (Hb & b & s0 & s1 & s2 & l1 & l2 & _ & _ & _ & _ & _ & _ & _ & _ & _
        & _ & _ & _ & _ & _ & _ & _ & Hd & _).
  split; [exact Hb|]. exists b. exact Hd.
Defined.

Lemma one_worker_runs_in_order_witness :
  reachable 1 failure_then_success_trace failure_then_success_state ∧
  executed failure_then_success_trace = [0; 1] ∧
  executed failure_then_success_trace
    `prefix_of` pushed failure_then_success_trace.
Proof.
  assert (reachable 1 failure_then_success_trace failure_then_success_state)
    as Hr by (exists failure_then_success; reflexivity).
  split; [exact Hr|]. split; [reflexivity|].
  exact (proj1 (proj2 (proj2 (one_worker_runs_in_order _ _ Hr)))).
Defined.
Lemma result_is_final_witness :
  reachable 4 (take 29 example_trace) example_before_get ∧
  ∃ i, invocations example_state !! 0 = Some i ∧
       cell i = Ready (Returned 1%Z).
Proof.
  assert (reachable 4 (take 29 example_trace) example_before_get) as Hr
    by (exists (take 29 example_main); reflexivity).
  split; [exact Hr|].
  destruct (result_is_final 4 (drop 29 example_main) _ _
              (drop 29 example_trace) example_state 0
              (Invocation (bind f 1%Z) (Ready (Returned 1%Z)) EReturned true)
              Hr)
    as (i & Hi & Hc & _); [reflexivity|reflexivity|discriminate|].
  exists i. split; [exact Hi|exact Hc].
Defined.

Lemma get_once_witness :
  reachable 4
    (take 29 example_trace ++ EvGet 0 (GetValue 1%Z) :: drop 30 example_trace)
    example_state ∧
  ¬ ∃ r, EvGet 0 r ∈ take 29 example_trace.
Proof.
  assert (reachable 4
            (take 29 example_trace
               ++ EvGet 0 (GetValue 1%Z) :: drop 30 example_trace)
            example_state) as Hr
    by (exists example_main; reflexivity).
  split; [exact Hr|].
  destruct (get_once 4 _ 0 _ _ _ Hr) as (Hiff & _).
  intros Hex. apply Hiff in Hex. discriminate Hex.
Defined.

Lemma shared_data_guarded_witness :
  reachable 4 (take 29 example_trace) example_before_get ∧
  step (AWorker 1) (with_shared true [7] example_before_get)
  = prod_map id (with_shared true [7]) <$> step (AWorker 1) example_before_get.
Proof.
  assert (reachable 4 (take 29 example_trace) example_before_get) as Hr
    by (exists (take 29 example_main); reflexivity).
  split; [exact Hr|].
  apply (shared_data_guarded 4 _ _ (AWorker 1) Hr).
  - intros t _. discriminate.
  - left. discriminate.
Defined.

Lemma workers_stay_witness :
  reachable 4 (take 29 example_trace) example_before_get ∧
  length (workers example_before_get) = 4.
Proof.
  assert (reachable 4 (take 29 example_trace) example_before_get) as Hr
    by (exists (take 29 example_main); reflexivity).
  split; [exact Hr|].
  exact (proj1 (proj2 (workers_stay 4 _ _ Hr))).
Defined.

Lemma service_terminates_witness :
  forallb service_action [AWorker 0; AWorker 0 : action Z nat] = true ∧
  2 ≤ service_left (ThreadPool (return_type:=Z) (exn:=nat) 4).
Proof.
  split; [reflexivity|].
  refine (proj1 (service_terminates [AWorker 0; AWorker 0] (ThreadPool 4)
                   [EvLock (Worker 0); EvWait 0] _ eq_refl eq_refl)).
Defined.

Lemma queue_is_served_witness :
  reachable 4 (take 10 example_trace) two_queued ∧ 0 < 4 ∧
  ∃ acts tr' s', forallb service_action acts = true ∧
                 run acts two_queued = Some (tr', s') ∧ at_rest s'.
Proof.
  assert (reachable 4 (take 10 example_trace) two_queued) as Hr
    by (exists (take 10 example_main); reflexivity).
  split; [exact Hr|]. split; [lia|].
  exact (proj1 (queue_is_served 4 _ _ Hr ltac:(lia) eq_refl)).
Defined.

Lemma enqueue_is_accepted_witness :
  reachable 4 (take 10 example_trace) two_queued ∧
  ∀ h, EvReject h ∉ take 10 example_trace.
Proof.
  assert (reachable 4 (take 10 example_trace) two_queued) as Hr
    by (exists (take 10 example_main); reflexivity).
  split; [exact Hr|].
  exact (proj1 (enqueue_is_accepted 4 _ _ Hr eq_refl)).
Defined.

(** * The programs, whatever the scheduler does *)

Lemma main_views k v :
  client_run 4 (take k main) (view_of [] (ThreadPool 4)) = Some v →
  (EThrew ∉ v_pcs v) ∧
  (∀ h b, v_fns v !! h = Some b →
          h < 4 ∧ b () = Returned (Z.of_nat h + 1)%Z) ∧
  (v_reads v = [] ∨ v_reads v = [0]) ∧
  (v_dtor v = DDestroyed →
   v_pcs v = replicate 4 EReturned ∧ v_reads v = [0]).
Proof.
  intros H.
  assert (∃ j, j ≤ 25 ∧ take k main = take j main) as (j & Hj & Heq).
  { destruct (decide (k ≤ 25)); [by eauto|].
    exists 25. split; [done|]. by rewrite !take_ge by (simpl; lia). }
  rewrite Heq in H. clear Heq k.
  do 26 (destruct j as [|j];
         [vm_compute in H; injection H as <-; simpl; split_and!;
          [ intros Hin;
            repeat (apply elem_of_cons in Hin as [?|Hin]; [done|]);
            by apply elem_of_nil in Hin
          | intros h b Hl;
            repeat (destruct h as [|h]; [simplify_eq/=; split; [lia|done]|]);
            done
          | by auto
          | by intros ]
         |]).
  lia.
Qed.

Lemma main_view cs tr s :
  run (schedule main cs) (ThreadPool 4) = Some (tr, s) →
  client_run 4 (take (mains cs) main) (view_of [] (ThreadPool 4))
  = Some (view_of tr s).
Proof.
  by apply (client_views 4 main
              (View (replicate 4 EReturned)
                 [bind f 1%Z; bind f 2%Z; bind f 3%Z; bind f 4%Z]
                 DDestroyed [0])).
Qed.

(** [main] of example.cpp, under every scheduling of its thread and the four
    workers (spurious wake-ups included): no call of [enqueue] is turned
    away; the task of the n-th call, whenever a worker runs it, returns n;
    the one handle that is read is the first, and the read returns 1; and
    when the pool is destroyed at the end of [main] the four tasks have
    been run, each once, and the result was read. *)
Theorem main_is_correct cs tr s :
  run (schedule main cs) (ThreadPool 4) = Some (tr, s) →
  (∀ h, EvReject h ∉ tr) ∧
  (∀ w h o, EvRun w h o ∈ tr → h < 4 ∧ o = Returned (Z.of_nat h + 1)%Z) ∧
  (∀ h r, EvGet h r ∈ tr → h = 0 ∧ r = GetValue 1%Z) ∧
  (dtor s = DDestroyed →
   executed tr ≡ₚ [0; 1; 2; 3] ∧ EvGet 0 (GetValue 1%Z) ∈ tr).
Proof.
  intros Hrun.
  assert (reachable 4 tr s) as Hr by (by eexists).
  pose proof (reachable_wf _ _ _ Hr) as Hwf.
  pose proof (reachable_hist _ _ _ Hr) as Hh.
  pose proof (reachable_evts _ _ _ Hr) as He.
  destruct (main_views _ _ (main_view _ _ _ Hrun)) as (Hpcs & Hfns & Hreads & Hend).
  simpl in Hpcs, Hfns, Hreads, Hend.
  assert (∀ h i, invocations s !! h = Some i →
            h < 4 ∧ callable i () = Returned (Z.of_nat h + 1)%Z) as Hcall.
  { intros h i Hi. apply Hfns. by rewrite list_lookup_fmap, Hi. }
  assert (∀ h r, EvGet h r ∈ tr → h = 0 ∧ r = GetValue 1%Z) as Hget.
  { intros h r Hin.
    assert (reads tr = [0]) as Hone.
    { destruct Hreads as [Hnil|?]; [|done].
      assert (h ∈ reads tr) as Hx by (apply elem_of_reads; eauto).
      rewrite Hnil in Hx. by apply elem_of_nil in Hx. }
    assert (h = 0) as ->.
    { assert (h ∈ reads tr) as Hx by (apply elem_of_reads; eauto).
      rewrite Hone in Hx. by apply list_elem_of_singleton in Hx. }
    split; [done|].
    apply list_elem_of_split in Hin as (l1 & l2 & ->).
    destruct (first_read 4 l1 0 r l2 s Hr) as (i & Hi & ->); [lia| |].
    - intros Hx. unfold reads in Hone, Hx. rewrite omap_app in Hone.
      simpl in Hone. destruct (omap _ l1) as [|x l]; [by apply elem_of_nil in Hx|].
      simplify_eq/=. by destruct l.
    - destruct (Hcall _ _ Hi) as [_ ->]. done. }
  split_and!.
  - intros h (i & Hi & Hpc)%(ev_reject _ _ _ He). apply Hpcs.
    apply list_elem_of_fmap. exists i. split; [done|].
    by eapply list_elem_of_lookup_2.
  - intros w h o Hin.
    destruct (res_run _ _ (reachable_results _ _ _ Hr) _ _ _ Hin)
      as (i & Hi & _ & ->).
    by apply Hcall.
  - done.
  - intros Hd. destruct (Hend Hd) as [Hall Hone].
    destruct (drained_when_destroyed 4 tr s) as (_ & _ & Hw & Hdone & _);
      [lia|done..|].
    split.
    + apply NoDup_Permutation.
      * pose proof (hist_nodup _ _ Hh) as Hn. rewrite (hist_fifo _ _ Hh) in Hn.
        apply NoDup_app in Hn as (Hn & _ & _).
        rewrite (hist_running _ _ Hh) in Hn.
        by apply NoDup_app in Hn as (Hn & _ & _).
      * apply (NoDup_seq 0 4).
      * intros h. change [0; 1; 2; 3] with (seq 0 4).
        rewrite elem_of_seq. split.
        -- intros (i & Hi & _)%(hist_executed _ _ Hh).
           destruct (Hcall _ _ Hi). lia.
        -- intros [_ Hlt]. apply Hdone, (hist_pushed _ _ Hh).
           assert ((pc <$> invocations s) !! h = Some EReturned) as Hp.
           { rewrite Hall. by do 4 (destruct h as [|h]; [done|]); lia. }
           rewrite list_lookup_fmap in Hp.
           destruct (invocations s !! h) as [i|]; simplify_eq/=. eauto.
    + assert (0 ∈ reads tr) as [r Hin]%elem_of_reads
        by (rewrite Hone; apply list_elem_of_singleton; done).
      by destruct (Hget _ _ Hin) as [_ ->].
Qed.

(** ** [main] comes to its end *)

Lemma main_sequential k o v :
  main !! k = Some o →
  client_run 4 (take k main) (view_of [] (ThreadPool 4)) = Some v →
  sequential v o.
Proof.
  intros Ho H.
  do 25 (destruct k as [|k];
         [vm_compute in H; injection H as <-; injection Ho as <-;
          unfold sequential, all_returned; simpl;
          repeat match goal with |- _ ∧ _ => split end; try done;
          intros h p; intros;
          do 5 (try (destruct h as [|h]; [by simplify_eq/=|]));
          by simplify_eq/=
         |]).
  cbv in Ho. discriminate Ho.
Qed.

(** [main] of example.cpp does not get stuck: however its thread and the
    workers have been scheduled so far, they can be scheduled on so that
    [main] comes to its end, the pool destroyed. *)
Theorem main_can_finish cs tr s :
  run (schedule main cs) (ThreadPool 4) = Some (tr, s) →
  ∃ cs' tr' s',
    run (schedule main (cs ++ cs')) (ThreadPool 4) = Some (tr ++ tr', s') ∧
    dtor s' = DDestroyed.
Proof.
  intros Hrun.
  destruct (client_can_finish 4 main
              (View (replicate 4 EReturned)
                 [bind f 1%Z; bind f 2%Z; bind f 3%Z; bind f 4%Z]
                 DDestroyed [0])
              ltac:(lia) eq_refl main_sequential 25 cs tr s Hrun)
    as (cs' & tr' & s' & Hrun' & Hv); [simpl; lia|].
  exists cs', tr', s'. split; [done|]. by injection Hv.
Qed.

Lemma main_is_correct_witness :
  run (schedule main example_choices) (ThreadPool 4)
  = Some (example_trace, example_state) ∧
  executed example_trace ≡ₚ [0; 1; 2; 3].
Proof.
  assert (run (schedule main example_choices) (ThreadPool 4)
          = Some (example_trace, example_state)) as Hrun by reflexivity.
  split; [exact Hrun|].
  destruct (main_is_correct _ _ _ Hrun) as (_ & _ & _ & Hend).
  exact (proj1 (Hend eq_refl)).
Defined.

Lemma main_can_finish_witness :
  run (schedule main (take 10 example_choices)) (ThreadPool 4)
  = Some (take 10 example_trace, two_queued) ∧
  ∃ cs' tr' s',
    run (schedule main (take 10 example_choices ++ cs')) (ThreadPool 4)
    = Some (take 10 example_trace ++ tr', s') ∧
    dtor s' = DDestroyed.
Proof.
  assert (run (schedule main (take 10 example_choices)) (ThreadPool 4)
          = Some (take 10 example_trace, two_queued)) as Hrun by reflexivity.
  split; [exact Hrun|]. exact (main_can_finish _ _ _ Hrun).
Defined.

Lemma destructor_follows_its_code_witness :
  reachable 4 example_trace example_state ∧
  before (EvExit 2) (EvJoin 2) example_trace.
Proof.
  assert (reachable 4 example_trace example_state) as Hr
    by (exists example_main; reflexivity).
  split; [exact Hr|].
  destruct (destructor_follows_its_code 4 _ _ Hr) as (_ & Hjoin & _).
  refine (proj1 (proj2 (Hjoin 2 _))).
  unfold example_trace. do 44 right. left.
Defined.

Lemma spurious_wakeup_is_harmless_witness :
  workers idle_pool !! 0 = Some WWaiting ∧
  run [AWake 0; AWorker 0; AWorker 0] idle_pool
  = Some ([EvSpurious 0; EvLock (Worker 0); EvWait 0], idle_pool).
Proof.
  split; [reflexivity|].
  apply spurious_wakeup_is_harmless; reflexivity.
Defined.


